(** * Letterbox resizing and non-maximum suppression of [mydetect.py]

    A shallow embedding of the numerical core of [mydetect.py]
    ([letterbox], [box_iou], [xywh2xyxy], [non_max_suppression], and the
    route [predict] that composes them) together with the properties its
    specification states about it and further properties of the code.

    Number models.  The code computes on float32 tensors, and the
    embedding has [box_iou], [xywh2xyxy] and [non_max_suppression]
    twice.

    In the first model tensor entries are exact rationals ([Q]); the one
    place where the code can leave the finite numbers, the division
    [inter / union] of [box_iou], has its IEEE outcomes ([x / 0] is an
    infinity, [0 / 0] is not a number).  This model carries the properties
    that rest on the control flow and on comparisons: counts, order,
    thresholds, error paths, what the tensors hold afterwards.

    In the second model ([box_iou32], [xywh2xyxy32],
    [non_max_suppression32]) every operation rounds its exact result to
    binary32, to nearest with ties to even, with gradual underflow,
    overflow to the infinities and not-a-number.  This model carries the
    properties that rest on the arithmetic: the overlap of two boxes, the
    class offset, a second run on re-encoded detections.  The entries of
    the input tensors are finite.

    [letterbox] computes on Python integers; its one float computation,
    the scaled size, is exact in the model: the code rounds the float64
    product [shape * r], which can fall on the other side of a half than
    the exact product does.

    The file has two parts: the embedding (definitions only), then the
    lemmas and theorems about it. *)

From stdpp Require Import base option list sorting strings gmap.
From Stdlib Require Import ZArith QArith Qminmax Qround Qabs Qpower Lia Lqa.

(** Rational notations are written with an explicit [%Q]. *)
Close Scope Q_scope.

(* ===================================================================== *)
(** * Part I: the embedding                                               *)
(* ===================================================================== *)

(** ** Numbers *)

(** Strict comparison [a < b] on tensor entries, as a boolean. *)
Definition Qltb (a b : Q) : bool := negb (Qle_bool b a).

(** Outcome of a float division: a finite number, an infinity with its
    sign ([true] is [+inf]), or not-a-number. *)
Inductive fnum : Type :=
  | Fin (q : Q)
  | Inf (positive : bool)
  | NaN.

(** [n / d] for finite [n] and [d]. *)
Definition fdiv (n d : Q) : fnum :=
  if Qeq_bool d 0 then
    if Qeq_bool n 0 then NaN else Inf (Qltb 0 n)
  else Fin (n / d).

(** [f > t] for a finite threshold [t]; a comparison with NaN is false. *)
Definition fgt (f : fnum) (t : Q) : bool :=
  match f with
  | Fin q => Qltb t q
  | Inf positive => positive
  | NaN => false
  end.

(** Equality of division outcomes up to the value of the rational. *)
Definition feq (f g : fnum) : Prop :=
  match f, g with
  | Fin p, Fin q => (p == q)%Q
  | Inf a, Inf b => a = b
  | NaN, NaN => True
  | _, _ => False
  end.

(** [f] is a finite number in the closed interval [[lo, hi]]. *)
Definition fin_between (lo hi : Q) (f : fnum) : Prop :=
  match f with
  | Fin q => (lo <= q /\ q <= hi)%Q
  | _ => False
  end.

(** Python's [round] on a float: to the nearest integer, ties to the even
    one. *)
Definition py_round (q : Q) : Z :=
  let f := Qfloor q in
  let frac := (q - inject_Z f)%Q in
  if Qltb frac (1 # 2)%Q then f
  else if Qltb (1 # 2)%Q frac then (f + 1)%Z
  else if Z.even f then f else (f + 1)%Z.

(** Python's slice [l[:m]]: a negative [m] counts from the end. *)
Definition py_take {A} (m : Z) (l : list A) : list A :=
  if (0 <=? m)%Z then take (Z.to_nat m) l
  else take (length l - Z.to_nat (- m)) l.

(** ** Exceptions *)

Inductive exn : Type :=
  | AssertionError (msg : string)
  | IndexError
  | RuntimeError
  | ZeroDivisionError
  | CvError.

Inductive result (A : Type) : Type :=
  | Ok (a : A)
  | Raise (e : exn).
Arguments Ok {A} a.
Arguments Raise {A} e.

Definition rbind {A B} (r : result A) (k : A -> result B) : result B :=
  match r with
  | Ok a => k a
  | Raise e => Raise e
  end.

#[export] Instance result_ret : MRet result := fun A a => Ok a.
#[export] Instance result_bind : MBind result := fun A B k r => rbind r k.

(** [assert c, msg] *)
Definition assert (c : bool) (msg : string) : result unit :=
  if c then Ok tt else Raise (AssertionError msg).

(** ** Box geometry *)

(** A box in corner form, (x1, y1, x2, y2). *)
Record box : Type := Box { bx1 : Q; by1 : Q; bx2 : Q; by2 : Q }.

(** [box_area] of [box_iou]. *)
Definition box_area (b : box) : Q := ((bx2 b - bx1 b) * (by2 b - by1 b))%Q.

(** [.clamp(0)] *)
Definition clamp0 (q : Q) : Q := Qmax 0 q.

(** [(min(rb1, rb2) - max(lt1, lt2)).clamp(0).prod()] for one pair. *)
Definition box_inter (a b : box) : Q :=
  (clamp0 (Qmin (bx2 a) (bx2 b) - Qmax (bx1 a) (bx1 b)) *
   clamp0 (Qmin (by2 a) (by2 b) - Qmax (by1 a) (by1 b)))%Q.

(** One entry of the matrix of [box_iou]:
    [inter / (area1 + area2 - inter)]. *)
Definition iou (a b : box) : fnum :=
  let inter := box_inter a b in
  fdiv inter (box_area a + box_area b - inter)%Q.

(** [box_iou(box1, box2)]: the N x M matrix of pairwise values. *)
Definition box_iou (box1 box2 : list box) : list (list fnum) :=
  (fun a => (fun b => iou a b) <$> box2) <$> box1.

(** [xywh2xyxy] on one row (cx, cy, w, h). *)
Definition xywh2xyxy (cx cy w h : Q) : box :=
  {| bx1 := (cx - w / 2)%Q;
     by1 := (cy - h / 2)%Q;
     bx2 := (cx + w / 2)%Q;
     by2 := (cy + h / 2)%Q |}.

(** The corner form of the data model: x1 <= x2 and y1 <= y2. *)
Definition corner_form (b : box) : Prop :=
  (bx1 b <= bx2 b /\ by1 b <= by2 b)%Q.

(** A box shifted by [c] on all four coordinates ([x[:, :4] + c]). *)
Definition box_shift (b : box) (c : Q) : box :=
  {| bx1 := (bx1 b + c)%Q; by1 := (by1 b + c)%Q;
     bx2 := (bx2 b + c)%Q; by2 := (by2 b + c)%Q |}.

(** Boxes equal up to the value of their coordinates. *)
Definition box_eq (a b : box) : Prop :=
  (bx1 a == bx1 b /\ by1 a == by1 b /\ bx2 a == bx2 b /\ by2 a == by2 b)%Q.

(** ** Letterbox *)

(** [new_shape]: one edge length or a (height, width) pair. *)
Inductive target : Type :=
  | Edge (n : Z)
  | HW (h w : Z).

(** [if isinstance(new_shape, int): new_shape = (new_shape, new_shape)] *)
Definition target_hw (t : target) : Z * Z :=
  match t with
  | Edge n => (n, n)
  | HW h w => (h, w)
  end.

(** [np.mod] on integers: the sign of the divisor, and 0 for a zero
    divisor. *)
Definition np_mod (a s : Z) : Z := if (s =? 0)%Z then 0%Z else (a mod s)%Z.

(** What [letterbox] computes about the geometry of its result.  The pixel
    content (the interpolation of [cv2.resize]) is not modelled. *)
Record letterboxed : Type := Letterboxed {
  lb_unpad : Z * Z;       (* new_unpad: (width, height) of the resized image *)
  lb_top : Z; lb_bottom : Z; lb_left : Z; lb_right : Z;
  lb_height : Z; lb_width : Z;   (* im.shape[:2] of the returned image *)
  lb_ratio : Q * Q;
  lb_pad : Q * Q          (* (dw, dh), halved *)
}.

(** [cv2.resize(im, dsize)]: an empty [dsize] is rejected. *)
Definition cv_resize (dsize : Z * Z) : result (Z * Z) :=
  if ((0 <? fst dsize) && (0 <? snd dsize))%Z then Ok (snd dsize, fst dsize)
  else Raise CvError.

(** [cv2.copyMakeBorder]: the shape of the result; negative borders are
    rejected. *)
Definition cv_copyMakeBorder (shape : Z * Z) (top bottom left right : Z)
  : result (Z * Z) :=
  if ((0 <=? top) && (0 <=? bottom) && (0 <=? left) && (0 <=? right))%Z
  then Ok (fst shape + top + bottom, snd shape + left + right)%Z
  else Raise CvError.

(** "Scale ratio (new / old)": [r = min(new_shape[0] / shape[0],
    new_shape[1] / shape[1])], capped at 1 when [scaleup] is off. *)
Definition scale_ratio (shape new_shape : Z * Z) (scaleup : bool) : Q :=
  let r := Qmin (inject_Z (fst new_shape) / inject_Z (fst shape))%Q
                (inject_Z (snd new_shape) / inject_Z (snd shape))%Q in
  if scaleup then r else Qmin r 1.

(** [new_unpad = int(round(shape[1] * r)), int(round(shape[0] * r))]:
    (width, height). *)
Definition scaled_size (shape : Z * Z) (r : Q) : Z * Z :=
  (py_round (inject_Z (snd shape) * r)%Q, py_round (inject_Z (fst shape) * r)%Q).

(** [letterbox(im, new_shape, color, auto, scaleFill, scaleup, stride)] on
    an image of shape [(h, w)]. *)
Definition letterbox (shape : Z * Z) (new_shape : target)
    (auto scaleFill scaleup : bool) (stride : Z) : result letterboxed :=
  let '(h, w) := shape in
  let '(nh, nw) := target_hw new_shape in
  if ((h =? 0) || (w =? 0))%Z then Raise ZeroDivisionError else
  let r := scale_ratio shape (nh, nw) scaleup in
  let new_unpad := scaled_size shape r in
  let dw := (nw - fst new_unpad)%Z in
  let dh := (nh - snd new_unpad)%Z in
  let '(dw, dh, new_unpad, ratio) :=
    if auto then (np_mod dw stride, np_mod dh stride, new_unpad, (r, r))
    else if scaleFill then
      (0%Z, 0%Z, (nw, nh),
       ((inject_Z nw / inject_Z w)%Q, (inject_Z nh / inject_Z h)%Q))
    else (dw, dh, new_unpad, (r, r)) in
  let dw := (inject_Z dw / 2)%Q in
  let dh := (inject_Z dh / 2)%Q in
  im ← (if decide ((w, h) = new_unpad) then Ok (h, w) else cv_resize new_unpad);
  let top := py_round (dh - (1 # 10))%Q in
  let bottom := py_round (dh + (1 # 10))%Q in
  let left := py_round (dw - (1 # 10))%Q in
  let right := py_round (dw + (1 # 10))%Q in
  im ← cv_copyMakeBorder im top bottom left right;
  Ok {| lb_unpad := new_unpad;
        lb_top := top; lb_bottom := bottom; lb_left := left; lb_right := right;
        lb_height := fst im; lb_width := snd im;
        lb_ratio := ratio; lb_pad := (dw, dh) |}.

(** ** The prediction tensor and the detections *)

(** One row of the prediction tensor: (cx, cy, w, h, objectness,
    class scores...).  The row has [5 + nc] entries. *)
Record anchor : Type := Anchor {
  a_cx : Q; a_cy : Q; a_w : Q; a_h : Q;
  a_obj : Q;
  a_cls : list Q
}.

(** The tensor [prediction] of shape [B, N, 5 + nc]: [p_nc] is
    [prediction.shape[2] - 5]. *)
Record prediction : Type := Prediction {
  p_nc : nat;
  p_images : list (list anchor)
}.

(** Every row has [p_nc] class scores. *)
Definition well_shaped (p : prediction) : Prop :=
  Forall (Forall (fun a => length (a_cls a) = p_nc p)) (p_images p).

(** One row of an apriori label tensor: (class, x, y, w, h). *)
Record label : Type := Label {
  l_cls : Q; l_x : Q; l_y : Q; l_w : Q; l_h : Q
}.

(** One row of the n x 6 detections matrix: (xyxy, conf, cls).  The class
    is the column index [j] that the code stores as [j.float()]. *)
Record det : Type := Det {
  d_box : box;
  d_conf : Q;
  d_cls : nat
}.

(** ** Tensor primitives *)

(** Boolean-mask indexing [x[mask]]. *)
Definition mask_index {A} (x : list A) (mask : list bool) : list A :=
  (filter (fun p => snd p = true) (zip x mask)).*1.

(** Indexing by a tensor of indices, [x[i]]; an index out of range
    raises. *)
Fixpoint rows {A} (x : list A) (i : list nat) : result (list A) :=
  match i with
  | [] => Ok []
  | k :: i' =>
      match x !! k with
      | Some r => rs ← rows x i'; Ok (r :: rs)
      | None => Raise IndexError
      end
  end.

(** [.long()]: truncation towards zero. *)
Definition long (q : Q) : Z := if Qltb q 0 then Qceiling q else Qfloor q.

(** [v[k] = q] on one row, columns counted over the whole row. *)
Definition set_col (k : nat) (q : Q) (a : anchor) : anchor :=
  match k with
  | 0 => Anchor q (a_cy a) (a_w a) (a_h a) (a_obj a) (a_cls a)
  | 1 => Anchor (a_cx a) q (a_w a) (a_h a) (a_obj a) (a_cls a)
  | 2 => Anchor (a_cx a) (a_cy a) q (a_h a) (a_obj a) (a_cls a)
  | 3 => Anchor (a_cx a) (a_cy a) (a_w a) q (a_obj a) (a_cls a)
  | 4 => Anchor (a_cx a) (a_cy a) (a_w a) (a_h a) q (a_cls a)
  | S (S (S (S (S j)))) =>
      Anchor (a_cx a) (a_cy a) (a_w a) (a_h a) (a_obj a) (<[j:=q]> (a_cls a))
  end.

(** An index into a dimension of size [n]: negative indices count from the
    end, anything outside [-n, n) raises. *)
Definition wrap_index (n : nat) (k : Z) : result nat :=
  if ((k <? - Z.of_nat n) || (Z.of_nat n <=? k))%Z then Raise IndexError
  else if (k <? 0)%Z then Ok (Z.to_nat (k + Z.of_nat n))
  else Ok (Z.to_nat k).

(** Traversal of a list with a function that can raise. *)
Fixpoint traverse {A B} (f : A -> result B) (l : list A) : result (list B) :=
  match l with
  | [] => Ok []
  | a :: l' => b ← f a; bs ← traverse f l'; Ok (b :: bs)
  end.

(** [x[:, 5:].max(1)] on one row: the maximum and the index of its first
    occurrence, scanning from column [i] with [(best, bi)] the running
    maximum. *)
Fixpoint row_max_from (best : Q) (bi i : nat) (l : list Q) : Q * nat :=
  match l with
  | [] => (best, bi)
  | s :: l' =>
      if Qltb best s then row_max_from s i (S i) l'
      else row_max_from best bi (S i) l'
  end.

(** A reduction over an empty dimension raises. *)
Definition row_max (l : list Q) : result (Q * nat) :=
  match l with
  | [] => Raise RuntimeError
  | s :: l' => Ok (row_max_from s 0 1 l')
  end.

(** ** Sorting by score *)

(** Insertion of an (index, score) pair into a list sorted by decreasing
    score, after the entries of equal score. *)
Fixpoint insert_desc (p : nat * Q) (l : list (nat * Q)) : list (nat * Q) :=
  match l with
  | [] => [p]
  | q :: l' =>
      if Qltb (snd q) (snd p) then p :: q :: l'
      else q :: insert_desc p l'
  end.

(** Stable sort by decreasing score. *)
Definition sort_desc (l : list (nat * Q)) : list (nat * Q) :=
  foldl (fun acc p => insert_desc p acc) [] l.

(** [scores.argsort(descending=True)], and the order that
    [torchvision.ops.nms] visits the boxes in: indices by decreasing
    score, equal scores in index order. *)
Definition argsort_desc (scores : list Q) : list nat :=
  (sort_desc (imap pair scores)).*1.

(** ** [torchvision.ops.nms] *)

(** [ovr > iou_threshold] for the boxes of indices [i] and [j]. *)
Definition overlaps (boxes : list box) (thr : Q) (i j : nat) : bool :=
  match boxes !! i, boxes !! j with
  | Some a, Some b => fgt (iou a b) thr
  | _, _ => false
  end.

(** [suppressed[j]], a read of the mark array of the kernel. *)
Definition suppressed_at (suppressed : list bool) (j : nat) : bool :=
  default false (suppressed !! j).

(** Inner loop of the kernel at the kept box [i]: every later box of the
    order that is not yet suppressed and overlaps [i] is marked. *)
Definition suppress_from (boxes : list box) (thr : Q) (i : nat)
    (rest : list nat) (suppressed : list bool) : list bool :=
  foldl (fun (s : list bool) (j : nat) =>
           if suppressed_at s j then s
           else if overlaps boxes thr i j then <[j:=true]> s else s)
        suppressed rest.

(** Outer loop of the kernel over the boxes in the order of the sort. *)
Fixpoint nms_loop (boxes : list box) (thr : Q) (order : list nat)
    (suppressed : list bool) : list nat :=
  match order with
  | [] => []
  | i :: rest =>
      if suppressed_at suppressed i then nms_loop boxes thr rest suppressed
      else i :: nms_loop boxes thr rest (suppress_from boxes thr i rest suppressed)
  end.

(** [torchvision.ops.nms(boxes, scores, iou_threshold)], after the CPU
    kernel of the library: the indices of the kept boxes, by decreasing
    score.  The kernel computes the overlap of two boxes by the formula of
    [box_iou]. *)
Definition nms (boxes : list box) (scores : list Q) (iou_threshold : Q)
  : list nat :=
  nms_loop boxes iou_threshold (argsort_desc scores)
           (replicate (length boxes) false).

(** ** [non_max_suppression] *)

(** Settings of [non_max_suppression].  [min_wh], [time_limit] and
    [redundant] are read by no code that runs: the width-height constraint
    is commented out, and [merge] is the constant [False]. *)
Definition max_wh : Q := 4096%Q.
Definition max_nms : Z := 30000%Z.

(** [x[:, 5:] *= x[:, 4:5]] on one row. *)
Definition fuse (a : anchor) : anchor :=
  Anchor (a_cx a) (a_cy a) (a_w a) (a_h a) (a_obj a)
         ((fun s => (s * a_obj a)%Q) <$> a_cls a).

(** [xywh2xyxy(x[:, :4])] on one row. *)
Definition anchor_box (a : anchor) : box :=
  xywh2xyxy (a_cx a) (a_cy a) (a_w a) (a_h a).

(** The row of [v] built from one label row: zeros, then the box, then
    confidence 1, then 1 at column [cls + 5]. *)
Definition label_row (nc : nat) (l : label) : result anchor :=
  let v := Anchor 0%Q 0%Q 0%Q 0%Q 0%Q (replicate nc 0%Q) in
  let v := Anchor (l_x l) (l_y l) (l_w l) (l_h l) (a_obj v) (a_cls v) in
  let v := set_col 4 1%Q v in
  k ← wrap_index (nc + 5) (long (l_cls l) + 5)%Z;
  Ok (set_col k 1%Q v).

(** "Cat apriori labels if autolabelling": the rows [v] to append to the
    rows of image [xi], [None] when the condition
    [labels and len(labels[xi])] is false. *)
Definition label_rows (nc : nat) (labels : list (list label)) (xi : nat)
  : result (option (list anchor)) :=
  match labels with
  | [] => Ok None
  | _ =>
      match labels !! xi with
      | None => Raise IndexError
      | Some [] => Ok None
      | Some l => v ← traverse (label_row nc) l; Ok (Some v)
      end
  end.

(** Multi-label selection: one detection per (row, class) pair whose
    fused score exceeds the threshold, in row-major order. *)
Definition select_multi (conf_thres : Q) (x : list anchor) : list det :=
  x ≫= fun a =>
    omap (fun p => if Qltb conf_thres (snd p)
                   then Some (Det (anchor_box a) (snd p) (fst p))
                   else None)
         (imap pair (a_cls a)).

(** Best class only: the best score of each row and its class, then the
    rows whose best score exceeds the threshold. *)
Definition select_best (conf_thres : Q) (x : list anchor)
  : result (list det) :=
  x ← traverse (fun a => m ← row_max (a_cls a);
                         Ok (Det (anchor_box a) (fst m) (snd m))) x;
  Ok (filter (fun d => Qltb conf_thres (d_conf d) = true) x).

(** "Filter by class": the rows whose class is one of [classes]. *)
Definition filter_classes (classes : option (list Z)) (x : list det)
  : list det :=
  match classes with
  | None => x
  | Some cl =>
      filter (fun d => existsb (fun c => (c =? Z.of_nat (d_cls d))%Z) cl = true) x
  end.

(** The class offset of a row: [x[:, 5:6] * (0 if agnostic else max_wh)]. *)
Definition class_offset (agnostic : bool) (d : det) : Q :=
  (inject_Z (Z.of_nat (d_cls d)) * (if agnostic then 0 else max_wh))%Q.

(** The boxes handed to [nms]: [x[:, :4] + c]. *)
Definition offset_box (agnostic : bool) (d : det) : box :=
  box_shift (d_box d) (class_offset agnostic d).

(** The indices kept by the "Batched NMS" step. *)
Definition nms_keep (x : list det) (agnostic : bool) (iou_thres : Q)
  : list nat :=
  nms (offset_box agnostic <$> x) (d_conf <$> x) iou_thres.

(** [if i.shape[0] > max_det: i = i[:max_det]] *)
Definition limit_det (max_det : Z) (i : list nat) : list nat :=
  if (max_det <? Z.of_nat (length i))%Z then py_take max_det i else i.

(** "Batched NMS" up to [output[xi] = x[i]].  The merge block between the
    two is guarded by the constant [merge = False] and never runs. *)
Definition batched_nms (x : list det) (agnostic : bool) (iou_thres : Q)
    (max_det : Z) : result (list det) :=
  rows x (limit_det max_det (nms_keep x agnostic iou_thres)).

(** The rows of image [xi] that enter the loop body proper: the rows
    selected by [mask] (which is [xc[xi]]), followed by the label rows. *)
Definition candidates (nc : nat) (labels : list (list label)) (xi : nat)
    (x : list anchor) (mask : list bool) : result (list anchor) :=
  let x := mask_index x mask in
  v ← label_rows nc labels xi;
  Ok (match v with
      | None => x
      | Some v => x ++ v
      end).

(** "Detections matrix nx6 (xyxy, conf, cls)". *)
Definition select (conf_thres : Q) (multi_label : bool) (x : list anchor)
  : result (list det) :=
  if multi_label then Ok (select_multi conf_thres x)
  else select_best conf_thres x.

(** The loop body from "Compute conf" on; [None] stands for [continue]. *)
Definition detect (conf_thres iou_thres : Q) (classes : option (list Z))
    (agnostic multi_label : bool) (max_det : Z) (x : list anchor)
  : result (option (list det)) :=
  x ← select conf_thres multi_label x;
  let x := filter_classes classes x in
  let n := length x in
  if decide (n = 0) then Ok None else
  x ← (if (max_nms <? Z.of_nat n)%Z
       then rows x (py_take max_nms (argsort_desc (d_conf <$> x)))
       else Ok x);
  out ← batched_nms x agnostic iou_thres max_det;
  Ok (Some out).

(** The body of the loop over the images; [mask] is [xc[xi]]. *)
Definition per_image (nc : nat) (conf_thres iou_thres : Q)
    (classes : option (list Z)) (agnostic multi_label : bool)
    (labels : list (list label)) (max_det : Z)
    (xi : nat) (x : list anchor) (mask : list bool)
  : result (option (list det)) :=
  x ← candidates nc labels xi x mask;
  match x with
  | [] => Ok None
  | _ =>
      let x := fuse <$> x in
      detect conf_thres iou_thres classes agnostic multi_label max_det x
  end.

(** The loop over the images, from image [xi] on, with the list [output]
    updated in place. *)
Fixpoint image_loop (nc : nat) (conf_thres iou_thres : Q)
    (classes : option (list Z)) (agnostic multi_label : bool)
    (labels : list (list label)) (max_det : Z)
    (xi : nat) (images : list (list anchor)) (xc : list (list bool))
    (output : list (list det)) : result (list (list det)) :=
  match images with
  | [] => Ok output
  | x :: images' =>
      r ← per_image nc conf_thres iou_thres classes agnostic multi_label
                    labels max_det xi x (xc !!! xi);
      let output := match r with
                    | None => output
                    | Some dets => <[xi:=dets]> output
                    end in
      image_loop nc conf_thres iou_thres classes agnostic multi_label labels
                 max_det (S xi) images' xc output
  end.

(** One image of [xc = prediction[..., 4] > conf_thres]. *)
Definition objectness_mask (conf_thres : Q) (x : list anchor) : list bool :=
  (fun a => Qltb conf_thres (a_obj a)) <$> x.

(** [0 <= t <= 1] *)
Definition valid_thres (t : Q) : bool := Qle_bool 0%Q t && Qle_bool t 1%Q.

(** [non_max_suppression(prediction, conf_thres, iou_thres, classes,
    agnostic, multi_label, labels, max_det)]. *)
Definition non_max_suppression (prediction : prediction)
    (conf_thres iou_thres : Q) (classes : option (list Z))
    (agnostic multi_label : bool) (labels : list (list label))
    (max_det : Z) : result (list (list det)) :=
  let nc := p_nc prediction in
  let xc := objectness_mask conf_thres <$> p_images prediction in
  _ ← assert (valid_thres conf_thres) "Invalid Confidence threshold";
  _ ← assert (valid_thres iou_thres) "Invalid IoU";
  let multi_label := multi_label && (1 <? nc) in
  let output := replicate (length (p_images prediction)) [] in
  image_loop nc conf_thres iou_thres classes agnostic multi_label labels
             max_det 0 (p_images prediction) xc output.

(** ** The tensors as shared storage

    The same function with the tensors that the loop indexes and updates
    in place held in a store: a handle names the storage of a tensor, a
    view shares the handle of the tensor it is taken from, and an
    operation that returns a new tensor allocates. *)

Abbreviation loc := positive (only parsing).
Abbreviation store := (gmap positive (list anchor)) (only parsing).

(** The rows stored at a handle. *)
Definition s_read (s : store) (l : loc) : list anchor := default [] (s !! l).

(** A new tensor holding [rows]. *)
Definition s_alloc (rows : list anchor) (s : store) : loc * store :=
  let l := fresh (dom s) in (l, <[l:=rows]> s).

(** [x[:, 5:] *= x[:, 4:5]]: the storage of [x] is overwritten. *)
Definition s_imul_conf (x : loc) (s : store) : store :=
  <[x:=fuse <$> s_read s x]> s.

(** The body of the loop; [x] is the view [prediction[xi]]. *)
Definition per_image_st (nc : nat) (conf_thres iou_thres : Q)
    (classes : option (list Z)) (agnostic multi_label : bool)
    (labels : list (list label)) (max_det : Z)
    (xi : nat) (x : loc) (mask : list bool) (s : store)
  : result (option (list det)) * store :=
  (* x = x[xc[xi]]: indexing with a mask returns a new tensor *)
  let '(x, s) := s_alloc (mask_index (s_read s x) mask) s in
  match label_rows nc labels xi with
  | Raise e => (Raise e, s)
  | Ok v =>
      (* x = torch.cat((x, v), 0): a new tensor *)
      let '(x, s) := match v with
                     | None => (x, s)
                     | Some v => s_alloc (s_read s x ++ v) s
                     end in
      match s_read s x with
      | [] => (Ok None, s)
      | _ =>
          let s := s_imul_conf x s in
          (detect conf_thres iou_thres classes agnostic multi_label max_det
                  (s_read s x), s)
      end
  end.

(** The loop over the views [prediction[xi]]. *)
Fixpoint image_loop_st (nc : nat) (conf_thres iou_thres : Q)
    (classes : option (list Z)) (agnostic multi_label : bool)
    (labels : list (list label)) (max_det : Z)
    (xi : nat) (images : list loc) (xc : list (list bool))
    (output : list (list det)) (s : store)
  : result (list (list det)) * store :=
  match images with
  | [] => (Ok output, s)
  | x :: images' =>
      match per_image_st nc conf_thres iou_thres classes agnostic
                         multi_label labels max_det xi x (xc !!! xi) s with
      | (Raise e, s) => (Raise e, s)
      | (Ok r, s) =>
          let output := match r with
                        | None => output
                        | Some dets => <[xi:=dets]> output
                        end in
          image_loop_st nc conf_thres iou_thres classes agnostic multi_label
                        labels max_det (S xi) images' xc output s
      end
  end.

(** [non_max_suppression] on a prediction tensor whose image [xi] is
    stored at [images !! xi]. *)
Definition non_max_suppression_st (nc : nat) (images : list loc)
    (conf_thres iou_thres : Q) (classes : option (list Z))
    (agnostic multi_label : bool) (labels : list (list label))
    (max_det : Z) (s : store) : result (list (list det)) * store :=
  let xc := (fun x => objectness_mask conf_thres (s_read s x)) <$> images in
  match assert (valid_thres conf_thres) "Invalid Confidence threshold" with
  | Raise e => (Raise e, s)
  | Ok _ =>
  match assert (valid_thres iou_thres) "Invalid IoU" with
  | Raise e => (Raise e, s)
  | Ok _ =>
      let multi_label := multi_label && (1 <? nc) in
      let output := replicate (length images) [] in
      image_loop_st nc conf_thres iou_thres classes agnostic multi_label
                    labels max_det 0 images xc output s
  end end.

(** The prediction tensor held in the store. *)
Definition stored_prediction (nc : nat) (images : list loc) (s : store)
  : prediction :=
  Prediction nc (s_read s <$> images).

(** ** The route [predict]

    The route reads an image file, letterboxes the image to 640 x 640,
    runs an ONNX session on it, scales the boxes of the output from
    fractions of the input size to pixels, and runs
    [non_max_suppression] with its default arguments; it returns a fixed
    string.  The file and the session are outside the program: the model
    takes the shape of the decoded image and a function that stands for
    the session, from the shape (h, w) of the input tensor to the output
    tensor.  The steps between [letterbox] and the session (the
    transposition to channels first, the channel flip, the division by
    255, the batch axis) keep the height and the width, which is all that
    the model holds of an image. *)

(** [pred[..., 0] *= w; pred[..., 1] *= h; pred[..., 2] *= w;
    pred[..., 3] *= h] on one row. *)
Definition scale_row (w h : Z) (a : anchor) : anchor :=
  Anchor (a_cx a * inject_Z w)%Q (a_cy a * inject_Z h)%Q
         (a_w a * inject_Z w)%Q (a_h a * inject_Z h)%Q
         (a_obj a) (a_cls a).

Definition scale_image (w h : Z) (x : list anchor) : list anchor :=
  scale_row w h <$> x.

Definition scale_pred (w h : Z) (pred : prediction) : prediction :=
  Prediction (p_nc pred) (scale_image w h <$> p_images pred).

(** [predict()] for a decoded image of shape [img0]. *)
Definition predict (img0 : Z * Z) (session_run : Z * Z -> prediction)
  : result string :=
  img ← letterbox img0 (HW 640 640) false false true 32;
  let h := lb_height img in
  let w := lb_width img in
  let pred := session_run (h, w) in
  let pred := scale_pred w h pred in
  pred ← non_max_suppression pred (1 # 4)%Q (45 # 100)%Q None false false
                             [] 300;
  Ok "App OK"%string.

(** ** binary32 numbers *)

(** [floor (log2 q)] for a positive rational [q]. *)
Definition Qlog2 (q : Q) : Z :=
  let k := (Z.log2 (Qnum q) - Z.log2 (Z.pos (Qden q)))%Z in
  if Qle_bool (2 ^ k)%Q q then k else (k - 1)%Z.

(** The exponent of the last place of a binary32 number of the magnitude
    of [q]: 24 significant bits, and no place below [2 ^ -149]. *)
Definition fl32_exp (q : Q) : Z := Z.max (Qlog2 (Qabs q) - 23) (-149).

(** The multiple of the last place nearest to [q], ties to the even
    multiple: rounding to binary32 before the overflow test. *)
Definition fl32 (q : Q) : Q :=
  if Qeq_bool q 0 then 0%Q
  else let e := fl32_exp q in
       Qred (inject_Z (py_round (q / 2 ^ e)) * 2 ^ e)%Q.

(** Rounding to binary32: a result of magnitude [2 ^ 128] or more is an
    infinity. *)
Definition rnd32 (q : Q) : fnum :=
  let v := fl32 q in
  if Qle_bool (2 ^ 128)%Q (Qabs v) then Inf (Qltb 0 v) else Fin v.

(** ** binary32 arithmetic

    A binary32 value is a [fnum]: a finite number, an infinity or
    not-a-number.  Each operation rounds its exact result to the nearest
    binary32 number, as IEEE 754 prescribes.  The sign of a zero is not
    represented.  Comparisons do not tell the two zeros apart, and the
    one divisor of the program that can be zero, the union in [box_iou]
    and in the kernel of [nms], is a difference [s - inter]: where it is
    zero and [inter] is not, it is the difference of two equal numbers,
    which is [+0]. *)

(** [x + y] *)
Definition f32_add (x y : fnum) : fnum :=
  match x, y with
  | Fin p, Fin q => rnd32 (p + q)
  | Fin _, Inf s => Inf s
  | Inf s, Fin _ => Inf s
  | Inf s, Inf t => if eqb s t then Inf s else NaN
  | _, _ => NaN
  end.

(** [x - y] *)
Definition f32_sub (x y : fnum) : fnum :=
  match x, y with
  | Fin p, Fin q => rnd32 (p - q)
  | Fin _, Inf s => Inf (negb s)
  | Inf s, Fin _ => Inf s
  | Inf s, Inf t => if eqb s t then NaN else Inf s
  | _, _ => NaN
  end.

(** The product of an infinity of sign [s] and the finite [p]. *)
Definition inf_times (s : bool) (p : Q) : fnum :=
  if Qeq_bool p 0 then NaN else Inf (eqb s (Qltb 0 p)).

(** [x * y] *)
Definition f32_mul (x y : fnum) : fnum :=
  match x, y with
  | Fin p, Fin q => rnd32 (p * q)
  | Fin p, Inf s => inf_times s p
  | Inf s, Fin p => inf_times s p
  | Inf s, Inf t => Inf (eqb s t)
  | _, _ => NaN
  end.

(** [x / y] *)
Definition f32_div (x y : fnum) : fnum :=
  match x, y with
  | Fin p, Fin q =>
      if Qeq_bool q 0 then
        if Qeq_bool p 0 then NaN else Inf (Qltb 0 p)
      else rnd32 (p / q)
  | Fin _, Inf _ => Fin 0
  | Inf s, Fin q => Inf (eqb s (Qle_bool 0 q))
  | _, _ => NaN
  end.

(** [x < y]; a comparison with not-a-number is false. *)
Definition f32_ltb (x y : fnum) : bool :=
  match x, y with
  | Fin p, Fin q => Qltb p q
  | Fin _, Inf s => s
  | Inf s, Fin _ => negb s
  | Inf s, Inf t => negb s && t
  | _, _ => false
  end.

(** [x == y] *)
Definition f32_eqb (x y : fnum) : bool :=
  match x, y with
  | Fin p, Fin q => Qeq_bool p q
  | Inf s, Inf t => eqb s t
  | _, _ => false
  end.

(** [torch.min] and [torch.max] of two entries: not-a-number
    propagates. *)
Definition f32_min (x y : fnum) : fnum :=
  match x, y with
  | NaN, _ | _, NaN => NaN
  | _, _ => if f32_ltb y x then y else x
  end.

Definition f32_max (x y : fnum) : fnum :=
  match x, y with
  | NaN, _ | _, NaN => NaN
  | _, _ => if f32_ltb x y then y else x
  end.

(** [.clamp(0)] *)
Definition f32_clamp0 (x : fnum) : fnum :=
  if f32_ltb x (Fin 0) then Fin 0 else x.

(** [std::max(a, b)] and [std::min(a, b)] of C++: [(a < b) ? b : a] and
    [(b < a) ? b : a]. *)
Definition std_max (a b : fnum) : fnum := if f32_ltb a b then b else a.
Definition std_min (a b : fnum) : fnum := if f32_ltb b a then b else a.

(** ** Box geometry in binary32 *)

(** A box of a float tensor, (x1, y1, x2, y2). *)
Record fbox : Type := FBox { fx1 : fnum; fy1 : fnum; fx2 : fnum; fy2 : fnum }.

(** A box of finite coordinates as a box of a float tensor. *)
Definition fbox_of (b : box) : fbox :=
  FBox (Fin (bx1 b)) (Fin (by1 b)) (Fin (bx2 b)) (Fin (by2 b)).

(** [box_area] of [box_iou]: [(box[2] - box[0]) * (box[3] - box[1])]. *)
Definition box_area32 (b : fbox) : fnum :=
  f32_mul (f32_sub (fx2 b) (fx1 b)) (f32_sub (fy2 b) (fy1 b)).

(** [(torch.min(rb1, rb2) - torch.max(lt1, lt2)).clamp(0).prod()] for one
    pair. *)
Definition box_inter32 (a b : fbox) : fnum :=
  f32_mul
    (f32_clamp0 (f32_sub (f32_min (fx2 a) (fx2 b)) (f32_max (fx1 a) (fx1 b))))
    (f32_clamp0 (f32_sub (f32_min (fy2 a) (fy2 b)) (f32_max (fy1 a) (fy1 b)))).

(** One entry of the matrix of [box_iou], in binary32:
    [inter / (area1 + area2 - inter)]. *)
Definition iou32 (a b : fbox) : fnum :=
  let inter := box_inter32 a b in
  f32_div inter (f32_sub (f32_add (box_area32 a) (box_area32 b)) inter).

(** [box_iou(box1, box2)] on float tensors. *)
Definition box_iou32 (box1 box2 : list fbox) : list (list fnum) :=
  (fun a => (fun b => iou32 a b) <$> box2) <$> box1.

(** [xywh2xyxy] on one row (cx, cy, w, h) of a float tensor. *)
Definition xywh2xyxy32 (cx cy w h : fnum) : fbox :=
  {| fx1 := f32_sub cx (f32_div w (Fin 2));
     fy1 := f32_sub cy (f32_div h (Fin 2));
     fx2 := f32_add cx (f32_div w (Fin 2));
     fy2 := f32_add cy (f32_div h (Fin 2)) |}.

(** ** [non_max_suppression] in binary32

    The function on float32 tensors.  The entries of the prediction tensor
    and of the label rows are finite numbers, as in the first model; what
    the function computes from them is rounded to binary32 and can
    overflow to an infinity.  The control flow is that of the first
    model. *)

(** One row after [x[:, 5:] *= x[:, 4:5]]: the row with its fused class
    scores. *)
Record frow : Type := FRow {
  r_cx : Q; r_cy : Q; r_w : Q; r_h : Q;
  r_obj : Q;
  r_cls : list fnum
}.

(** One row of the n x 6 detections matrix: (xyxy, conf, cls), with the
    class as the column index [j] that the code stores as [j.float()]. *)
Record fdet : Type := FDet {
  fd_box : fbox;
  fd_conf : fnum;
  fd_cls : nat
}.

(** [t > s] for a float tensor entry [t] and a Python number [s]: the
    number is cast to the type of the tensor before the comparison. *)
Definition gt_scalar (t : fnum) (s : Q) : bool := f32_ltb (rnd32 s) t.

(** [j.float()] *)
Definition cls32 (j : nat) : fnum := rnd32 (inject_Z (Z.of_nat j)).

(** One image of [xc = prediction[..., 4] > conf_thres]. *)
Definition objectness_mask32 (conf_thres : Q) (x : list anchor) : list bool :=
  (fun a => gt_scalar (Fin (a_obj a)) conf_thres) <$> x.

(** [x[:, 5:] *= x[:, 4:5]] on one row. *)
Definition fuse32 (a : anchor) : frow :=
  FRow (a_cx a) (a_cy a) (a_w a) (a_h a) (a_obj a)
       ((fun s => f32_mul (Fin s) (Fin (a_obj a))) <$> a_cls a).

(** [xywh2xyxy(x[:, :4])] on one row. *)
Definition anchor_box32 (r : frow) : fbox :=
  xywh2xyxy32 (Fin (r_cx r)) (Fin (r_cy r)) (Fin (r_w r)) (Fin (r_h r)).

(** [x[:, 5:].max(1)] on one row, scanning from column [i].  The fused
    scores are products of finite numbers, so none is not-a-number. *)
Fixpoint row_max32_from (best : fnum) (bi i : nat) (l : list fnum)
  : fnum * nat :=
  match l with
  | [] => (best, bi)
  | s :: l' =>
      if f32_ltb best s then row_max32_from s i (S i) l'
      else row_max32_from best bi (S i) l'
  end.

Definition row_max32 (l : list fnum) : result (fnum * nat) :=
  match l with
  | [] => Raise RuntimeError
  | s :: l' => Ok (row_max32_from s 0 1 l')
  end.

(** Multi-label selection. *)
Definition select_multi32 (conf_thres : Q) (x : list frow) : list fdet :=
  x ≫= fun r =>
    omap (fun p => if gt_scalar (snd p) conf_thres
                   then Some (FDet (anchor_box32 r) (snd p) (fst p))
                   else None)
         (imap pair (r_cls r)).

(** Best class only. *)
Definition select_best32 (conf_thres : Q) (x : list frow)
  : result (list fdet) :=
  x ← traverse (fun r => m ← row_max32 (r_cls r);
                         Ok (FDet (anchor_box32 r) (fst m) (snd m))) x;
  Ok (filter (fun d => gt_scalar (fd_conf d) conf_thres = true) x).

(** "Detections matrix nx6 (xyxy, conf, cls)". *)
Definition select32 (conf_thres : Q) (multi_label : bool) (x : list frow)
  : result (list fdet) :=
  if multi_label then Ok (select_multi32 conf_thres x)
  else select_best32 conf_thres x.

(** "Filter by class": the class column against the tensor of [classes],
    both as floats. *)
Definition filter_classes32 (classes : option (list Z)) (x : list fdet)
  : list fdet :=
  match classes with
  | None => x
  | Some cl =>
      filter (fun d => existsb (fun c => f32_eqb (cls32 (fd_cls d))
                                                 (rnd32 (inject_Z c))) cl = true) x
  end.

(** Insertion into a list sorted by decreasing score, after the entries
    of equal score. *)
Fixpoint insert_desc32 (p : nat * fnum) (l : list (nat * fnum))
  : list (nat * fnum) :=
  match l with
  | [] => [p]
  | q :: l' =>
      if f32_ltb (snd q) (snd p) then p :: q :: l'
      else q :: insert_desc32 p l'
  end.

Definition sort_desc32 (l : list (nat * fnum)) : list (nat * fnum) :=
  foldl (fun acc p => insert_desc32 p acc) [] l.

(** [scores.argsort(descending=True)] on a float tensor. *)
Definition argsort_desc32 (scores : list fnum) : list nat :=
  (sort_desc32 (imap pair scores)).*1.

(** [ovr] of the kernel of [torchvision.ops.nms] for the kept box [a]
    and a later box [b]:
    [inter / (iarea + areas[j] - inter)] with
    [inter = max(0, xx2 - xx1) * max(0, yy2 - yy1)]. *)
Definition kernel_iou (a b : fbox) : fnum :=
  let xx1 := std_max (fx1 a) (fx1 b) in
  let yy1 := std_max (fy1 a) (fy1 b) in
  let xx2 := std_min (fx2 a) (fx2 b) in
  let yy2 := std_min (fy2 a) (fy2 b) in
  let w := std_max (Fin 0) (f32_sub xx2 xx1) in
  let h := std_max (Fin 0) (f32_sub yy2 yy1) in
  let inter := f32_mul w h in
  f32_div inter (f32_sub (f32_add (box_area32 a) (box_area32 b)) inter).

(** [ovr > iou_threshold] for the boxes of indices [i] and [j]; the
    threshold is a double, and the comparison is exact. *)
Definition overlaps32 (boxes : list fbox) (thr : Q) (i j : nat) : bool :=
  match boxes !! i, boxes !! j with
  | Some a, Some b => fgt (kernel_iou a b) thr
  | _, _ => false
  end.

(** Inner loop of the kernel at the kept box [i]. *)
Definition suppress_from32 (boxes : list fbox) (thr : Q) (i : nat)
    (rest : list nat) (suppressed : list bool) : list bool :=
  foldl (fun (s : list bool) (j : nat) =>
           if suppressed_at s j then s
           else if overlaps32 boxes thr i j then <[j:=true]> s else s)
        suppressed rest.

(** Outer loop of the kernel over the boxes in the order of the sort. *)
Fixpoint nms_loop32 (boxes : list fbox) (thr : Q) (order : list nat)
    (suppressed : list bool) : list nat :=
  match order with
  | [] => []
  | i :: rest =>
      if suppressed_at suppressed i then nms_loop32 boxes thr rest suppressed
      else i :: nms_loop32 boxes thr rest
                           (suppress_from32 boxes thr i rest suppressed)
  end.

(** [torchvision.ops.nms(boxes, scores, iou_threshold)] on float
    tensors. *)
Definition nms32 (boxes : list fbox) (scores : list fnum) (iou_threshold : Q)
  : list nat :=
  nms_loop32 boxes iou_threshold (argsort_desc32 scores)
             (replicate (length boxes) false).

(** The class offset of a row: [x[:, 5:6] * (0 if agnostic else max_wh)]. *)
Definition class_offset32 (agnostic : bool) (d : fdet) : fnum :=
  f32_mul (cls32 (fd_cls d)) (Fin (if agnostic then 0 else max_wh)).

(** The boxes handed to [nms]: [x[:, :4] + c]. *)
Definition offset_box32 (agnostic : bool) (d : fdet) : fbox :=
  let c := class_offset32 agnostic d in
  let b := fd_box d in
  FBox (f32_add (fx1 b) c) (f32_add (fy1 b) c)
       (f32_add (fx2 b) c) (f32_add (fy2 b) c).

(** The indices kept by the "Batched NMS" step. *)
Definition nms_keep32 (x : list fdet) (agnostic : bool) (iou_thres : Q)
  : list nat :=
  nms32 (offset_box32 agnostic <$> x) (fd_conf <$> x) iou_thres.

(** "Batched NMS" up to [output[xi] = x[i]]. *)
Definition batched_nms32 (x : list fdet) (agnostic : bool) (iou_thres : Q)
    (max_det : Z) : result (list fdet) :=
  rows x (limit_det max_det (nms_keep32 x agnostic iou_thres)).

(** The loop body from "Compute conf" on; [None] stands for [continue]. *)
Definition detect32 (conf_thres iou_thres : Q) (classes : option (list Z))
    (agnostic multi_label : bool) (max_det : Z) (x : list frow)
  : result (option (list fdet)) :=
  x ← select32 conf_thres multi_label x;
  let x := filter_classes32 classes x in
  let n := length x in
  if decide (n = 0) then Ok None else
  x ← (if (max_nms <? Z.of_nat n)%Z
       then rows x (py_take max_nms (argsort_desc32 (fd_conf <$> x)))
       else Ok x);
  out ← batched_nms32 x agnostic iou_thres max_det;
  Ok (Some out).

(** The body of the loop over the images; [mask] is [xc[xi]]. *)
Definition per_image32 (nc : nat) (conf_thres iou_thres : Q)
    (classes : option (list Z)) (agnostic multi_label : bool)
    (labels : list (list label)) (max_det : Z)
    (xi : nat) (x : list anchor) (mask : list bool)
  : result (option (list fdet)) :=
  x ← candidates nc labels xi x mask;
  match x with
  | [] => Ok None
  | _ =>
      let x := fuse32 <$> x in
      detect32 conf_thres iou_thres classes agnostic multi_label max_det x
  end.

(** The loop over the images, from image [xi] on. *)
Fixpoint image_loop32 (nc : nat) (conf_thres iou_thres : Q)
    (classes : option (list Z)) (agnostic multi_label : bool)
    (labels : list (list label)) (max_det : Z)
    (xi : nat) (images : list (list anchor)) (xc : list (list bool))
    (output : list (list fdet)) : result (list (list fdet)) :=
  match images with
  | [] => Ok output
  | x :: images' =>
      r ← per_image32 nc conf_thres iou_thres classes agnostic multi_label
                      labels max_det xi x (xc !!! xi);
      let output := match r with
                    | None => output
                    | Some dets => <[xi:=dets]> output
                    end in
      image_loop32 nc conf_thres iou_thres classes agnostic multi_label
                   labels max_det (S xi) images' xc output
  end.

(** [non_max_suppression(prediction, conf_thres, iou_thres, classes,
    agnostic, multi_label, labels, max_det)] on float32 tensors. *)
Definition non_max_suppression32 (prediction : prediction)
    (conf_thres iou_thres : Q) (classes : option (list Z))
    (agnostic multi_label : bool) (labels : list (list label))
    (max_det : Z) : result (list (list fdet)) :=
  let nc := p_nc prediction in
  let xc := objectness_mask32 conf_thres <$> p_images prediction in
  _ ← assert (valid_thres conf_thres) "Invalid Confidence threshold";
  _ ← assert (valid_thres iou_thres) "Invalid IoU";
  let multi_label := multi_label && (1 <? nc) in
  let output := replicate (length (p_images prediction)) [] in
  image_loop32 nc conf_thres iou_thres classes agnostic multi_label labels
               max_det 0 (p_images prediction) xc output.

(** ** Vocabulary of the properties *)

(** Entry [(i, j)] of a matrix. *)
Definition entry {A} (m : list (list A)) (i j : nat) : option A :=
  m !! i ≫= fun r => r !! j.

(** Order of (index, score) pairs by decreasing score. *)
Definition score_ge (p q : nat * Q) : Prop := (snd q <= snd p)%Q.

(** Index [i] has a score no smaller than index [j]. *)
Definition index_score_ge (scores : list Q) (i j : nat) : Prop :=
  exists si sj, scores !! i = Some si /\ scores !! j = Some sj /\ (sj <= si)%Q.

(** Detections by non-increasing confidence. *)
Definition conf_ge (a b : det) : Prop := (d_conf b <= d_conf a)%Q.

(** [iou(a, b) > thr] for the boxes of two detections. *)
Definition iou_exceeds (thr : Q) (a b : det) : bool :=
  fgt (iou (d_box a) (d_box b)) thr.

(** A selected row comes from a row of [x]: its box is the converted box
    of that row, its confidence is the score of its class in that row and
    exceeds the threshold. *)
Definition selected_from (conf_thres : Q) (x : list anchor) (d : det) : Prop :=
  exists a, a ∈ x /\ d_box d = anchor_box a /\
            a_cls a !! d_cls d = Some (d_conf d) /\
            Qltb conf_thres (d_conf d) = true.


(** The apriori labels fit a batch of [n] images with [nc] classes: the
    label rows of every image are built without an error. *)
Definition labels_fit (nc n : nat) (labels : list (list label)) : Prop :=
  forall xi, xi < n -> exists v, label_rows nc labels xi = Ok v.

(** A result that is not a failed assertion. *)
Definition no_assertion {A} (r : result A) : Prop :=
  forall msg, r <> Raise (AssertionError msg).

(** The threshold [t] lies outside [0, 1]. *)
Definition outside_unit (t : Q) : Prop := (t < 0 \/ 1 < t)%Q.

(** The class of [d] passes the class filter. *)
Definition class_allowed (classes : option (list Z)) (d : det) : Prop :=
  match classes with
  | None => True
  | Some cl => existsb (fun c => (c =? Z.of_nat (d_cls d))%Z) cl = true
  end.

(** The boxes of two rows, as handed to [nms], do not overlap beyond the
    threshold. *)
Definition offset_apart (agnostic : bool) (thr : Q) (a b : det) : Prop :=
  fgt (iou (offset_box agnostic a) (offset_box agnostic b)) thr = false.

(** The size that [letterbox] resizes the image to: [new_unpad] after the
    branch on [auto] and [scaleFill]. *)
Definition resize_target (shape : Z * Z) (new_shape : target)
    (auto scaleFill scaleup : bool) : Z * Z :=
  let '(nh, nw) := target_hw new_shape in
  if auto then scaled_size shape (scale_ratio shape (nh, nw) scaleup)
  else if scaleFill then (nw, nh)
  else scaled_size shape (scale_ratio shape (nh, nw) scaleup).

(** Two boxes that do not meet: one lies beyond the other along an
    axis. *)
Definition separated (a b : box) : Prop :=
  (bx2 a <= bx1 b \/ bx2 b <= bx1 a \/ by2 a <= by1 b \/ by2 b <= by1 a)%Q.

(** A division outcome that is a number or not-a-number, but no
    infinity. *)
Definition not_infinite (f : fnum) : Prop :=
  match f with
  | Inf _ => False
  | _ => True
  end.

(** The rows of an image that pass the objectness gate
    [x[xc[xi]]]. *)
Definition gate_rows (conf_thres : Q) (x : list anchor) : list anchor :=
  filter (fun a => Qltb conf_thres (a_obj a) = true) x.

(** A prediction tensor without the rows that the objectness gate
    drops. *)
Definition gated (conf_thres : Q) (p : prediction) : prediction :=
  Prediction (p_nc p) (gate_rows conf_thres <$> p_images p).




(** The detections of every image cut to the first [n]. *)
Definition first_dets (n : nat) (out : list (list det)) : list (list det) :=
  take n <$> out.

(** ** Vocabulary of the properties in binary32 *)

(** The boxes of two rows, as handed to [nms], do not overlap beyond the
    threshold by the test of the kernel: [ovr > iou_threshold] is false
    for the kept row [a] and the later row [b]. *)
Definition offset_apart32 (agnostic : bool) (thr : Q) (a b : fdet) : Prop :=
  fgt (kernel_iou (offset_box32 agnostic a) (offset_box32 agnostic b)) thr
  = false.

(** No detection of the list overlaps, by that test, a detection after
    it. *)
Definition kernel_apart (agnostic : bool) (thr : Q) (dets : list fdet) : Prop :=
  forall p q a b,
    p < q -> dets !! p = Some a -> dets !! q = Some b ->
    offset_apart32 agnostic thr a b.

(** [box_iou] of the boxes of two detections exceeds the threshold. *)
Definition iou32_exceeds (thr : Q) (a b : fdet) : bool :=
  fgt (iou32 (fd_box a) (fd_box b)) thr.

(** A selected row comes from a row of [x]: its box is the converted box
    of that row, its confidence is the fused score of its class in that
    row and exceeds the threshold. *)
Definition selected_from32 (conf_thres : Q) (x : list frow) (d : fdet) : Prop :=
  exists r, r ∈ x /\ fd_box d = anchor_box32 r /\
            r_cls r !! fd_cls d = Some (fd_conf d) /\
            gt_scalar (fd_conf d) conf_thres = true.

(** The class of [d] passes the class filter. *)
Definition class_allowed32 (classes : option (list Z)) (d : fdet) : Prop :=
  match classes with
  | None => True
  | Some cl =>
      existsb (fun c => f32_eqb (cls32 (fd_cls d)) (rnd32 (inject_Z c))) cl
      = true
  end.


(** The class index converts to a float without rounding. *)
Definition exact_class (d : fdet) : Prop := (Z.of_nat (fd_cls d) < 2 ^ 24)%Z.

(** The coordinates of [b] are binary32 numbers. *)
Definition binary32_box (b : box) : Prop :=
  rnd32 (bx1 b) = Fin (bx1 b) /\ rnd32 (by1 b) = Fin (by1 b) /\
  rnd32 (bx2 b) = Fin (bx2 b) /\ rnd32 (by2 b) = Fin (by2 b).

(** [x <= y] on binary32 values that are numbers or infinities. *)
Definition fle (x y : fnum) : Prop :=
  match x, y with
  | Fin p, Fin q => (p <= q)%Q
  | Inf false, Fin _ | Inf false, Inf _ => True
  | Fin _, Inf true | Inf true, Inf true => True
  | _, _ => False
  end.

(** A value that is zero or not-a-number. *)
Definition zero_or_nan (x : fnum) : Prop :=
  match x with
  | Fin p => (p == 0)%Q
  | Inf _ => False
  | NaN => True
  end.

(** Row [a] of a prediction tensor with [nc] classes re-encodes the
    detection [d] with confidence 1: objectness 1, class score 1 for the
    class of [d] and 0 for the others, and a box in center form that
    [xywh2xyxy] converts to the box of [d]. *)
Definition reencodes (nc : nat) (d : fdet) (a : anchor) : Prop :=
  a_obj a = 1%Q /\
  a_cls a = <[fd_cls d:=1%Q]> (replicate nc 0%Q) /\
  xywh2xyxy32 (Fin (a_cx a)) (Fin (a_cy a)) (Fin (a_w a)) (Fin (a_h a))
  = fd_box d.

(** The detection [d] with confidence 1. *)
Definition redetected32 (d : fdet) : fdet :=
  FDet (fd_box d) (Fin 1) (fd_cls d).

(** Detection [d'] is [d] with confidence 1. *)
Definition same_detection32 (d d' : fdet) : Prop := d' = redetected32 d.

(** [q] is a binary32 number. *)
Definition binary32 (q : Q) : bool :=
  match rnd32 q with
  | Fin v => Qeq_bool v q
  | _ => false
  end.

(** The entries of a row, and of a prediction tensor, are binary32
    numbers. *)
Definition binary32_anchor (a : anchor) : bool :=
  binary32 (a_cx a) && binary32 (a_cy a) && binary32 (a_w a) &&
  binary32 (a_h a) && binary32 (a_obj a) && forallb binary32 (a_cls a).

Definition float_tensor (p : prediction) : bool :=
  forallb (forallb binary32_anchor) (p_images p).

(** A corner box in center form, computed in binary32:
    ((x1 + x2) / 2, (y1 + y2) / 2, x2 - x1, y2 - y1). *)
Definition center_form32 (b : fbox) : fnum * fnum * fnum * fnum :=
  (f32_div (f32_add (fx1 b) (fx2 b)) (Fin 2),
   f32_div (f32_add (fy1 b) (fy2 b)) (Fin 2),
   f32_sub (fx2 b) (fx1 b),
   f32_sub (fy2 b) (fy1 b)).

(** The offset of [d] is zero: [agnostic] is set, or the class is 0. *)
Definition no_offset (agnostic : bool) (d : fdet) : Prop :=
  agnostic = true \/ fd_cls d = 0.

(** The box of [d] has finite coordinates. *)
Definition finite_box (d : fdet) : Prop := exists q, fd_box d = fbox_of q.

(** ** Sample inputs *)

(** Three rows over two classes: two rows on the same box with best
    classes 0 and 1, and a third row of class 0 shifted by two pixels. *)
Definition ex_a1 : anchor :=
  Anchor 50 50 20 20 (9 # 10) [(8 # 10)%Q; (1 # 10)%Q].
Definition ex_a2 : anchor :=
  Anchor 50 50 20 20 (8 # 10) [(1 # 10)%Q; (9 # 10)%Q].
Definition ex_a3 : anchor :=
  Anchor 52 50 20 20 (7 # 10) [(9 # 10)%Q; (1 # 10)%Q].

(** A batch of two images, the second without rows. *)
Definition ex_prediction : prediction :=
  Prediction 2 [[ex_a1; ex_a2; ex_a3]; []].

(** The detections of the first image with the default settings. *)
Definition ex_d1 : det :=
  Det (Box (80 # 2) (80 # 2) (120 # 2) (120 # 2)) (72 # 100) 0.
Definition ex_d2 : det :=
  Det (Box (80 # 2) (80 # 2) (120 # 2) (120 # 2)) (72 # 100) 1.

(** The detection of the third row of [ex_prediction], and the three
    detections as the candidates of the "Batched NMS" step. *)
Definition ex_d3 : det :=
  Det (xywh2xyxy 52 50 20 20) ((9 # 10) * (7 # 10))%Q 0.
Definition ex_dets : list det := [ex_d3; ex_d1; ex_d2].

(** A batch of one image over a single class: two rows one pixel
    apart. *)
Definition ex_single : prediction :=
  Prediction 1 [[Anchor 50 50 20 20 (9 # 10) [(8 # 10)%Q];
                 Anchor 51 50 20 20 (8 # 10) [(9 # 10)%Q]]].

(** A batch of one image whose rows stop at the three gates: the first
    at the objectness gate, the second at the gate on the fused
    confidence, the third, of best class 0, at a class filter that admits
    class 1 only. *)
Definition ex_g1 : anchor :=
  Anchor 50 50 20 20 (1 # 10) [(8 # 10)%Q; (1 # 10)%Q].
Definition ex_g2 : anchor :=
  Anchor 60 60 20 20 (1 # 2) [(4 # 10)%Q; (3 # 10)%Q].
Definition ex_g3 : anchor :=
  Anchor 70 70 20 20 (9 # 10) [(8 # 10)%Q; (1 # 10)%Q].

(** ** Sample inputs in binary32 *)

(** The class scores of a row of class [k] over [nc] classes. *)
Definition one_hot (nc k : nat) : list Q := <[k:=1%Q]> (replicate nc 0%Q).

(** Two rows of class 79 around one center, the second wider and of
    lower objectness. *)
Definition fex_a1 : anchor := Anchor 100 100 1 1 1 (one_hot 80 79).
Definition fex_a2 : anchor := Anchor 100 100 (71 # 32) 1 (1 # 2) (one_hot 80 79).
Definition fex_prediction : prediction := Prediction 80 [[fex_a1; fex_a2]].

(** Their detections. *)
Definition fex_d1 : fdet :=
  FDet (fbox_of (Box (199 # 2) (199 # 2) (201 # 2) (201 # 2))) (Fin 1) 79.
Definition fex_d2 : fdet :=
  FDet (fbox_of (Box (6329 # 64) (199 # 2) (6471 # 64) (201 # 2)))
       (Fin (1 # 2)) 79.

(** Rows that re-encode the two detections with confidence 1. *)
Definition fex_again : prediction :=
  Prediction 80 [[Anchor 100 100 1 1 1 (one_hot 80 79);
                  Anchor 100 100 (71 # 32) 1 1 (one_hot 80 79)]].

(** Two rows of class 0, the second shifted by five pixels, and their
    detections. *)
Definition fex_n1 : anchor := Anchor 100 100 10 10 1 [1%Q].
Definition fex_n2 : anchor := Anchor 105 100 10 10 1 [(1 # 2)%Q].
Definition fex_near : prediction := Prediction 1 [[fex_n1; fex_n2]].
Definition fex_nd1 : fdet := FDet (fbox_of (Box 95 95 105 105)) (Fin 1) 0.
Definition fex_nd2 : fdet :=
  FDet (fbox_of (Box 100 95 110 105)) (Fin (1 # 2)) 0.

(** Two rows of class 79 whose boxes reach across x = 128, and the
    center form of the box of the second, computed in binary32. *)
Definition fex_b1 : anchor :=
  Anchor (505 # 4) 100 (105 # 16) 1 1 (one_hot 80 79).
Definition fex_b2 : anchor :=
  Anchor (1049011 # 8192) 100 (193327 # 65536) 1 (1 # 2) (one_hot 80 79).
Definition fex_b2_again : anchor :=
  Anchor (1049011 # 8192) 100 (386655 # 131072) 1 1 (one_hot 80 79).





(** Boxes whose area leaves the range of binary32: a square of side
    [2 ^ -100], and a box of area [2 ^ 127]. *)
Definition fex_tiny : box := Box 0 0 (2 ^ (-100)) (2 ^ (-100)).
Definition fex_huge : box := Box 0 0 (2 ^ 64) (2 ^ 63).

(* ===================================================================== *)
(** * Part II: properties                                                 *)
(* ===================================================================== *)

(** ** Numbers *)

Section numbers.
Local Open Scope Q_scope.

Lemma Qltb_lt a b : Qltb a b = true <-> a < b.
Proof.
  unfold Qltb. rewrite negb_true_iff, <- not_true_iff_false, Qle_bool_iff.
  split; [apply Qnot_le_lt | apply Qlt_not_le].
Qed.

Lemma Qltb_ge a b : Qltb a b = false <-> b <= a.
Proof. unfold Qltb. rewrite negb_false_iff. apply Qle_bool_iff. Qed.

#[export] Instance Qltb_proper : Proper (Qeq ==> Qeq ==> eq) Qltb.
Proof. intros a a' Ha b b' Hb. unfold Qltb. now rewrite Ha, Hb. Qed.

#[export] Instance feq_equiv : Equivalence feq.
Proof.
  split.
  - intros []; simpl; auto with qarith.
  - intros [] []; simpl; auto with qarith.
  - intros [] [] []; simpl; try easy; try congruence. apply Qeq_trans.
Qed.

#[export] Instance fdiv_proper : Proper (Qeq ==> Qeq ==> feq) fdiv.
Proof.
  intros n n' Hn d d' Hd. unfold fdiv. rewrite <- Hn, <- Hd.
  destruct (Qeq_bool d 0) eqn:Ed.
  - destruct (Qeq_bool n 0); simpl; [exact I | now rewrite Hn].
  - simpl. now rewrite Hn, Hd.
Qed.

Lemma fgt_feq f g t t' : feq f g -> t == t' -> fgt f t = fgt g t'.
Proof.
  destruct f, g; simpl; try easy.
  intros Hq Ht. now rewrite Hq, Ht.
Qed.

End numbers.

(** ** Box geometry *)

Section geometry.
Local Open Scope Q_scope.

(** Case analysis on every [Qmin] and [Qmax] of the goal. *)
Ltac minmax_at a b spec op :=
  let x := fresh "m" in
  pose proof (spec a b); set (x := op a b) in *; clearbody x.

Ltac minmax :=
  unfold clamp0 in *;
  repeat match goal with
  | |- context [Qmax ?a ?b] => minmax_at a b Q.max_spec Qmax
  | |- context [Qmin ?a ?b] => minmax_at a b Q.min_spec Qmin
  | _ : context [Qmax ?a ?b] |- _ => minmax_at a b Q.max_spec Qmax
  | _ : context [Qmin ?a ?b] |- _ => minmax_at a b Q.min_spec Qmin
  end.

(** The clamped overlap of two intervals, one axis of [box_inter]. *)
Lemma axis_bounds lo1 hi1 lo2 hi2 :
  lo1 <= hi1 -> lo2 <= hi2 ->
  0 <= clamp0 (Qmin hi1 hi2 - Qmax lo1 lo2) /\
  clamp0 (Qmin hi1 hi2 - Qmax lo1 lo2) <= hi1 - lo1 /\
  clamp0 (Qmin hi1 hi2 - Qmax lo1 lo2) <= hi2 - lo2.
Proof. intros. minmax; lra. Qed.

Lemma axis_sym lo1 hi1 lo2 hi2 :
  clamp0 (Qmin hi1 hi2 - Qmax lo1 lo2) == clamp0 (Qmin hi2 hi1 - Qmax lo2 lo1).
Proof. minmax; lra. Qed.

Lemma axis_shift lo1 hi1 lo2 hi2 c :
  clamp0 (Qmin (hi1 + c) (hi2 + c) - Qmax (lo1 + c) (lo2 + c)) ==
  clamp0 (Qmin hi1 hi2 - Qmax lo1 lo2).
Proof. minmax; lra. Qed.

Lemma box_inter_sym a b : box_inter a b == box_inter b a.
Proof.
  unfold box_inter.
  now rewrite (axis_sym (bx1 a)), (axis_sym (by1 a)).
Qed.

Lemma box_inter_nonneg a b : 0 <= box_inter a b.
Proof.
  unfold box_inter. apply Qmult_le_0_compat; apply Q.le_max_l.
Qed.

Lemma box_inter_le_l a b :
  corner_form a -> corner_form b -> box_inter a b <= box_area a.
Proof.
  intros [Hax Hay] [Hbx Hby]. unfold box_inter, box_area.
  destruct (axis_bounds _ _ _ _ Hax Hbx) as (? & ? & _).
  destruct (axis_bounds _ _ _ _ Hay Hby) as (? & ? & _).
  nra.
Qed.

Lemma box_inter_le_r a b :
  corner_form a -> corner_form b -> box_inter a b <= box_area b.
Proof.
  intros Ha Hb. rewrite box_inter_sym. now apply box_inter_le_l.
Qed.

Lemma box_area_shift a c : box_area (box_shift a c) == box_area a.
Proof. unfold box_area, box_shift. simpl. ring. Qed.

Lemma box_inter_shift a b c :
  box_inter (box_shift a c) (box_shift b c) == box_inter a b.
Proof.
  unfold box_inter, box_shift. simpl. now rewrite !axis_shift.
Qed.

(** [iou] is invariant under a common shift of the two boxes. *)
Lemma iou_shift a b c : feq (iou (box_shift a c) (box_shift b c)) (iou a b).
Proof.
  unfold iou. apply fdiv_proper.
  - apply box_inter_shift.
  - now rewrite box_inter_shift, !box_area_shift.
Qed.

(** A positive intersection needs two boxes of positive width and
    height, so the quotient is never an infinity. *)
Lemma box_inter_pos a b :
  0 < box_inter a b ->
  bx1 a < bx2 a /\ by1 a < by2 a /\ bx1 b < bx2 b /\ by1 b < by2 b.
Proof.
  unfold box_inter. intros H.
  assert (0 < clamp0 (Qmin (bx2 a) (bx2 b) - Qmax (bx1 a) (bx1 b)) /\
          0 < clamp0 (Qmin (by2 a) (by2 b) - Qmax (by1 a) (by1 b))) as [Hx Hy].
  { pose proof (Q.le_max_l 0 (Qmin (bx2 a) (bx2 b) - Qmax (bx1 a) (bx1 b))).
    pose proof (Q.le_max_l 0 (Qmin (by2 a) (by2 b) - Qmax (by1 a) (by1 b))).
    unfold clamp0 in *. nra. }
  clear H. revert Hx Hy. minmax; lra.
Qed.

Lemma iou_not_inf a b s : iou a b <> Inf s.
Proof.
  unfold iou, fdiv.
  destruct (Qeq_bool _ 0) eqn:Ed; [| discriminate].
  destruct (Qeq_bool (box_inter a b) 0) eqn:En; [discriminate |].
  exfalso. apply Qeq_bool_eq in Ed. apply Qeq_bool_neq in En.
  pose proof (box_inter_nonneg a b).
  assert (Hpos : 0 < box_inter a b) by (destruct (Qlt_le_dec 0 (box_inter a b)); [easy | lra]).
  destruct (box_inter_pos a b Hpos) as (? & ? & ? & ?).
  pose proof (box_inter_le_l a b) as Hl. pose proof (box_inter_le_r a b) as Hr.
  unfold corner_form in *.
  assert (box_inter a b <= box_area a) by (apply Hl; lra).
  assert (box_inter a b <= box_area b) by (apply Hr; lra).
  lra.
Qed.

End geometry.

(** ** Rounding *)

Section rounding.
Local Open Scope Q_scope.

Lemma Qfloor_unique q z :
  inject_Z z <= q -> q < inject_Z (z + 1) -> Qfloor q = z.
Proof.
  intros Hlo Hhi.
  pose proof (Qfloor_le q) as Hf. pose proof (Qlt_floor q) as Hc.
  assert (inject_Z z < inject_Z (Qfloor q + 1)) as H1 by lra.
  assert (inject_Z (Qfloor q) < inject_Z (z + 1)) as H2 by lra.
  rewrite <- Zlt_Qlt in H1, H2. lia.
Qed.

(** Within less than one half of an integer, [py_round] gives that
    integer. *)
Lemma py_round_near k e :
  - (1 # 2) < e -> e < 1 # 2 -> py_round (inject_Z k + e) = k.
Proof.
  intros Hlo Hhi. unfold py_round.
  destruct (Qlt_le_dec e 0) as [Hneg | Hpos].
  - assert (Hf : Qfloor (inject_Z k + e) = (k - 1)%Z).
    { apply Qfloor_unique.
      - unfold Z.sub. rewrite inject_Z_plus, inject_Z_opp.
        change (inject_Z 1) with 1. lra.
      - replace (k - 1 + 1)%Z with k by lia. lra. }
    rewrite Hf.
    assert (Hfr : inject_Z k + e - inject_Z (k - 1) == 1 + e).
    { unfold Z.sub. rewrite inject_Z_plus, inject_Z_opp.
      change (inject_Z 1) with 1. ring. }
    destruct (Qltb _ (1 # 2)) eqn:E1.
    + apply Qltb_lt in E1. lra.
    + destruct (Qltb (1 # 2) _) eqn:E2; [lia |].
      apply Qltb_ge in E2. lra.
  - assert (Hf : Qfloor (inject_Z k + e) = k).
    { apply Qfloor_unique; [lra |]. rewrite inject_Z_plus.
      change (inject_Z 1) with 1. lra. }
    rewrite Hf.
    destruct (Qltb _ (1 # 2)) eqn:E1; [reflexivity |].
    apply Qltb_ge in E1. lra.
Qed.

Lemma inject_Z_half_even k : inject_Z (2 * k) / 2 == inject_Z k.
Proof. rewrite inject_Z_mult. change (inject_Z 2) with 2. field. Qed.

Lemma inject_Z_half_odd k : inject_Z (2 * k + 1) / 2 == inject_Z k + (1 # 2).
Proof.
  rewrite inject_Z_plus, inject_Z_mult.
  change (inject_Z 2) with 2. change (inject_Z 1) with 1. field.
Qed.

#[export] Instance py_round_proper : Proper (Qeq ==> eq) py_round.
Proof.
  intros q q' Hq. unfold py_round. rewrite <- (Qfloor_comp _ _ Hq).
  assert (Hfr : q - inject_Z (Qfloor q) == q' - inject_Z (Qfloor q))
    by lra.
  now rewrite (Qltb_proper _ _ Hfr _ _ (Qeq_refl _)),
              (Qltb_proper _ _ (Qeq_refl (1 # 2)) _ _ Hfr).
Qed.

(** The two borders of an axis with total padding [d]: they add up to [d]
    and the second exceeds the first by 0 or 1. *)
Lemma border_split d :
  let lo := py_round (inject_Z d / 2 - (1 # 10)) in
  let hi := py_round (inject_Z d / 2 + (1 # 10)) in
  (lo + hi = d /\ lo <= hi <= lo + 1)%Z /\ ((0 <= d)%Z -> (0 <= lo)%Z).
Proof.
  simpl. destruct (Z.Even_or_Odd d) as [[k ->] | [k ->]].
  - rewrite inject_Z_half_even.
    assert (H1 : inject_Z k - (1 # 10) == inject_Z k + - (1 # 10)) by ring.
    rewrite H1, !py_round_near by lra. lia.
  - rewrite inject_Z_half_odd.
    assert (H1 : inject_Z k + (1 # 2) - (1 # 10) == inject_Z k + (4 # 10)) by ring.
    assert (H2 : inject_Z k + (1 # 2) + (1 # 10) == inject_Z (k + 1) + - (4 # 10)).
    { rewrite inject_Z_plus. change (inject_Z 1) with 1. ring. }
    rewrite H1, H2, !py_round_near by lra. lia.
Qed.

(** [py_round] does not exceed an integer bound of its argument. *)
Lemma py_round_le q n : q <= inject_Z n -> (py_round q <= n)%Z.
Proof.
  intros Hq. unfold py_round.
  pose proof (Qfloor_le q) as Hf.
  assert (Hfn : (Qfloor q <= n)%Z) by (rewrite Zle_Qle; lra).
  destruct (Qltb _ (1 # 2)) eqn:E1; [easy |].
  apply Qltb_ge in E1.
  assert (Hlt : (Qfloor q < n)%Z).
  { rewrite Zlt_Qlt. lra. }
  destruct (Qltb (1 # 2) _); [lia |]. destruct (Z.even _); lia.
Qed.

End rounding.

(** ** Letterbox *)

Section letterbox_facts.
Local Open Scope Z_scope.

(** The scaled image fits in the target. *)
Lemma scaled_size_le h w nh nw scaleup :
  0 < h -> 0 < w ->
  fst (scaled_size (h, w) (scale_ratio (h, w) (nh, nw) scaleup)) <= nw /\
  snd (scaled_size (h, w) (scale_ratio (h, w) (nh, nw) scaleup)) <= nh.
Proof.
  intros Hh Hw. unfold scaled_size, scale_ratio. simpl.
  set (r0 := Qmin (inject_Z nh / inject_Z h) (inject_Z nw / inject_Z w)).
  set (r := if scaleup then r0 else Qmin r0 1).
  assert (Hh' : (0 < inject_Z h)%Q) by (rewrite (Zlt_Qlt 0 h) in Hh; exact Hh).
  assert (Hw' : (0 < inject_Z w)%Q) by (rewrite (Zlt_Qlt 0 w) in Hw; exact Hw).
  assert (Hr0h : (r0 <= inject_Z nh / inject_Z h)%Q) by apply Q.le_min_l.
  assert (Hr0w : (r0 <= inject_Z nw / inject_Z w)%Q) by apply Q.le_min_r.
  assert (Hr : (r <= r0)%Q).
  { unfold r. destruct scaleup; [apply Qle_refl | apply Q.le_min_l]. }
  assert (Hqh : (inject_Z h * (inject_Z nh / inject_Z h) == inject_Z nh)%Q)
    by (field; lra).
  assert (Hqw : (inject_Z w * (inject_Z nw / inject_Z w) == inject_Z nw)%Q)
    by (field; lra).
  split; apply py_round_le; nra.
Qed.

Lemma np_mod_pos a s : 0 < s -> 0 <= np_mod a s < s /\ (s | np_mod a s - a).
Proof.
  intros Hs. unfold np_mod. destruct (Z.eqb_spec s 0) as [-> | _]; [lia |].
  split; [apply Z.mod_pos_bound; lia |].
  exists (- (a / s)). pose proof (Z.div_mod a s). lia.
Qed.

End letterbox_facts.

Section letterbox_dims.
Local Open Scope Z_scope.

Lemma cv_copyMakeBorder_ok shape t b l r :
  0 <= t -> 0 <= b -> 0 <= l -> 0 <= r ->
  cv_copyMakeBorder shape t b l r = Ok (fst shape + t + b, snd shape + l + r).
Proof.
  intros. unfold cv_copyMakeBorder.
  now rewrite !(proj2 (Z.leb_le _ _)) by assumption.
Qed.

Lemma cv_copyMakeBorder_inv shape t b l r im :
  cv_copyMakeBorder shape t b l r = Ok im ->
  im = (fst shape + t + b, snd shape + l + r).
Proof.
  unfold cv_copyMakeBorder. destruct (_ && _); congruence.
Qed.

Lemma cv_resize_inv dsize im :
  cv_resize dsize = Ok im -> im = (snd dsize, fst dsize).
Proof. unfold cv_resize. destruct (_ && _); congruence. Qed.

(** The image handed to [cv2.copyMakeBorder] has the shape of
    [new_unpad]. *)
Lemma resized_shape w h (new_unpad im : Z * Z) :
  (if decide ((w, h) = new_unpad) then Ok (h, w) else cv_resize new_unpad)
    = Ok im ->
  im = (snd new_unpad, fst new_unpad).
Proof.
  destruct (decide _) as [<- | _]; [now intros [= <-] | apply cv_resize_inv].
Qed.

(** The shape of the result in terms of the padding that [letterbox]
    settles on. *)
Lemma letterbox_inv h w t auto scaleFill scaleup stride out :
  letterbox (h, w) t auto scaleFill scaleup stride = Ok out ->
  let nh := fst (target_hw t) in
  let nw := snd (target_hw t) in
  let scaled := scaled_size (h, w) (scale_ratio (h, w) (nh, nw) scaleup) in
  exists dw dh,
    (if auto then
       dw = np_mod (nw - fst scaled) stride /\
       dh = np_mod (nh - snd scaled) stride /\ lb_unpad out = scaled
     else if scaleFill then dw = 0 /\ dh = 0 /\ lb_unpad out = (nw, nh)
     else dw = nw - fst scaled /\ dh = nh - snd scaled /\
          lb_unpad out = scaled) /\
    lb_top out = py_round (inject_Z dh / 2 - (1 # 10))%Q /\
    lb_bottom out = py_round (inject_Z dh / 2 + (1 # 10))%Q /\
    lb_left out = py_round (inject_Z dw / 2 - (1 # 10))%Q /\
    lb_right out = py_round (inject_Z dw / 2 + (1 # 10))%Q /\
    lb_height out = snd (lb_unpad out) + lb_top out + lb_bottom out /\
    lb_width out = fst (lb_unpad out) + lb_left out + lb_right out.
Proof.
  unfold letterbox. destruct (target_hw t) as [nh nw] eqn:Et.
  cbn [fst snd]. destruct (_ || _); [discriminate |].
  set (scaled := scaled_size _ _).
  assert (Hstep : forall (unpad : Z * Z) (dw dh : Z) ratio,
    (im ← (if decide ((w, h) = unpad) then Ok (h, w) else cv_resize unpad);
     im ← cv_copyMakeBorder im
            (py_round (inject_Z dh / 2 - (1 # 10))%Q)
            (py_round (inject_Z dh / 2 + (1 # 10))%Q)
            (py_round (inject_Z dw / 2 - (1 # 10))%Q)
            (py_round (inject_Z dw / 2 + (1 # 10))%Q);
     Ok {| lb_unpad := unpad;
           lb_top := py_round (inject_Z dh / 2 - (1 # 10))%Q;
           lb_bottom := py_round (inject_Z dh / 2 + (1 # 10))%Q;
           lb_left := py_round (inject_Z dw / 2 - (1 # 10))%Q;
           lb_right := py_round (inject_Z dw / 2 + (1 # 10))%Q;
           lb_height := fst im; lb_width := snd im;
           lb_ratio := ratio;
           lb_pad := ((inject_Z dw / 2)%Q, (inject_Z dh / 2)%Q) |}) = Ok out ->
    lb_unpad out = unpad /\
    lb_top out = py_round (inject_Z dh / 2 - (1 # 10))%Q /\
    lb_bottom out = py_round (inject_Z dh / 2 + (1 # 10))%Q /\
    lb_left out = py_round (inject_Z dw / 2 - (1 # 10))%Q /\
    lb_right out = py_round (inject_Z dw / 2 + (1 # 10))%Q /\
    lb_height out = snd (lb_unpad out) + lb_top out + lb_bottom out /\
    lb_width out = fst (lb_unpad out) + lb_left out + lb_right out).
  { intros unpad dw dh ratio.
    destruct (if decide _ then _ else _) as [im |] eqn:Er; [| discriminate].
    apply resized_shape in Er. subst im.
    unfold mbind at 1, result_bind, rbind.
    destruct (cv_copyMakeBorder _ _ _ _ _) as [im' |] eqn:Eb; [| discriminate].
    apply cv_copyMakeBorder_inv in Eb. subst im'.
    intros [= <-]. cbn [lb_unpad lb_top lb_bottom lb_left lb_right lb_height
                        lb_width fst snd].
    repeat split; reflexivity. }
  destruct auto; [| destruct scaleFill]; intros Hout; apply Hstep in Hout;
    destruct Hout as (Hu & Ht & Hb & Hl & Hr & Hh & Hw).
  - eexists _, _. split; [split; [reflexivity | split; [reflexivity | exact Hu]] |].
    repeat split; assumption.
  - exists 0, 0. split; [split; [reflexivity | split; [reflexivity | exact Hu]] |].
    repeat split; assumption.
  - eexists _, _. split; [split; [reflexivity | split; [reflexivity | exact Hu]] |].
    repeat split; assumption.
Qed.

Lemma cv_resize_ok w h (unpad : Z * Z) :
  0 < fst unpad -> 0 < snd unpad ->
  exists im,
    (if decide ((w, h) = unpad) then Ok (h, w) else cv_resize unpad) = Ok im.
Proof.
  intros Hw Hh. destruct (decide _); [now eexists |].
  unfold cv_resize.
  rewrite (proj2 (Z.ltb_lt _ _) Hw), (proj2 (Z.ltb_lt _ _) Hh). now eexists.
Qed.

(** [letterbox] returns when the image it resizes to is not empty. *)
Lemma letterbox_returns h w t auto scaleFill scaleup stride :
  0 < h -> 0 < w -> 0 < stride ->
  let nh := fst (target_hw t) in
  let nw := snd (target_hw t) in
  let scaled := scaled_size (h, w) (scale_ratio (h, w) (nh, nw) scaleup) in
  0 < nh -> 0 < nw -> 0 < fst scaled -> 0 < snd scaled ->
  exists out, letterbox (h, w) t auto scaleFill scaleup stride = Ok out.
Proof.
  intros Hh Hw Hs. unfold letterbox.
  destruct (target_hw t) as [nh nw] eqn:Et. cbn [fst snd].
  intros Hnh Hnw Hsw Hsh.
  destruct (Z.eqb_spec h 0); [lia |]. destruct (Z.eqb_spec w 0); [lia |].
  cbn [orb].
  pose proof (scaled_size_le h w nh nw scaleup Hh Hw) as [Hlew Hleh].
  set (scaled := scaled_size _ _) in *.
  assert (Hstep : forall (unpad : Z * Z) (dw dh : Z) ratio,
    0 < fst unpad -> 0 < snd unpad -> 0 <= dw -> 0 <= dh ->
    exists out,
    (im ← (if decide ((w, h) = unpad) then Ok (h, w) else cv_resize unpad);
     im ← cv_copyMakeBorder im
            (py_round (inject_Z dh / 2 - (1 # 10))%Q)
            (py_round (inject_Z dh / 2 + (1 # 10))%Q)
            (py_round (inject_Z dw / 2 - (1 # 10))%Q)
            (py_round (inject_Z dw / 2 + (1 # 10))%Q);
     Ok {| lb_unpad := unpad;
           lb_top := py_round (inject_Z dh / 2 - (1 # 10))%Q;
           lb_bottom := py_round (inject_Z dh / 2 + (1 # 10))%Q;
           lb_left := py_round (inject_Z dw / 2 - (1 # 10))%Q;
           lb_right := py_round (inject_Z dw / 2 + (1 # 10))%Q;
           lb_height := fst im; lb_width := snd im;
           lb_ratio := ratio;
           lb_pad := ((inject_Z dw / 2)%Q, (inject_Z dh / 2)%Q) |}) = Ok out).
  { intros unpad dw dh ratio Hu1 Hu2 Hdw Hdh.
    destruct (cv_resize_ok w h unpad Hu1 Hu2) as [im ->].
    unfold mbind at 1, result_bind, rbind.
    destruct (border_split dw) as [[_ ?] Hlo]. specialize (Hlo Hdw).
    destruct (border_split dh) as [[_ ?] Hlo']. specialize (Hlo' Hdh).
    rewrite cv_copyMakeBorder_ok by lia. now eexists. }
  destruct auto; [| destruct scaleFill].
  - apply Hstep; try assumption; apply np_mod_pos; assumption.
  - apply Hstep; cbn [fst snd]; lia.
  - apply Hstep; try assumption; lia.
Qed.




End letterbox_dims.

(** ** Sorting by score *)

Section sorting.
Local Open Scope Q_scope.

#[local] Instance score_ge_trans : Transitive score_ge.
Proof. intros p q r. unfold score_ge. intros. lra. Qed.

Lemma StronglySorted_sublist {A} (R : relation A) l k :
  k `sublist_of` l -> StronglySorted R l -> StronglySorted R k.
Proof.
  induction 1 as [| x k l Hs IH | x k l Hs IH]; intros Hl.
  - constructor.
  - apply StronglySorted_inv in Hl as [Hl Hx]. constructor; [auto |].
    rewrite Forall_forall in *. intros y Hy. apply Hx.
    now apply (sublist_subseteq _ _ Hs).
  - apply StronglySorted_inv in Hl as [Hl _]. auto.
Qed.

Lemma insert_desc_perm p l : insert_desc p l ≡ₚ p :: l.
Proof.
  induction l as [| q l IH]; simpl; [reflexivity |].
  destruct (Qltb _ _); [reflexivity |].
  rewrite IH. apply perm_swap.
Qed.

Lemma insert_desc_sorted p l :
  StronglySorted score_ge l -> StronglySorted score_ge (insert_desc p l).
Proof.
  induction l as [| q l IH]; simpl; intros Hl.
  - repeat constructor.
  - apply StronglySorted_inv in Hl as [Hl Hq].
    destruct (Qltb (snd q) (snd p)) eqn:E.
    + apply Qltb_lt in E. constructor; [now constructor |].
      constructor; [unfold score_ge; lra |].
      eapply Forall_impl; [exact Hq |]. unfold score_ge. intros; lra.
    + apply Qltb_ge in E. constructor; [auto |].
      rewrite insert_desc_perm. constructor; [exact E | exact Hq].
Qed.

Lemma sort_desc_foldl_perm acc l :
  foldl (fun acc p => insert_desc p acc) acc l ≡ₚ acc ++ l.
Proof.
  revert acc. induction l as [| p l IH]; intros acc; simpl.
  - now rewrite app_nil_r.
  - rewrite IH, insert_desc_perm. simpl. apply Permutation_middle.
Qed.

Lemma sort_desc_perm l : sort_desc l ≡ₚ l.
Proof. apply sort_desc_foldl_perm. Qed.

Lemma sort_desc_foldl_sorted acc l :
  StronglySorted score_ge acc ->
  StronglySorted score_ge (foldl (fun acc p => insert_desc p acc) acc l).
Proof.
  revert acc. induction l as [| p l IH]; intros acc Hacc; simpl; [easy |].
  apply IH. now apply insert_desc_sorted.
Qed.

Lemma sort_desc_sorted l : StronglySorted score_ge (sort_desc l).
Proof. apply sort_desc_foldl_sorted. constructor. Qed.

Lemma elem_of_indexed (scores : list Q) i s :
  (i, s) ∈ imap pair scores <-> scores !! i = Some s.
Proof.
  rewrite elem_of_lookup_imap. split.
  - intros (j & y & [= -> ->] & H). exact H.
  - intros H. now exists i, s.
Qed.

Lemma indexed_fst (scores : list Q) :
  (imap pair scores).*1 = seq 0 (length scores).
Proof.
  rewrite fmap_imap.
  rewrite (imap_ext _ (fun j _ => j) scores) by reflexivity.
  rewrite (imap_seq_0 scores (fun j => j)). apply list_fmap_id.
Qed.

(** The order found by [argsort_desc] is a permutation of the indices. *)
Lemma argsort_desc_perm scores :
  argsort_desc scores ≡ₚ seq 0 (length scores).
Proof.
  unfold argsort_desc. now rewrite sort_desc_perm, indexed_fst.
Qed.

Lemma argsort_desc_lt scores i :
  i ∈ argsort_desc scores <-> (i < length scores)%nat.
Proof.
  rewrite argsort_desc_perm, elem_of_seq. lia.
Qed.

Lemma argsort_desc_length scores :
  length (argsort_desc scores) = length scores.
Proof. now rewrite argsort_desc_perm, length_seq. Qed.

Lemma argsort_desc_NoDup scores : NoDup (argsort_desc scores).
Proof. rewrite argsort_desc_perm. apply NoDup_seq. Qed.

(** ... by decreasing score. *)
Lemma argsort_desc_sorted scores :
  StronglySorted (index_score_ge scores) (argsort_desc scores).
Proof.
  unfold argsort_desc.
  assert (Hin : Forall (fun p => scores !! fst p = Some (snd p))
                       (sort_desc (imap pair scores))).
  { rewrite sort_desc_perm, Forall_forall. intros [i s] Hp.
    now apply elem_of_indexed. }
  pose proof (sort_desc_sorted (imap pair scores)) as Hs.
  induction Hs as [| p l Hs IH Hp]; simpl; [constructor |].
  apply Forall_cons in Hin as [Hp0 Hin].
  constructor; [now apply IH |].
  rewrite Forall_fmap, Forall_forall. intros q Hq. simpl.
  rewrite Forall_forall in Hp, Hin.
  exists (snd p), (snd q). split; [easy |]. split; [now apply Hin | now apply Hp].
Qed.

End sorting.

(** ** The NMS kernel *)

Section kernel.
Variable boxes : list box.
Variable thr : Q.

Lemma suppressed_at_insert s j k :
  suppressed_at (<[j:=true]> s) k =
  if decide (j = k /\ j < length s) then true else suppressed_at s k.
Proof.
  unfold suppressed_at. rewrite list_lookup_insert.
  now destruct (decide _).
Qed.

Lemma suppressed_at_replicate n k : suppressed_at (replicate n false) k = false.
Proof.
  unfold suppressed_at. destruct (replicate n false !! k) as [b |] eqn:E; [| done].
  now apply lookup_replicate_1 in E as [-> _].
Qed.

Lemma suppress_from_length i rest s :
  length (suppress_from boxes thr i rest s) = length s.
Proof.
  unfold suppress_from. revert s.
  induction rest as [| j rest IH]; intros s; simpl; [reflexivity |].
  rewrite IH. destruct (suppressed_at s j); [reflexivity |].
  destruct (overlaps _ _ _ _); [apply length_insert | reflexivity].
Qed.

(** The marks after the inner loop: the marks before it, and the boxes of
    [rest] that overlap the kept box. *)
Lemma suppress_from_spec i rest s k :
  Forall (fun j => j < length s) rest ->
  suppressed_at (suppress_from boxes thr i rest s) k = true <->
  suppressed_at s k = true \/ (k ∈ rest /\ overlaps boxes thr i k = true).
Proof.
  unfold suppress_from. revert s.
  induction rest as [| j rest IH]; intros s Hlt; simpl.
  - rewrite elem_of_nil. tauto.
  - apply Forall_cons in Hlt as [Hj Hlt].
    rewrite elem_of_cons.
    destruct (suppressed_at s j) eqn:Ej.
    + rewrite IH by assumption. split; [tauto |].
      intros [? | [[-> | ?] ?]]; auto.
    + destruct (overlaps boxes thr i j) eqn:Eo.
      * rewrite IH by (now rewrite length_insert).
        rewrite suppressed_at_insert.
        destruct (decide _) as [[-> _] | Hn]; [tauto |].
        split; [tauto |].
        intros [? | [[-> | ?] ?]]; try (exfalso; apply Hn; done); auto.
      * rewrite IH by assumption. split; [tauto |].
        intros [? | [[-> | ?] ?]]; auto. congruence.
Qed.

(** The kept boxes come in the order of the sort. *)
Lemma nms_loop_sublist order s :
  nms_loop boxes thr order s `sublist_of` order.
Proof.
  revert s. induction order as [| i rest IH]; intros s; simpl.
  - constructor.
  - destruct (suppressed_at s i); [apply sublist_cons | apply sublist_skip];
      apply IH.
Qed.

Lemma nms_loop_unsuppressed order s k :
  Forall (fun j => j < length s) order ->
  k ∈ nms_loop boxes thr order s -> suppressed_at s k = false.
Proof.
  revert s. induction order as [| i rest IH]; intros s Hlt; simpl.
  - now rewrite elem_of_nil.
  - apply Forall_cons in Hlt as [Hi Hlt].
    destruct (suppressed_at s i) eqn:Ei; [now apply IH |].
    rewrite elem_of_cons. intros [-> | Hk]; [exact Ei |].
    apply IH in Hk; [| now rewrite suppress_from_length].
    destruct (suppressed_at s k) eqn:Ek; [| reflexivity].
    assert (suppressed_at (suppress_from boxes thr i rest s) k = true)
      by (apply suppress_from_spec; auto).
    congruence.
Qed.

(** No kept box overlaps a box kept after it. *)
Lemma nms_loop_pairwise order s :
  Forall (fun j => j < length s) order ->
  StronglySorted (fun i j => overlaps boxes thr i j = false)
                 (nms_loop boxes thr order s).
Proof.
  revert s. induction order as [| i rest IH]; intros s Hlt; simpl.
  - constructor.
  - apply Forall_cons in Hlt as [Hi Hlt].
    destruct (suppressed_at s i) eqn:Ei; [now apply IH |].
    constructor; [apply IH; now rewrite suppress_from_length |].
    rewrite Forall_forall. intros k Hk.
    pose proof (sublist_subseteq _ _ (nms_loop_sublist _ _) _ Hk) as Hin.
    apply nms_loop_unsuppressed in Hk; [| now rewrite suppress_from_length].
    destruct (overlaps boxes thr i k) eqn:Eo; [| reflexivity].
    assert (suppressed_at (suppress_from boxes thr i rest s) k = true)
      by (apply suppress_from_spec; auto).
    congruence.
Qed.


End kernel.

(** ** [torchvision.ops.nms] *)

Section nms_facts.
Variable boxes : list box.
Variable scores : list Q.
Variable thr : Q.
Hypothesis same_length : length boxes = length scores.

Lemma nms_order_lt :
  Forall (fun j => j < length (replicate (length boxes) false))
         (argsort_desc scores).
Proof.
  rewrite Forall_forall. intros j Hj. apply argsort_desc_lt in Hj.
  rewrite length_replicate. lia.
Qed.

Lemma nms_sublist : nms boxes scores thr `sublist_of` argsort_desc scores.
Proof. apply nms_loop_sublist. Qed.

Lemma nms_lt i : i ∈ nms boxes scores thr -> i < length boxes.
Proof.
  intros Hi. apply (sublist_subseteq _ _ nms_sublist) in Hi.
  apply argsort_desc_lt in Hi. lia.
Qed.

Lemma nms_NoDup : NoDup (nms boxes scores thr).
Proof.
  eapply sublist_NoDup; [apply argsort_desc_NoDup | apply nms_sublist].
Qed.

Lemma nms_length : length (nms boxes scores thr) <= length boxes.
Proof.
  rewrite (sublist_length _ _ nms_sublist), argsort_desc_length. lia.
Qed.

Lemma nms_pairwise :
  StronglySorted (fun i j => overlaps boxes thr i j = false)
                 (nms boxes scores thr).
Proof. apply nms_loop_pairwise, nms_order_lt. Qed.

Lemma nms_sorted :
  StronglySorted (index_score_ge scores) (nms boxes scores thr).
Proof.
  eapply StronglySorted_sublist; [apply nms_sublist | apply argsort_desc_sorted].
Qed.

End nms_facts.

(** ** Indexing *)

Section indexing.
Context {A : Type}.
Implicit Types (x : list A) (i : list nat).

Lemma rows_spec x i l :
  rows x i = Ok l -> Forall2 (fun k r => x !! k = Some r) i l.
Proof.
  revert l. induction i as [| k i IH]; simpl; intros l.
  - intros [= <-]. constructor.
  - destruct (x !! k) as [r |] eqn:Ek; [| discriminate].
    destruct (rows x i) as [rs |]; [| discriminate].
    intros [= <-]. constructor; auto.
Qed.

Lemma rows_ok x i :
  Forall (fun k => k < length x) i -> exists l, rows x i = Ok l.
Proof.
  induction 1 as [| k i Hk _ [l IH]]; simpl; [now eexists |].
  destruct (lookup_lt_is_Some_2 x k Hk) as [r ->].
  rewrite IH. now eexists.
Qed.

Lemma rows_no_assert x i msg : rows x i <> Raise (AssertionError msg).
Proof.
  induction i as [| k i IH]; simpl; [discriminate |].
  destruct (x !! k); [| discriminate].
  destruct (rows x i); [discriminate | exact IH].
Qed.

Lemma rows_seq_from x0 x :
  rows (x0 ++ x) (seq (length x0) (length x)) = Ok x.
Proof.
  revert x0. induction x as [| a x IH]; intros x0; simpl; [reflexivity |].
  rewrite lookup_app_r, Nat.sub_diag by lia. simpl.
  specialize (IH (x0 ++ [a])). rewrite length_app, <- app_assoc in IH.
  simpl in IH. rewrite Nat.add_1_r in IH. now rewrite IH.
Qed.

Lemma rows_seq x : rows x (seq 0 (length x)) = Ok x.
Proof. apply (rows_seq_from []). Qed.

Lemma mask_index_fmap (f : A -> bool) x :
  mask_index x (f <$> x) = filter (fun a => f a = true) x.
Proof.
  unfold mask_index. induction x as [| a x IH]; [reflexivity |].
  cbn [fmap list_fmap zip zip_with]. destruct (f a) eqn:E.
  - rewrite filter_cons_True by reflexivity.
    rewrite (filter_cons_True (fun a => f a = true)) by exact E.
    cbn. now f_equal.
  - rewrite filter_cons_False by discriminate.
    rewrite (filter_cons_False (fun a => f a = true)) by congruence.
    exact IH.
Qed.

Lemma py_take_sublist m (l : list A) : py_take m l `sublist_of` l.
Proof. unfold py_take. destruct (_ <=? _)%Z; apply sublist_take. Qed.

Lemma py_take_length m (l : list A) :
  (0 <= m)%Z -> length (py_take m l) = min (Z.to_nat m) (length l).
Proof.
  intros Hm. unfold py_take.
  rewrite (proj2 (Z.leb_le _ _) Hm). apply length_take.
Qed.

Lemma py_take_length_le m (l : list A) :
  (0 <= m)%Z -> (Z.of_nat (length (py_take m l)) <= m)%Z.
Proof. intros Hm. rewrite py_take_length by assumption. lia. Qed.

End indexing.

Section sorted_transfer.
Context {A B : Type}.

Lemma StronglySorted_lookup (R : relation A) l p q a b :
  StronglySorted R l -> l !! p = Some a -> l !! q = Some b -> p < q -> R a b.
Proof.
  intros Hs. revert p q. induction Hs as [| c l Hs IH Hc]; intros p q.
  - now rewrite lookup_nil.
  - destruct q as [| q]; [lia |]. destruct p as [| p]; simpl.
    + intros [= ->] Hq _. rewrite Forall_forall in Hc.
      apply Hc. now apply list_elem_of_lookup_2 in Hq.
    + intros Hp Hq Hlt. apply (IH p q); auto. lia.
Qed.

(** A relation on indices carries over to the rows they select. *)
Lemma StronglySorted_Forall2 (P : A -> B -> Prop) (R : relation A)
    (R' : relation B) k l :
  Forall2 P k l ->
  (forall i j a b, R i j -> P i a -> P j b -> R' a b) ->
  StronglySorted R k -> StronglySorted R' l.
Proof.
  intros HF HR. induction HF as [| i a k l Hia HF IH]; intros Hs.
  - constructor.
  - apply StronglySorted_inv in Hs as [Hs Hi]. constructor; [auto |].
    clear IH Hs. induction HF as [| j b k l Hjb HF IH]; constructor.
    + apply Forall_cons in Hi as [Hij _]. eauto.
    + apply Forall_cons in Hi as [_ Hi]. auto.
Qed.

End sorted_transfer.

(** ** The "Batched NMS" step *)

Section batched.
Variable x : list det.
Variable agnostic : bool.
Variable iou_thres : Q.
Variable max_det : Z.

Lemma limit_det_sublist i : limit_det max_det i `sublist_of` i.
Proof.
  unfold limit_det. destruct (_ <? _)%Z; [apply py_take_sublist | reflexivity].
Qed.

Lemma limit_det_length i :
  (0 <= max_det)%Z -> (Z.of_nat (length (limit_det max_det i)) <= max_det)%Z.
Proof.
  intros Hm. unfold limit_det. destruct (Z.ltb_spec max_det (Z.of_nat (length i))).
  - now apply py_take_length_le.
  - assumption.
Qed.

(** A negative [max_det] is no count: the slice then drops rows from the
    end. *)
Example limit_det_negative : limit_det (-1) [0; 1; 2] = [0; 1].
Proof. reflexivity. Qed.

Lemma limit_det_id i :
  (Z.of_nat (length i) <= max_det)%Z -> limit_det max_det i = i.
Proof.
  intros Hm. unfold limit_det.
  destruct (Z.ltb_spec max_det (Z.of_nat (length i))); [lia | reflexivity].
Qed.

Lemma nms_keep_lengths :
  length (offset_box agnostic <$> x) = length (d_conf <$> x).
Proof. now rewrite !length_fmap. Qed.

Lemma nms_keep_lt k : k ∈ nms_keep x agnostic iou_thres -> k < length x.
Proof.
  intros Hk. apply nms_lt in Hk; [| apply nms_keep_lengths].
  now rewrite length_fmap in Hk.
Qed.

(** The rows that the step returns are rows of [x], at the indices that
    [nms] kept and the limit left. *)
Lemma batched_nms_rows out :
  batched_nms x agnostic iou_thres max_det = Ok out ->
  Forall2 (fun k d => x !! k = Some d)
          (limit_det max_det (nms_keep x agnostic iou_thres)) out.
Proof. apply rows_spec. Qed.

(** The step never raises: [nms] returns indices of [x]. *)
Lemma batched_nms_ok :
  exists out, batched_nms x agnostic iou_thres max_det = Ok out.
Proof.
  apply rows_ok. rewrite Forall_forall. intros k Hk.
  apply (sublist_subseteq _ _ (limit_det_sublist _)) in Hk.
  now apply nms_keep_lt.
Qed.

Lemma overlaps_offset i j a b :
  x !! i = Some a -> x !! j = Some b ->
  overlaps (offset_box agnostic <$> x) iou_thres i j =
  fgt (iou (offset_box agnostic a) (offset_box agnostic b)) iou_thres.
Proof.
  intros Ha Hb. unfold overlaps. now rewrite !list_lookup_fmap, Ha, Hb.
Qed.

(** For two rows of one class the overlap of the offset boxes is the
    overlap of the boxes. *)
Lemma offset_same_class a b :
  d_cls a = d_cls b ->
  fgt (iou (offset_box agnostic a) (offset_box agnostic b)) iou_thres =
  iou_exceeds iou_thres a b.
Proof.
  intros Hc. unfold iou_exceeds, offset_box, class_offset. rewrite Hc.
  apply fgt_feq; [apply iou_shift | reflexivity].
Qed.

Lemma batched_nms_sorted out :
  batched_nms x agnostic iou_thres max_det = Ok out ->
  StronglySorted conf_ge out.
Proof.
  intros Hout. apply batched_nms_rows in Hout.
  eapply (StronglySorted_Forall2 _ _ _ _ _ Hout).
  2: { eapply StronglySorted_sublist; [apply limit_det_sublist |].
       apply nms_sorted. }
  intros i j a b (si & sj & Hi & Hj & Hle) Ha Hb. simpl in *.
  rewrite list_lookup_fmap, Ha in Hi. rewrite list_lookup_fmap, Hb in Hj.
  simpl in *. injection Hi as <-. injection Hj as <-. exact Hle.
Qed.

Lemma batched_nms_length out :
  (0 <= max_det)%Z ->
  batched_nms x agnostic iou_thres max_det = Ok out ->
  (Z.of_nat (length out) <= max_det)%Z.
Proof.
  intros Hm Hout%batched_nms_rows.
  rewrite <- (Forall2_length _ _ _ Hout). now apply limit_det_length.
Qed.

Lemma batched_nms_length_le out :
  batched_nms x agnostic iou_thres max_det = Ok out ->
  length out <= length x.
Proof.
  intros Hout%batched_nms_rows.
  rewrite <- (Forall2_length _ _ _ Hout).
  rewrite (sublist_length _ _ (limit_det_sublist _)).
  unfold nms_keep. rewrite nms_length by apply nms_keep_lengths.
  now rewrite length_fmap.
Qed.

Lemma batched_nms_elem_of out d :
  batched_nms x agnostic iou_thres max_det = Ok out -> d ∈ out -> d ∈ x.
Proof.
  intros Hout%batched_nms_rows Hd.
  apply list_elem_of_lookup_1 in Hd as [p Hp].
  destruct (Forall2_lookup_r _ _ _ _ _ Hout Hp) as (k & _ & Hk).
  now apply list_elem_of_lookup_2 in Hk.
Qed.

End batched.

(** ** Traversals *)

Section traverse_facts.
Context {A B : Type}.
Variable f : A -> result B.

Lemma traverse_spec l l' :
  traverse f l = Ok l' -> Forall2 (fun a b => f a = Ok b) l l'.
Proof.
  revert l'. induction l as [| a l IH]; simpl; intros l'.
  - intros [= <-]. constructor.
  - destruct (f a) as [b |] eqn:Ea; [| discriminate].
    cbn [mbind result_bind rbind].
    destruct (traverse f l) as [bs |]; [| discriminate].
    intros [= <-]. constructor; auto.
Qed.

Lemma traverse_ok l :
  Forall (fun a => exists b, f a = Ok b) l -> exists l', traverse f l = Ok l'.
Proof.
  induction 1 as [| a l [b Hb] _ [l' IH]]; simpl; [now eexists |].
  rewrite Hb. cbn [mbind result_bind rbind]. rewrite IH. now eexists.
Qed.

End traverse_facts.

(** ** Candidate rows *)

Section candidate_facts.
Variable nc : nat.

Lemma fuse_cls_length a : length (a_cls (fuse a)) = length (a_cls a).
Proof. unfold fuse. simpl. apply length_fmap. Qed.

Lemma set_col_cls_length k q a :
  length (a_cls (set_col k q a)) = length (a_cls a).
Proof.
  do 5 (destruct k as [| k]; [reflexivity |]). simpl. apply length_insert.
Qed.

Lemma label_row_cls_length l v :
  label_row nc l = Ok v -> length (a_cls v) = nc.
Proof.
  unfold label_row. destruct (wrap_index _ _) as [k |]; [| discriminate].
  cbn [mbind result_bind rbind]. intros [= <-].
  rewrite !set_col_cls_length. simpl. apply length_replicate.
Qed.

Lemma label_rows_cls_length labels xi v :
  label_rows nc labels xi = Ok (Some v) ->
  Forall (fun a => length (a_cls a) = nc) v.
Proof.
  unfold label_rows. destruct labels as [| l0 labels']; [discriminate |].
  destruct (_ !! xi) as [l |]; [| discriminate].
  destruct l as [| l1 l]; [discriminate |].
  destruct (traverse _ _) as [v' |] eqn:Et; [| discriminate].
  cbn [mbind result_bind rbind]. intros [= <-].
  apply traverse_spec in Et. rewrite Forall_forall. intros a Ha.
  apply list_elem_of_lookup_1 in Ha as [p Hp].
  destruct (Forall2_lookup_r _ _ _ _ _ Et Hp) as (l' & _ & Hl').
  now apply label_row_cls_length in Hl'.
Qed.


Lemma candidates_cls_length conf_thres labels xi x c :
  Forall (fun a => length (a_cls a) = nc) x ->
  candidates nc labels xi x (objectness_mask conf_thres x) = Ok c ->
  Forall (fun a => length (a_cls a) = nc) c.
Proof.
  intros Hx. unfold candidates, objectness_mask. rewrite mask_index_fmap.
  destruct (label_rows nc labels xi) as [v |] eqn:Ev; [| discriminate].
  cbn [mbind result_bind rbind]. intros [= <-].
  assert (Hf : Forall (fun a => length (a_cls a) = nc)
                 (filter (fun a => Qltb conf_thres (a_obj a) = true) x)).
  { rewrite Forall_forall in *. intros a [_ Ha]%list_elem_of_filter. auto. }
  destruct v as [v |]; [| exact Hf].
  apply Forall_app. split; [exact Hf |]. now apply label_rows_cls_length in Ev.
Qed.

Lemma candidates_ok labels xi x mask v :
  label_rows nc labels xi = Ok v ->
  exists c, candidates nc labels xi x mask = Ok c.
Proof.
  intros Hv. unfold candidates. rewrite Hv. now eexists.
Qed.

End candidate_facts.

(** ** Selection *)

Section selection.
Variable conf_thres : Q.

Lemma row_max_from_spec best bi i l :
  row_max_from best bi i l = (best, bi) \/
  exists k, l !! k = Some (fst (row_max_from best bi i l)) /\
            snd (row_max_from best bi i l) = i + k.
Proof.
  revert best bi i. induction l as [| s l IH]; intros best bi i; simpl.
  - now left.
  - destruct (Qltb best s).
    + right. destruct (IH s i (S i)) as [-> | (k & Hk & Hj)].
      * exists 0. simpl. split; [reflexivity | lia].
      * exists (S k). simpl. split; [exact Hk | lia].
    + destruct (IH best bi (S i)) as [-> | (k & Hk & Hj)]; [now left |].
      right. exists (S k). simpl. split; [exact Hk | lia].
Qed.

(** The best score of a row is one of its entries, at the index
    returned. *)
Lemma row_max_spec l m :
  row_max l = Ok m -> l !! snd m = Some (fst m).
Proof.
  destruct l as [| s l]; simpl; [discriminate |]. intros [= <-].
  destruct (row_max_from_spec s 0 1 l) as [-> | (k & Hk & ->)]; [reflexivity |].
  exact Hk.
Qed.

Lemma row_max_ok l : l <> [] -> exists m, row_max l = Ok m.
Proof. destruct l; [done |]. now eexists. Qed.

Lemma select_best_spec x sel :
  select_best conf_thres x = Ok sel -> Forall (selected_from conf_thres x) sel.
Proof.
  unfold select_best.
  destruct (traverse _ x) as [ds |] eqn:Et; [| discriminate].
  cbn [mbind result_bind rbind]. intros [= <-].
  apply traverse_spec in Et. rewrite Forall_forall. intros d Hd.
  apply list_elem_of_filter in Hd as [Hc Hd].
  apply list_elem_of_lookup_1 in Hd as [p Hp].
  destruct (Forall2_lookup_r _ _ _ _ _ Et Hp) as (a & Ha & Hda).
  destruct (row_max (a_cls a)) as [m |] eqn:Em; [| discriminate].
  cbn [mbind result_bind rbind] in Hda. injection Hda as <-.
  exists a. split; [now apply list_elem_of_lookup_2 in Ha |].
  split; [reflexivity |]. split; [now apply row_max_spec | exact Hc].
Qed.

Lemma select_multi_spec x : Forall (selected_from conf_thres x) (select_multi conf_thres x).
Proof.
  unfold select_multi. rewrite Forall_forall. intros d Hd.
  apply list_elem_of_bind in Hd as (a & Hd & Ha).
  apply list_elem_of_omap in Hd as ([j s] & Hjs & Hd). simpl in Hd.
  destruct (Qltb conf_thres s) eqn:Es; [| discriminate]. injection Hd as <-.
  apply elem_of_indexed in Hjs.
  exists a. now repeat split.
Qed.

Lemma select_spec multi_label x sel :
  select conf_thres multi_label x = Ok sel -> Forall (selected_from conf_thres x) sel.
Proof.
  unfold select. destruct multi_label.
  - intros [= <-]. apply select_multi_spec.
  - apply select_best_spec.
Qed.

(** The selection raises only on a row without class scores, in
    best-class mode. *)
Lemma select_ok multi_label x :
  Forall (fun a => a_cls a <> []) x ->
  exists sel, select conf_thres multi_label x = Ok sel.
Proof.
  intros Hx. unfold select. destruct multi_label; [now eexists |].
  unfold select_best.
  destruct (traverse_ok
              (fun a => m ← row_max (a_cls a); Ok (Det (anchor_box a) m.1 m.2)) x)
    as [ds Hds].
  { eapply Forall_impl; [exact Hx |]. intros a Ha. simpl in Ha.
    destruct (row_max_ok _ Ha) as [m ->]. now eexists. }
  rewrite Hds. now eexists.
Qed.

End selection.

(** ** The loop body *)

Section loop_body.
Variable nc : nat.
Variables conf_thres iou_thres : Q.
Variable classes : option (list Z).
Variables agnostic multi_label : bool.
Variable labels : list (list label).
Variable max_det : Z.

(** What [detect] returns: nothing when no row is left after the class
    filter, else the result of the "Batched NMS" step on the rows left
    (at most [max_nms] of them). *)
Lemma detect_inv x0 r :
  detect conf_thres iou_thres classes agnostic multi_label max_det x0 = Ok r ->
  exists sel,
    select conf_thres multi_label x0 = Ok sel /\
    match r with
    | None => filter_classes classes sel = []
    | Some dets =>
        exists x,
          filter_classes classes sel <> [] /\
          Forall (fun d => d ∈ filter_classes classes sel) x /\
          (Z.of_nat (length x) <= max_nms)%Z /\
          batched_nms x agnostic iou_thres max_det = Ok dets
    end.
Proof.
  unfold detect.
  destruct (select conf_thres multi_label x0) as [sel |]; [| discriminate].
  cbn [mbind result_bind rbind].
  set (x1 := filter_classes classes sel).
  destruct (decide (length x1 = 0)) as [E | E].
  - intros [= <-]. exists sel. split; [reflexivity |].
    now apply length_zero_iff_nil.
  - destruct (Z.ltb_spec max_nms (Z.of_nat (length x1))) as [Hbig | Hsmall].
    + destruct (rows x1 _) as [x |] eqn:Ex; [| discriminate].
      cbn [mbind result_bind rbind].
      destruct (batched_nms x _ _ _) as [dets |] eqn:Eb; [| discriminate].
      intros [= <-]. exists sel. split; [reflexivity |]. exists x.
      apply rows_spec in Ex.
      split; [intros Hnil; apply E; subst x1; now rewrite Hnil |]. split; [| split].
      * rewrite Forall_forall. intros d Hd.
        apply list_elem_of_lookup_1 in Hd as [p Hp].
        destruct (Forall2_lookup_r _ _ _ _ _ Ex Hp) as (k & _ & Hk).
        now apply list_elem_of_lookup_2 in Hk.
      * rewrite <- (Forall2_length _ _ _ Ex).
        apply py_take_length_le. unfold max_nms. lia.
      * exact Eb.
    + cbn [mbind result_bind rbind].
      destruct (batched_nms x1 _ _ _) as [dets |] eqn:Eb; [| discriminate].
      intros [= <-]. exists sel. split; [reflexivity |]. exists x1.
      split; [intros Hnil; apply E; subst x1; now rewrite Hnil |]. split; [| split].
      * now rewrite Forall_forall.
      * exact Hsmall.
      * exact Eb.
Qed.

(** [detect] raises only if the selection does. *)
Lemma detect_ok x0 sel :
  select conf_thres multi_label x0 = Ok sel ->
  exists r,
    detect conf_thres iou_thres classes agnostic multi_label max_det x0 = Ok r.
Proof.
  intros Hsel. unfold detect. rewrite Hsel. cbn [mbind result_bind rbind].
  set (x1 := filter_classes classes sel).
  destruct (decide (length x1 = 0)); [now eexists |].
  assert (Hx : exists x,
    (if (max_nms <? Z.of_nat (length x1))%Z
     then rows x1 (py_take max_nms (argsort_desc (d_conf <$> x1)))
     else Ok x1) = Ok x).
  { destruct (_ <? _)%Z; [| now eexists].
    apply rows_ok. rewrite Forall_forall. intros k Hk.
    apply (sublist_subseteq _ _ (py_take_sublist _ _)) in Hk.
    apply argsort_desc_lt in Hk. now rewrite length_fmap in Hk. }
  destruct Hx as [x ->]. cbn [mbind result_bind rbind].
  destruct (batched_nms_ok x agnostic iou_thres max_det) as [out ->].
  now eexists.
Qed.

Lemma per_image_inv xi x0 mask r :
  per_image nc conf_thres iou_thres classes agnostic multi_label labels
            max_det xi x0 mask = Ok r ->
  exists c,
    candidates nc labels xi x0 mask = Ok c /\
    match r with
    | None =>
        c = [] \/
        exists sel, select conf_thres multi_label (fuse <$> c) = Ok sel /\
                    filter_classes classes sel = []
    | Some dets =>
        exists sel x,
          c <> [] /\
          select conf_thres multi_label (fuse <$> c) = Ok sel /\
          filter_classes classes sel <> [] /\
          Forall (fun d => d ∈ filter_classes classes sel) x /\
          (Z.of_nat (length x) <= max_nms)%Z /\
          batched_nms x agnostic iou_thres max_det = Ok dets
    end.
Proof.
  unfold per_image.
  destruct (candidates nc labels xi x0 mask) as [c |]; [| discriminate].
  cbn [mbind result_bind rbind]. destruct c as [| a c].
  - intros [= <-]. exists []. split; [reflexivity | now left].
  - intros Hd. apply detect_inv in Hd as (sel & Hsel & Hr).
    exists (a :: c). split; [reflexivity |]. destruct r as [dets |].
    + destruct Hr as (x & ? & ? & ? & ?). exists sel, x. repeat split; try done.
    + right. now exists sel.
Qed.

(** The detections of an image, whenever the body returns any. *)
Lemma per_image_batched xi x0 mask dets :
  per_image nc conf_thres iou_thres classes agnostic multi_label labels
            max_det xi x0 mask = Ok (Some dets) ->
  exists x, batched_nms x agnostic iou_thres max_det = Ok dets.
Proof.
  intros H%per_image_inv. destruct H as (c & _ & sel & x & _ & _ & _ & _ & _ & H).
  now exists x.
Qed.

End loop_body.

(** ** The loop over the images *)

Section image_loop_facts.
Variable nc : nat.
Variables conf_thres iou_thres : Q.
Variable classes : option (list Z).
Variables agnostic multi_label : bool.
Variable labels : list (list label).
Variable max_det : Z.
Variable xc : list (list bool).

Local Abbreviation body :=
  (per_image nc conf_thres iou_thres classes agnostic multi_label labels
             max_det).
Local Abbreviation loop :=
  (image_loop nc conf_thres iou_thres classes agnostic multi_label labels
              max_det).

(** The loop writes slot [xi + j] of [output] for image [j] when the body
    returns detections, and leaves every other slot as it is. *)
Lemma image_loop_spec images xi output out :
  loop xi images xc output = Ok out ->
  length out = length output /\
  (forall k, k < xi -> out !! k = output !! k) /\
  (forall k, xi + length images <= k -> out !! k = output !! k) /\
  (forall j x, images !! j = Some x ->
     exists r, body (xi + j) x (xc !!! (xi + j)) = Ok r /\
       (xi + j < length output ->
        out !! (xi + j) = match r with
                          | Some dets => Some dets
                          | None => output !! (xi + j)
                          end)).
Proof.
  revert xi output.
  induction images as [| x images IH]; intros xi output; simpl.
  - intros [= <-]. repeat split; auto. intros j x. now rewrite lookup_nil.
  - destruct (per_image _ _ _ _ _ _ _ _ xi x _) as [r |] eqn:Er; [| discriminate].
    cbn [mbind result_bind rbind]. intros Hloop.
    apply IH in Hloop as (Hlen & Hlow & Hhigh & Himg).
    set (output' := match r with
                    | Some dets => <[xi:=dets]> output
                    | None => output
                    end) in *.
    assert (Hlen' : length output' = length output).
    { subst output'. destruct r; [apply length_insert | reflexivity]. }
    assert (Hother : forall k, k <> xi -> output' !! k = output !! k).
    { intros k Hk. subst output'. destruct r; [| reflexivity].
      now apply list_lookup_insert_ne. }
    split; [congruence |]. split; [| split].
    + intros k Hk. rewrite Hlow by lia. apply Hother. lia.
    + intros k Hk. rewrite Hhigh by lia. apply Hother. lia.
    + intros [| j] y; simpl.
      * intros [= <-]. rewrite Nat.add_0_r. exists r. split; [exact Er |].
        intros Hxi. rewrite Hlow by lia. subst output'.
        destruct r; [now apply list_lookup_insert_eq | reflexivity].
      * intros Hy. destruct (Himg j y Hy) as (r' & Hr' & Hout).
        replace (xi + S j) with (S xi + j) by lia.
        exists r'. split; [exact Hr' |]. intros Hlt.
        rewrite Hout by lia. destruct r'; [reflexivity |].
        apply Hother. lia.
Qed.

(** The loop returns when the body returns for every image. *)
Lemma image_loop_ok images xi output :
  (forall j x, images !! j = Some x ->
     exists r, body (xi + j) x (xc !!! (xi + j)) = Ok r) ->
  exists out, loop xi images xc output = Ok out.
Proof.
  revert xi output.
  induction images as [| x images IH]; intros xi output Hbody; simpl.
  - now eexists.
  - destruct (Hbody 0 x eq_refl) as [r Hr]. rewrite Nat.add_0_r in Hr.
    rewrite Hr. cbn [mbind result_bind rbind]. apply IH.
    intros j y Hy. replace (S xi + j) with (xi + S j) by lia.
    now apply (Hbody (S j)).
Qed.

End image_loop_facts.

(** ** [non_max_suppression] *)

Section nms_function.
Variable p : prediction.
Variables conf_thres iou_thres : Q.
Variable classes : option (list Z).
Variables agnostic multi_label : bool.
Variable labels : list (list label).
Variable max_det : Z.

Local Abbreviation multi := (multi_label && (1 <? p_nc p)).
Local Abbreviation body :=
  (per_image (p_nc p) conf_thres iou_thres classes agnostic multi labels
             max_det).

Lemma xc_lookup xi x :
  p_images p !! xi = Some x ->
  (objectness_mask conf_thres <$> p_images p) !!! xi =
  objectness_mask conf_thres x.
Proof.
  intros Hx. apply list_lookup_total_correct.
  now rewrite list_lookup_fmap, Hx.
Qed.

(** With valid thresholds the function is the loop over the images. *)
Lemma nms_valid :
  valid_thres conf_thres = true -> valid_thres iou_thres = true ->
  non_max_suppression p conf_thres iou_thres classes agnostic multi_label
                      labels max_det =
  image_loop (p_nc p) conf_thres iou_thres classes agnostic multi labels
             max_det 0 (p_images p)
             (objectness_mask conf_thres <$> p_images p)
             (replicate (length (p_images p)) []).
Proof.
  intros Hc Hi. unfold non_max_suppression. now rewrite Hc, Hi.
Qed.

(** A result of the function: the thresholds were valid, and slot [xi]
    holds what the loop body returned for image [xi], or the initial empty
    tensor when the body went on to the next image. *)
Lemma nms_spec out :
  non_max_suppression p conf_thres iou_thres classes agnostic multi_label
                      labels max_det = Ok out ->
  valid_thres conf_thres = true /\ valid_thres iou_thres = true /\
  length out = length (p_images p) /\
  forall xi x, p_images p !! xi = Some x ->
    exists r, body xi x (objectness_mask conf_thres x) = Ok r /\
              out !! xi = Some (default [] r).
Proof.
  unfold non_max_suppression.
  destruct (valid_thres conf_thres); [| discriminate].
  destruct (valid_thres iou_thres); [| discriminate].
  cbn [assert mbind result_bind rbind]. intros Hloop.
  apply image_loop_spec in Hloop as (Hlen & _ & _ & Himg).
  rewrite length_replicate in Hlen.
  split; [reflexivity |]. split; [reflexivity |]. split; [exact Hlen |].
  intros xi x Hx. destruct (Himg xi x Hx) as (r & Hr & Hout).
  simpl in Hr, Hout. rewrite (xc_lookup _ _ Hx) in Hr.
  exists r. split; [exact Hr |].
  rewrite Hout by (rewrite length_replicate; now apply lookup_lt_Some in Hx).
  destruct r; [reflexivity |]. simpl.
  apply lookup_replicate_2. now apply lookup_lt_Some in Hx.
Qed.

(** The detections of an image are empty or come out of the "Batched NMS"
    step. *)
Lemma nms_image_cases out xi dets :
  non_max_suppression p conf_thres iou_thres classes agnostic multi_label
                      labels max_det = Ok out ->
  out !! xi = Some dets ->
  dets = [] \/ exists x, batched_nms x agnostic iou_thres max_det = Ok dets.
Proof.
  intros (_ & _ & Hlen & Himg)%nms_spec Hd.
  assert (Hxi : xi < length (p_images p))
    by (rewrite <- Hlen; now apply lookup_lt_Some in Hd).
  destruct (lookup_lt_is_Some_2 _ _ Hxi) as [x Hx].
  destruct (Himg xi x Hx) as (r & Hr & Hout).
  rewrite Hd in Hout. injection Hout as ->.
  destruct r as [dets |]; [right | now left].
  now apply per_image_batched in Hr.
Qed.

(** The function returns when the thresholds are valid and the body
    returns for every image. *)
Lemma nms_ok :
  valid_thres conf_thres = true -> valid_thres iou_thres = true ->
  (forall xi x, p_images p !! xi = Some x ->
     exists r, body xi x (objectness_mask conf_thres x) = Ok r) ->
  exists out,
    non_max_suppression p conf_thres iou_thres classes agnostic multi_label
                        labels max_det = Ok out.
Proof.
  intros Hc Hi Hbody. rewrite nms_valid by assumption.
  apply image_loop_ok. intros j x Hx. simpl.
  rewrite (xc_lookup _ _ Hx). now apply Hbody.
Qed.

(** The body returns on a well-shaped tensor with at least one class and
    fitting labels. *)
Lemma body_ok xi x :
  well_shaped p -> 0 < p_nc p ->
  labels_fit (p_nc p) (length (p_images p)) labels ->
  p_images p !! xi = Some x ->
  exists r, body xi x (objectness_mask conf_thres x) = Ok r.
Proof.
  intros Hshape Hnc Hlab Hx. unfold per_image.
  destruct (Hlab xi) as [v Hv]; [now apply lookup_lt_Some in Hx |].
  destruct (candidates_ok (p_nc p) labels xi x
              (objectness_mask conf_thres x) v Hv) as [c Hc].
  rewrite Hc. cbn [mbind result_bind rbind].
  destruct c as [| a c]; [now eexists |].
  assert (Hlen : Forall (fun a => length (a_cls a) = p_nc p) (a :: c)).
  { eapply candidates_cls_length; [| exact Hc].
    unfold well_shaped in Hshape. rewrite Forall_forall in Hshape.
    apply Hshape. now apply list_elem_of_lookup_2 in Hx. }
  destruct (select_ok conf_thres multi (fuse <$> a :: c)) as [sel Hsel].
  { rewrite Forall_fmap. eapply Forall_impl; [exact Hlen |].
    intros b Hb. unfold compose. intros Hnil.
    apply (f_equal length) in Hnil. rewrite fuse_cls_length in Hnil.
    simpl in Hnil, Hb. lia. }
  eapply detect_ok. exact Hsel.
Qed.

Lemma nms_returns :
  valid_thres conf_thres = true -> valid_thres iou_thres = true ->
  well_shaped p -> 0 < p_nc p ->
  labels_fit (p_nc p) (length (p_images p)) labels ->
  exists out,
    non_max_suppression p conf_thres iou_thres classes agnostic multi_label
                        labels max_det = Ok out.
Proof.
  intros Hc Hi Hshape Hnc Hlab. apply nms_ok; try assumption.
  intros xi x Hx. now apply body_ok.
Qed.

End nms_function.

(** ** The detections of an image *)

Section detections.
Variable p : prediction.
Variables conf_thres iou_thres : Q.
Variable classes : option (list Z).
Variables agnostic multi_label : bool.
Variable labels : list (list label).
Variable max_det : Z.

(** C3: the number of detections of an image does not exceed
    [max_det]. *)
Theorem nms_at_most_max_det out xi dets :
  (0 <= max_det)%Z ->
  non_max_suppression p conf_thres iou_thres classes agnostic multi_label
                      labels max_det = Ok out ->
  out !! xi = Some dets ->
  (Z.of_nat (length dets) <= max_det)%Z.
Proof.
  intros Hm Hout Hd.
  destruct (nms_image_cases _ _ _ _ _ _ _ _ _ _ _ Hout Hd) as [-> | [x Hx]].
  - exact Hm.
  - now apply batched_nms_length in Hx.
Qed.

(** C10: the detections of an image come by non-increasing confidence:
    every detection has a confidence no smaller than each detection after
    it. *)
Theorem nms_sorted_by_confidence out xi dets :
  non_max_suppression p conf_thres iou_thres classes agnostic multi_label
                      labels max_det = Ok out ->
  out !! xi = Some dets ->
  StronglySorted conf_ge dets.
Proof.
  intros Hout Hd.
  destruct (nms_image_cases _ _ _ _ _ _ _ _ _ _ _ Hout Hd) as [-> | [x Hx]].
  - constructor.
  - now apply batched_nms_sorted in Hx.
Qed.

End detections.

Lemma nms_at_most_max_det_witness :
  (Z.of_nat (length [ex_d1]) <= 1)%Z.
Proof.
  apply (nms_at_most_max_det ex_prediction (1 # 4) (45 # 100) None
           false false [] 1 [[ex_d1]; []] 0).
  - lia.
  - vm_compute. reflexivity.
  - reflexivity.
Defined.

Lemma nms_sorted_by_confidence_witness :
  StronglySorted conf_ge [ex_d1; ex_d2].
Proof.
  apply (nms_sorted_by_confidence ex_prediction (1 # 4) (45 # 100) None
           false false [] 300 [[ex_d1; ex_d2]; []] 0).
  - vm_compute. reflexivity.
  - reflexivity.
Defined.

(** ** The threshold checks *)

Section threshold_checks.
Local Open Scope Q_scope.

Lemma valid_thres_true t : valid_thres t = true <-> 0 <= t /\ t <= 1.
Proof.
  unfold valid_thres. now rewrite andb_true_iff, !Qle_bool_iff.
Qed.

Lemma valid_thres_false t : valid_thres t = false <-> outside_unit t.
Proof.
  unfold outside_unit. rewrite <- not_true_iff_false, valid_thres_true.
  split.
  - intros Hn. destruct (Qlt_le_dec t 0) as [? | H0]; [now left |].
    destruct (Qlt_le_dec 1 t) as [? | H1]; [now right |]. now destruct Hn.
  - intros [H | H] [H0 H1]; lra.
Qed.

End threshold_checks.

Section no_assertions.

Lemma no_assertion_bind {A B} (r : result A) (k : A -> result B) :
  no_assertion r -> (forall a, no_assertion (k a)) -> no_assertion (r ≫= k).
Proof.
  intros Hr Hk msg. destruct r as [a | e]; cbn [mbind result_bind rbind].
  - apply Hk.
  - intros [= ->]. now apply (Hr msg).
Qed.

Lemma no_assertion_Ok {A} (a : A) : no_assertion (Ok a).
Proof. intros msg. discriminate. Qed.

Lemma no_assertion_rows {A} (x : list A) i : no_assertion (rows x i).
Proof. intros msg. apply rows_no_assert. Qed.

Lemma no_assertion_traverse {A B} (f : A -> result B) l :
  (forall a, no_assertion (f a)) -> no_assertion (traverse f l).
Proof.
  intros Hf. induction l as [| a l IH]; simpl; [apply no_assertion_Ok |].
  apply no_assertion_bind; [apply Hf |]. intros b.
  apply no_assertion_bind; [exact IH |]. intros bs. apply no_assertion_Ok.
Qed.

Lemma no_assertion_label_rows nc labels xi :
  no_assertion (label_rows nc labels xi).
Proof.
  unfold label_rows. destruct labels; [apply no_assertion_Ok |].
  destruct (_ !! xi) as [[| l0 ls] |]; [apply no_assertion_Ok | | discriminate].
  apply no_assertion_bind; [| intros; apply no_assertion_Ok].
  apply no_assertion_traverse. intros l'. unfold label_row.
  apply no_assertion_bind; [| intros; apply no_assertion_Ok].
  unfold wrap_index. intros msg.
  destruct (_ || _); [discriminate |]. destruct (_ <? _)%Z; discriminate.
Qed.

Lemma no_assertion_select conf_thres multi_label x :
  no_assertion (select conf_thres multi_label x).
Proof.
  unfold select. destruct multi_label; [apply no_assertion_Ok |].
  unfold select_best.
  apply no_assertion_bind; [| intros; apply no_assertion_Ok].
  apply no_assertion_traverse. intros a.
  apply no_assertion_bind; [| intros; apply no_assertion_Ok].
  intros msg. destruct (a_cls a); discriminate.
Qed.

Lemma no_assertion_per_image nc conf_thres iou_thres classes agnostic
    multi_label labels max_det xi x mask :
  no_assertion (per_image nc conf_thres iou_thres classes agnostic
                          multi_label labels max_det xi x mask).
Proof.
  unfold per_image. apply no_assertion_bind.
  { unfold candidates.
    apply no_assertion_bind; [apply no_assertion_label_rows |].
    intros; apply no_assertion_Ok. }
  intros [| a c]; [apply no_assertion_Ok |]. unfold detect.
  apply no_assertion_bind; [apply no_assertion_select |]. intros sel.
  destruct (decide _); [apply no_assertion_Ok |].
  apply no_assertion_bind.
  { destruct (_ <? _)%Z; [apply no_assertion_rows | apply no_assertion_Ok]. }
  intros x'. apply no_assertion_bind; [apply no_assertion_rows |].
  intros; apply no_assertion_Ok.
Qed.

Lemma no_assertion_image_loop nc conf_thres iou_thres classes agnostic
    multi_label labels max_det xi images xc output :
  no_assertion (image_loop nc conf_thres iou_thres classes agnostic
                           multi_label labels max_det xi images xc output).
Proof.
  revert xi output. induction images as [| x images IH]; intros xi output.
  - apply no_assertion_Ok.
  - simpl. apply no_assertion_bind; [apply no_assertion_per_image |].
    intros r. apply IH.
Qed.

End no_assertions.

Section contract.
Local Open Scope Q_scope.
Variable p : prediction.
Variables conf_thres iou_thres : Q.
Variable classes : option (list Z).
Variables agnostic multi_label : bool.
Variable labels : list (list label).
Variable max_det : Z.

(** C7: with [conf_thres] or [iou_thres] outside [0, 1] the function
    raises the assertion error and nothing else happens: there is no
    output, and on the stored tensors the store is left as it was, no
    tensor having been created for any image.  With both thresholds in
    [0, 1] the function is the loop over the images, which raises no
    assertion error. *)
Theorem nms_threshold_contract :
  (outside_unit conf_thres \/ outside_unit iou_thres ->
   (exists msg,
      non_max_suppression p conf_thres iou_thres classes agnostic multi_label
                          labels max_det = Raise (AssertionError msg)) /\
   (forall images s, exists msg,
      non_max_suppression_st (p_nc p) images conf_thres iou_thres classes
                             agnostic multi_label labels max_det s =
      (Raise (AssertionError msg), s))) /\
  (0 <= conf_thres <= 1 -> 0 <= iou_thres <= 1 ->
   non_max_suppression p conf_thres iou_thres classes agnostic multi_label
                       labels max_det =
   image_loop (p_nc p) conf_thres iou_thres classes agnostic
              (multi_label && (1 <? p_nc p)) labels max_det 0 (p_images p)
              (objectness_mask conf_thres <$> p_images p)
              (replicate (length (p_images p)) []) /\
   no_assertion (non_max_suppression p conf_thres iou_thres classes agnostic
                                     multi_label labels max_det)).
Proof.
  split.
  - intros Hout. unfold non_max_suppression, non_max_suppression_st.
    destruct (valid_thres conf_thres) eqn:Ec.
    + destruct Hout as [Hc | Hi].
      * apply valid_thres_false in Hc. congruence.
      * apply valid_thres_false in Hi. rewrite Hi.
        split; [now eexists | intros; now eexists].
    + split; [now eexists | intros; now eexists].
  - intros Hc%valid_thres_true Hi%valid_thres_true.
    rewrite nms_valid by assumption.
    split; [reflexivity | apply no_assertion_image_loop].
Qed.

End contract.

(** An IoU threshold of 1.45 on the sample batch, and the default
    thresholds. *)
Lemma nms_threshold_contract_witness :
  ((exists msg,
      non_max_suppression ex_prediction (1 # 4) (145 # 100) None false false
                          [] 300 = Raise (AssertionError msg)) /\
   (forall images s, exists msg,
      non_max_suppression_st (p_nc ex_prediction) images (1 # 4) (145 # 100)
                             None false false [] 300 s =
      (Raise (AssertionError msg), s))) /\
  no_assertion (non_max_suppression ex_prediction (1 # 4) (45 # 100) None
                                    false false [] 300).
Proof.
  split.
  - apply (nms_threshold_contract ex_prediction (1 # 4) (145 # 100) None
             false false [] 300).
    right. right. reflexivity.
  - apply (nms_threshold_contract ex_prediction (1 # 4) (45 # 100) None
             false false [] 300).
    + split; vm_compute; discriminate.
    + split; vm_compute; discriminate.
Defined.

(** ** Images without detections *)

Section empty_result.
Local Open Scope Q_scope.
Variable p : prediction.
Variables conf_thres iou_thres : Q.
Variable classes : option (list Z).
Variables agnostic multi_label : bool.
Variable labels : list (list label).
Variable max_det : Z.




End empty_result.


(** ** The stored tensors *)

Section store_facts.
Implicit Types (s : gmap positive (list anchor)) (l : positive).

Lemma s_alloc_fresh rows s : s !! fst (s_alloc rows s) = None.
Proof. unfold s_alloc. simpl. apply not_elem_of_dom, is_fresh. Qed.

Lemma s_alloc_subseteq rows s : s ⊆ snd (s_alloc rows s).
Proof.
  unfold s_alloc. simpl. apply insert_subseteq, (s_alloc_fresh rows s).
Qed.

Lemma s_alloc_read rows s :
  s_read (snd (s_alloc rows s)) (fst (s_alloc rows s)) = rows.
Proof. unfold s_alloc, s_read. simpl. now rewrite lookup_insert_eq. Qed.

Lemma s_read_weaken s s' l :
  s ⊆ s' -> is_Some (s !! l) -> s_read s' l = s_read s l.
Proof.
  intros Hsub [rows Hl]. unfold s_read.
  now rewrite (lookup_weaken _ _ _ _ Hl Hsub), Hl.
Qed.

(** The in-place fusion overwrites the storage of its operand... *)
Lemma s_imul_conf_read x s :
  s_read (s_imul_conf x s) x = fuse <$> s_read s x.
Proof. unfold s_imul_conf, s_read at 1. now rewrite lookup_insert_eq. Qed.

Lemma s_imul_conf_subseteq s0 s x :
  s0 ⊆ s -> s0 !! x = None -> s0 ⊆ s_imul_conf x s.
Proof. intros Hsub Hx. unfold s_imul_conf. now apply insert_subseteq_r. Qed.

Variable nc : nat.
Variables conf_thres iou_thres : Q.
Variable classes : option (list Z).
Variables agnostic multi_label : bool.
Variable labels : list (list label).
Variable max_det : Z.

(** The loop body on the store: the tensors that existed before are left
    as they were, and the result is that of the body on the rows of the
    view. *)
Lemma per_image_st_spec multi xi x mask s :
  s ⊆ snd (per_image_st nc conf_thres iou_thres classes agnostic multi
                        labels max_det xi x mask s) /\
  fst (per_image_st nc conf_thres iou_thres classes agnostic multi
                    labels max_det xi x mask s) =
  per_image nc conf_thres iou_thres classes agnostic multi labels
            max_det xi (s_read s x) mask.
Proof.
  unfold per_image_st, per_image, candidates.
  pose proof (s_alloc_fresh (mask_index (s_read s x) mask) s) as Hfresh1.
  pose proof (s_alloc_subseteq (mask_index (s_read s x) mask) s) as Hsub1.
  pose proof (s_alloc_read (mask_index (s_read s x) mask) s) as Hread1.
  destruct (s_alloc (mask_index (s_read s x) mask) s) as [x1 s1].
  simpl in Hfresh1, Hsub1, Hread1.
  destruct (label_rows nc labels xi) as [v | e]; [| now split].
  cbn [mbind result_bind rbind].
  assert (Hcat : exists x2 s2,
    match v with
    | Some v => s_alloc (s_read s1 x1 ++ v) s1
    | None => (x1, s1)
    end = (x2, s2) /\ s ⊆ s2 /\ s !! x2 = None /\
    s_read s2 x2 = match v with
                   | Some v => mask_index (s_read s x) mask ++ v
                   | None => mask_index (s_read s x) mask
                   end).
  { destruct v as [v |].
    - pose proof (s_alloc_fresh (s_read s1 x1 ++ v) s1) as Hfresh2.
      pose proof (s_alloc_subseteq (s_read s1 x1 ++ v) s1) as Hsub2.
      pose proof (s_alloc_read (s_read s1 x1 ++ v) s1) as Hread2.
      destruct (s_alloc (s_read s1 x1 ++ v) s1) as [x2 s2].
      simpl in Hfresh2, Hsub2, Hread2. exists x2, s2.
      split; [reflexivity |]. split; [now transitivity s1 |].
      split; [| now rewrite Hread2, Hread1].
      destruct (s !! x2) eqn:E; [| reflexivity].
      now rewrite (lookup_weaken _ _ _ _ E Hsub1) in Hfresh2.
    - exists x1, s1. now repeat split. }
  destruct Hcat as (x2 & s2 & -> & Hsub2 & Hfresh2 & Hread2).
  set (c := match v with
            | Some v => mask_index (s_read s x) mask ++ v
            | None => mask_index (s_read s x) mask
            end) in *.
  destruct (s_read s2 x2) as [| a c'] eqn:Ec; rewrite <- Hread2.
  - now split.
  - split; [now apply s_imul_conf_subseteq |]. simpl.
    now rewrite s_imul_conf_read, Ec.
Qed.

(** The loop on the store. *)
Lemma image_loop_st_spec multi images xi xc output s :
  Forall (fun l => is_Some (s !! l)) images ->
  s ⊆ snd (image_loop_st nc conf_thres iou_thres classes agnostic multi
                         labels max_det xi images xc output s) /\
  fst (image_loop_st nc conf_thres iou_thres classes agnostic multi
                     labels max_det xi images xc output s) =
  image_loop nc conf_thres iou_thres classes agnostic multi labels
             max_det xi (s_read s <$> images) xc output.
Proof.
  revert xi output s.
  induction images as [| x images IH]; intros xi output s Hin; csimpl.
  - now split.
  - apply Forall_cons in Hin as [Hx Hin].
    destruct (per_image_st_spec multi xi x (xc !!! xi) s) as [Hsub Hres].
    destruct (per_image_st _ _ _ _ _ _ _ _ _ _ _ s) as [r s1].
    simpl in Hsub, Hres. rewrite <- Hres.
    destruct r as [r | e]; [| now split].
    cbn [mbind result_bind rbind].
    assert (Hin1 : Forall (fun l => is_Some (s1 !! l)) images).
    { eapply Forall_impl; [exact Hin |]. intros l [rows Hl].
      exists rows. exact (lookup_weaken _ _ _ _ Hl Hsub). }
    assert (Hsame : s_read s <$> images = s_read s1 <$> images).
    { apply Forall_fmap_ext. eapply Forall_impl; [exact Hin |].
      intros l Hl. simpl. symmetry. now apply s_read_weaken. }
    rewrite Hsame.
    destruct (IH (S xi)
                 (match r with
                  | Some dets => <[xi:=dets]> output
                  | None => output
                  end) s1 Hin1) as [Hsub' Hres'].
    split; [now transitivity s1 | exact Hres'].
Qed.

(** C9: [non_max_suppression] leaves the prediction tensor as it was.
    On the store, every tensor that exists before the call, the images
    of the prediction tensor among them, holds the same rows after it:
    the confidence fusion writes into the tensor that the mask indexing
    created.  The detections returned are those of the function on the
    rows of the stored prediction. *)
Theorem nms_leaves_prediction_unchanged images s r s' :
  Forall (fun l => is_Some (s !! l)) images ->
  non_max_suppression_st nc images conf_thres iou_thres classes agnostic
                         multi_label labels max_det s = (r, s') ->
  (forall l rows, s !! l = Some rows -> s' !! l = Some rows) /\
  stored_prediction nc images s' = stored_prediction nc images s /\
  r = non_max_suppression (stored_prediction nc images s) conf_thres
                          iou_thres classes agnostic multi_label labels
                          max_det.
Proof.
  intros Hin Hrun.
  assert (Hsub : s ⊆ s' /\
    r = non_max_suppression (stored_prediction nc images s) conf_thres
                            iou_thres classes agnostic multi_label labels
                            max_det).
  { revert Hrun. unfold non_max_suppression_st, non_max_suppression.
    cbn [stored_prediction p_nc p_images].
    destruct (valid_thres conf_thres); cbn [assert];
      [| intros [= <- <-]; now split].
    destruct (valid_thres iou_thres); cbn [assert];
      [| intros [= <- <-]; now split].
    cbn [mbind result_bind rbind]. rewrite length_fmap.
    rewrite <- list_fmap_compose.
    set (xc := (fun x => objectness_mask conf_thres (s_read s x)) <$> images).
    set (output := replicate (length images) []).
    destruct (image_loop_st_spec (multi_label && (1 <? nc)) images 0 xc
                output s Hin) as [Hs Hr].
    intros Hrun. rewrite Hrun in Hs, Hr. simpl in Hs, Hr. now split. }
  destruct Hsub as [Hsub Hr]. split; [| split; [| exact Hr]].
  - intros l rows Hl. exact (lookup_weaken _ _ _ _ Hl Hsub).
  - unfold stored_prediction. f_equal. apply Forall_fmap_ext.
    eapply Forall_impl; [exact Hin |]. intros l Hl. simpl.
    now apply s_read_weaken.
Qed.

End store_facts.

(** The first image of the sample batch stored at handle 1: the call
    returns the two detections and the rows at handle 1 are those of
    before. *)
Lemma nms_leaves_prediction_unchanged_witness :
  let s : gmap positive (list anchor) := {[1%positive := [ex_a1; ex_a2; ex_a3]]} in
  let run := non_max_suppression_st 2 [1%positive] (1 # 4) (45 # 100) None
                                    false false [] 300 s in
  (forall l rows, s !! l = Some rows -> snd run !! l = Some rows) /\
  stored_prediction 2 [1%positive] (snd run) =
  stored_prediction 2 [1%positive] s /\
  fst run = non_max_suppression (stored_prediction 2 [1%positive] s) (1 # 4)
                                (45 # 100) None false false [] 300.
Proof.
  intros s run.
  apply (nms_leaves_prediction_unchanged 2 (1 # 4) (45 # 100) None false
           false [] 300 [1%positive] s (fst run) (snd run)).
  - repeat constructor. now eexists.
  - apply surjective_pairing.
Defined.

(** The run on the sample image: the detections come back, handle 1
    still holds the rows of the input, and the fused rows sit in the new
    tensor at handle 2. *)
Example nms_st_sample :
  let s : gmap positive (list anchor) := {[1%positive := [ex_a1; ex_a2; ex_a3]]} in
  let run := non_max_suppression_st 2 [1%positive] (1 # 4) (45 # 100) None
                                    false false [] 300 s in
  fst run = Ok [[ex_d1; ex_d2]] /\
  snd run !! 1%positive = Some [ex_a1; ex_a2; ex_a3] /\
  snd run !! 2%positive = Some (fuse <$> [ex_a1; ex_a2; ex_a3]).
Proof. vm_compute. repeat split; reflexivity. Qed.

(** ** What a run tells about the detections *)

Section offset_apart_facts.
Local Open Scope Q_scope.
Variable nc : nat.
Variable agnostic : bool.
Variable thr : Q.

Lemma StronglySorted_seq (S : relation nat) k n :
  (forall i j, (k <= i < j)%nat -> (j < k + n)%nat -> S i j) ->
  StronglySorted S (seq k n).
Proof.
  revert k. induction n as [| n IH]; intros k HS; simpl; constructor.
  - apply IH. intros i j Hij Hj. apply HS; lia.
  - rewrite Forall_forall. intros j Hj. apply elem_of_seq in Hj.
    apply HS; lia.
Qed.

(** No row returned by the "Batched NMS" step overlaps, as [nms] sees the
    boxes, a row returned after it. *)
Lemma batched_nms_offset_apart x max_det out :
  batched_nms x agnostic thr max_det = Ok out ->
  StronglySorted (offset_apart agnostic thr) out.
Proof.
  intros Hout. apply batched_nms_rows in Hout.
  eapply (StronglySorted_Forall2 _ _ _ _ _ Hout).
  2: { eapply StronglySorted_sublist; [apply limit_det_sublist |].
       apply nms_pairwise, nms_keep_lengths. }
  intros i j a b Hij Ha Hb. simpl in *. unfold offset_apart.
  now rewrite <- (overlaps_offset _ _ _ _ _ _ _ Ha Hb).
Qed.

End offset_apart_facts.

Section class_filter.
Variable classes : option (list Z).

Lemma filter_classes_spec sel d :
  d ∈ filter_classes classes sel <-> class_allowed classes d /\ d ∈ sel.
Proof.
  unfold filter_classes, class_allowed. destruct classes as [cl |].
  - now rewrite list_elem_of_filter.
  - tauto.
Qed.

End class_filter.

Section run_facts.
Local Open Scope Q_scope.
Variable p : prediction.
Variables conf_thres iou_thres : Q.
Variable classes : option (list Z).
Variables agnostic multi_label : bool.
Variable labels : list (list label).
Variable max_det : Z.

(** What a run of the function tells about the detections of an
    image. *)
Lemma nms_image_facts out xi dets :
  non_max_suppression p conf_thres iou_thres classes agnostic multi_label
                      labels max_det = Ok out ->
  well_shaped p ->
  out !! xi = Some dets ->
  Forall (fun d => Qltb conf_thres (d_conf d) = true /\
                   (d_cls d < p_nc p)%nat /\ class_allowed classes d) dets /\
  (Z.of_nat (length dets) <= max_nms)%Z /\
  StronglySorted (offset_apart agnostic iou_thres) dets /\
  ((0 <= max_det)%Z -> (Z.of_nat (length dets) <= max_det)%Z).
Proof.
  intros (_ & _ & Hlen & Himg)%nms_spec Hshape Hd.
  assert (Hxi : (xi < length (p_images p))%nat)
    by (rewrite <- Hlen; now apply lookup_lt_Some in Hd).
  destruct (lookup_lt_is_Some_2 _ _ Hxi) as [x0 Hx0].
  destruct (Himg xi x0 Hx0) as (r & Hr & Hout).
  rewrite Hd in Hout. injection Hout as ->.
  destruct r as [dets |]; simpl.
  2: { split; [constructor |]. split; [unfold max_nms; lia |].
       split; [constructor | auto]. }
  apply per_image_inv in Hr
    as (c & Hc & sel & x & Hne & Hsel & Hfne & Hx & Hxlen & Hb).
  assert (Hclen : Forall (fun a => length (a_cls a) = p_nc p) c).
  { eapply candidates_cls_length; [| exact Hc].
    unfold well_shaped in Hshape. rewrite Forall_forall in Hshape.
    apply Hshape. now apply list_elem_of_lookup_2 in Hx0. }
  apply select_spec in Hsel.
  split; [| split; [| split]].
  - rewrite Forall_forall. intros d Hdin.
    apply (batched_nms_elem_of _ _ _ _ _ _ Hb) in Hdin.
    rewrite Forall_forall in Hx. apply Hx in Hdin.
    apply filter_classes_spec in Hdin as [Hallowed Hdsel].
    rewrite Forall_forall in Hsel.
    destruct (Hsel d Hdsel) as (a & Ha & _ & Hscore & Hgate).
    split; [exact Hgate |]. split; [| exact Hallowed].
    apply list_elem_of_fmap in Ha as (a0 & -> & Ha0).
    rewrite Forall_forall in Hclen. rewrite <- (Hclen a0 Ha0).
    rewrite <- (fuse_cls_length a0). now apply lookup_lt_Some in Hscore.
  - pose proof (batched_nms_length_le _ _ _ _ _ Hb). lia.
  - now apply batched_nms_offset_apart in Hb.
  - intros Hm. now apply (batched_nms_length _ _ _ _ _ Hm) in Hb.
Qed.

End run_facts.

(** ** Further properties of [letterbox] *)

Section rounding_more.
Local Open Scope Q_scope.

(** [py_round] is positive exactly above one half: one half itself is a
    tie and goes to the even 0. *)
Lemma py_round_pos q : (0 < py_round q)%Z <-> 1 # 2 < q.
Proof.
  unfold py_round.
  pose proof (Qfloor_le q) as Hf. pose proof (Qlt_floor q) as Hc.
  rewrite inject_Z_plus in Hc. change (inject_Z 1) with 1 in Hc.
  destruct (Z.lt_trichotomy (Qfloor q) 0) as [Hn | [Hz | Hp]].
  - assert (inject_Z (Qfloor q) <= -1).
    { change (-1) with (inject_Z (-1)). rewrite <- Zle_Qle. lia. }
    split; [| intros; lra].
    destruct (Qltb _ _); [lia |]. destruct (Qltb _ _); [lia |].
    destruct (Z.even _); lia.
  - rewrite Hz in *. change (inject_Z 0) with 0 in *.
    destruct (Qltb (q - 0) (1 # 2)) eqn:E1.
    + apply Qltb_lt in E1. split; [lia | intros; lra].
    + apply Qltb_ge in E1. destruct (Qltb (1 # 2) (q - 0)) eqn:E2.
      * apply Qltb_lt in E2. split; [intros; lra | lia].
      * apply Qltb_ge in E2. simpl. split; [lia | intros; lra].
  - assert (1 <= inject_Z (Qfloor q)).
    { change 1 with (inject_Z 1). rewrite <- Zle_Qle. lia. }
    split; [intros; lra |]. intros _.
    destruct (Qltb _ _); [lia |]. destruct (Qltb _ _); [lia |].
    destruct (Z.even _); lia.
Qed.

(** [py_round] moves its argument by at most one half. *)
Lemma py_round_dist q :
  q - (1 # 2) <= inject_Z (py_round q) /\ inject_Z (py_round q) <= q + (1 # 2).
Proof.
  unfold py_round.
  pose proof (Qfloor_le q) as Hf. pose proof (Qlt_floor q) as Hc.
  rewrite inject_Z_plus in Hc. change (inject_Z 1) with 1 in Hc.
  destruct (Qltb (q - inject_Z (Qfloor q)) (1 # 2)) eqn:E1.
  - apply Qltb_lt in E1. lra.
  - apply Qltb_ge in E1.
    assert (Hup : inject_Z (Qfloor q + 1) == inject_Z (Qfloor q) + 1)
      by (rewrite inject_Z_plus; reflexivity).
    destruct (Qltb (1 # 2) _) eqn:E2.
    + rewrite Hup. lra.
    + apply Qltb_ge in E2. destruct (Z.even _); [lra | rewrite Hup; lra].
Qed.

End rounding_more.

Section letterbox_more.
Local Open Scope Z_scope.

Lemma cv_copyMakeBorder_nonneg shape t b l r im :
  cv_copyMakeBorder shape t b l r = Ok im -> 0 <= t /\ 0 <= b /\ 0 <= l /\ 0 <= r.
Proof.
  unfold cv_copyMakeBorder.
  destruct (Z.leb_spec 0 t), (Z.leb_spec 0 b), (Z.leb_spec 0 l),
    (Z.leb_spec 0 r); simpl; try discriminate. now intros _.
Qed.

(** The padding, the ratio and the resize target that a returned result
    records. *)
Lemma letterbox_meta_inv h w t auto scaleFill scaleup stride out :
  letterbox (h, w) t auto scaleFill scaleup stride = Ok out ->
  let nh := fst (target_hw t) in
  let nw := snd (target_hw t) in
  let r := scale_ratio (h, w) (nh, nw) scaleup in
  let scaled := scaled_size (h, w) r in
  h <> 0 /\ w <> 0 /\
  lb_unpad out = resize_target (h, w) t auto scaleFill scaleup /\
  lb_ratio out =
    (if auto then (r, r)
     else if scaleFill
          then ((inject_Z nw / inject_Z w)%Q, (inject_Z nh / inject_Z h)%Q)
          else (r, r)) /\
  exists dw dh,
    (if auto then
       dw = np_mod (nw - fst scaled) stride /\
       dh = np_mod (nh - snd scaled) stride
     else if scaleFill then dw = 0 /\ dh = 0
     else dw = nw - fst scaled /\ dh = nh - snd scaled) /\
    lb_pad out = ((inject_Z dw / 2)%Q, (inject_Z dh / 2)%Q) /\
    lb_top out = py_round (inject_Z dh / 2 - (1 # 10))%Q /\
    lb_bottom out = py_round (inject_Z dh / 2 + (1 # 10))%Q /\
    lb_left out = py_round (inject_Z dw / 2 - (1 # 10))%Q /\
    lb_right out = py_round (inject_Z dw / 2 + (1 # 10))%Q /\
    0 <= lb_top out /\ 0 <= lb_bottom out /\
    0 <= lb_left out /\ 0 <= lb_right out /\
    (0 < fst (lb_unpad out) /\ 0 < snd (lb_unpad out) \/
     lb_unpad out = (w, h)).
Proof.
  unfold letterbox, resize_target. destruct (target_hw t) as [nh nw] eqn:Et.
  cbn [fst snd].
  destruct (Z.eqb_spec h 0) as [| Hh]; [discriminate |].
  destruct (Z.eqb_spec w 0) as [| Hw]; [discriminate |]. cbn [orb].
  set (r := scale_ratio _ _ _). set (scaled := scaled_size _ _).
  assert (Hstep : forall (unpad : Z * Z) (dw dh : Z) ratio,
    (im ← (if decide ((w, h) = unpad) then Ok (h, w) else cv_resize unpad);
     im ← cv_copyMakeBorder im
            (py_round (inject_Z dh / 2 - (1 # 10))%Q)
            (py_round (inject_Z dh / 2 + (1 # 10))%Q)
            (py_round (inject_Z dw / 2 - (1 # 10))%Q)
            (py_round (inject_Z dw / 2 + (1 # 10))%Q);
     Ok {| lb_unpad := unpad;
           lb_top := py_round (inject_Z dh / 2 - (1 # 10))%Q;
           lb_bottom := py_round (inject_Z dh / 2 + (1 # 10))%Q;
           lb_left := py_round (inject_Z dw / 2 - (1 # 10))%Q;
           lb_right := py_round (inject_Z dw / 2 + (1 # 10))%Q;
           lb_height := fst im; lb_width := snd im;
           lb_ratio := ratio;
           lb_pad := ((inject_Z dw / 2)%Q, (inject_Z dh / 2)%Q) |}) = Ok out ->
    lb_unpad out = unpad /\ lb_ratio out = ratio /\
    lb_pad out = ((inject_Z dw / 2)%Q, (inject_Z dh / 2)%Q) /\
    lb_top out = py_round (inject_Z dh / 2 - (1 # 10))%Q /\
    lb_bottom out = py_round (inject_Z dh / 2 + (1 # 10))%Q /\
    lb_left out = py_round (inject_Z dw / 2 - (1 # 10))%Q /\
    lb_right out = py_round (inject_Z dw / 2 + (1 # 10))%Q /\
    0 <= lb_top out /\ 0 <= lb_bottom out /\
    0 <= lb_left out /\ 0 <= lb_right out /\
    (0 < fst (lb_unpad out) /\ 0 < snd (lb_unpad out) \/
     lb_unpad out = (w, h))).
  { intros unpad dw dh ratio.
    destruct (if decide _ then _ else _) as [im |] eqn:Er; [| discriminate].
    unfold mbind at 1, result_bind, rbind.
    destruct (cv_copyMakeBorder _ _ _ _ _) as [im' |] eqn:Eb; [| discriminate].
    apply cv_copyMakeBorder_nonneg in Eb as (? & ? & ? & ?).
    intros [= <-]. cbn [lb_unpad lb_top lb_bottom lb_left lb_right lb_ratio
                        lb_pad].
    repeat (split; [first [reflexivity | assumption] |]).
    destruct (decide _) as [<- | _]; [now right |]. left.
    unfold cv_resize in Er.
    destruct (Z.ltb_spec 0 (fst unpad)), (Z.ltb_spec 0 (snd unpad));
      simpl in Er; try discriminate. now split. }
  intros Hout. split; [exact Hh |]. split; [exact Hw |]. revert Hout.
  destruct auto; [| destruct scaleFill]; intros Hout; apply Hstep in Hout;
    destruct Hout as (Hu & Hra & Hp & Hrest);
    (split; [exact Hu |]); (split; [exact Hra |]);
    eexists _, _; (split; [split; reflexivity |]); (split; [exact Hp |]);
    exact Hrest.
Qed.

(** X1: the pad [(dw, dh)] that [letterbox] returns is half of the border
    that it adds on each axis: [left + right = 2 dw] and
    [top + bottom = 2 dh], with [left <= dw <= right] and
    [top <= dh <= bottom]; no border is negative. *)
Theorem letterbox_pad_halves h w t auto scaleFill scaleup stride out :
  letterbox (h, w) t auto scaleFill scaleup stride = Ok out ->
  (inject_Z (lb_left out + lb_right out) == 2 * fst (lb_pad out) /\
   inject_Z (lb_top out + lb_bottom out) == 2 * snd (lb_pad out) /\
   inject_Z (lb_left out) <= fst (lb_pad out) <= inject_Z (lb_right out) /\
   inject_Z (lb_top out) <= snd (lb_pad out) <= inject_Z (lb_bottom out))%Q /\
  0 <= lb_left out /\ 0 <= lb_top out.
Proof.
  intros Hout. apply letterbox_meta_inv in Hout.
  destruct Hout as (_ & _ & _ & _ & dw & dh & _ & Hp & Ht & Hb & Hl & Hr &
                    Ht0 & _ & Hl0 & _).
  destruct (border_split dw) as [[Hsw Hdw] _].
  destruct (border_split dh) as [[Hsh Hdh] _].
  rewrite <- Ht, <- Hb in Hsh, Hdh. rewrite <- Hl, <- Hr in Hsw, Hdw.
  rewrite Hp. cbn [fst snd]. split; [| now split].
  assert (Hw2 : (inject_Z (lb_left out) + inject_Z (lb_right out) == inject_Z dw)%Q)
    by (rewrite <- inject_Z_plus, Hsw; reflexivity).
  assert (Hh2 : (inject_Z (lb_top out) + inject_Z (lb_bottom out) == inject_Z dh)%Q)
    by (rewrite <- inject_Z_plus, Hsh; reflexivity).
  assert (Hlr : (inject_Z (lb_left out) <= inject_Z (lb_right out))%Q)
    by (rewrite <- Zle_Qle; lia).
  assert (Htb : (inject_Z (lb_top out) <= inject_Z (lb_bottom out))%Q)
    by (rewrite <- Zle_Qle; lia).
  assert (Hqw : (inject_Z dw / 2 == (1 # 2) * inject_Z dw)%Q) by field.
  assert (Hqh : (inject_Z dh / 2 == (1 # 2) * inject_Z dh)%Q) by field.
  rewrite !inject_Z_plus, Hqw, Hqh.
  repeat split; lra.
Qed.

End letterbox_more.

Section letterbox_scaling.
Local Open Scope Z_scope.

Lemma py_round_inject k : py_round (inject_Z k) = k.
Proof.
  assert (H : (inject_Z k == inject_Z k + 0)%Q) by ring.
  rewrite H. apply py_round_near; reflexivity.
Qed.

Lemma inject_Z_pos z : 0 < z -> (0 < inject_Z z)%Q.
Proof. intros H. now rewrite (Zlt_Qlt 0 z) in H. Qed.

(** The scale ratio is positive and at most each of the two quotients
    "new / old"; with [scaleup] off it is at most 1. *)
Lemma scale_ratio_bounds h w nh nw scaleup :
  0 < h -> 0 < w -> 0 < nh -> 0 < nw ->
  let r := scale_ratio (h, w) (nh, nw) scaleup in
  (0 < r /\ inject_Z h * r <= inject_Z nh /\ inject_Z w * r <= inject_Z nw /\
   (scaleup = false -> r <= 1) /\
   (inject_Z h * r == inject_Z nh \/ inject_Z w * r == inject_Z nw \/
    scaleup = false /\ r == 1))%Q.
Proof.
  intros Hh%inject_Z_pos Hw%inject_Z_pos Hnh%inject_Z_pos Hnw%inject_Z_pos.
  unfold scale_ratio. cbn [fst snd].
  set (qh := (inject_Z nh / inject_Z h)%Q). set (qw := (inject_Z nw / inject_Z w)%Q).
  assert (Hqh : (inject_Z h * qh == inject_Z nh)%Q) by (unfold qh; field; lra).
  assert (Hqw : (inject_Z w * qw == inject_Z nw)%Q) by (unfold qw; field; lra).
  assert (Hqhp : (0 < qh)%Q) by nra.
  assert (Hqwp : (0 < qw)%Q) by nra.
  pose proof (Q.min_spec qh qw) as Hm. set (r0 := Qmin qh qw) in *. clearbody r0.
  destruct scaleup.
  - repeat split; try nra; discriminate.
  - pose proof (Q.min_spec r0 1) as Hm1. set (r := Qmin r0 1) in *. clearbody r.
    repeat split; nra.
Qed.

(** A scaled side is at least one pixel unless the image is so elongated
    that the side scales to one half of a pixel or less. *)
Lemma scaled_size_pos h w nh nw scaleup :
  0 < h -> 0 < w -> 0 < nh -> 0 < nw ->
  let scaled := scaled_size (h, w) (scale_ratio (h, w) (nh, nw) scaleup) in
  (0 < fst scaled <-> h < 2 * nh * w) /\ (0 < snd scaled <-> w < 2 * nw * h).
Proof.
  intros Hh Hw Hnh Hnw. unfold scaled_size. cbn [fst snd].
  rewrite !py_round_pos.
  assert (Hzh : h < 2 * nh * w <-> (inject_Z h < 2 * inject_Z nh * inject_Z w)%Q).
  { rewrite Zlt_Qlt, !inject_Z_mult. reflexivity. }
  assert (Hzw : w < 2 * nw * h <-> (inject_Z w < 2 * inject_Z nw * inject_Z h)%Q).
  { rewrite Zlt_Qlt, !inject_Z_mult. reflexivity. }
  rewrite Hzh, Hzw.
  assert (H1h : (1 <= inject_Z h)%Q) by (change 1%Q with (inject_Z 1); rewrite <- Zle_Qle; lia).
  assert (H1w : (1 <= inject_Z w)%Q) by (change 1%Q with (inject_Z 1); rewrite <- Zle_Qle; lia).
  assert (H1nh : (1 <= inject_Z nh)%Q) by (change 1%Q with (inject_Z 1); rewrite <- Zle_Qle; lia).
  assert (H1nw : (1 <= inject_Z nw)%Q) by (change 1%Q with (inject_Z 1); rewrite <- Zle_Qle; lia).
  unfold scale_ratio. cbn [fst snd].
  set (qh := (inject_Z nh / inject_Z h)%Q). set (qw := (inject_Z nw / inject_Z w)%Q).
  assert (Hqh : (inject_Z h * qh == inject_Z nh)%Q) by (unfold qh; field; lra).
  assert (Hqw : (inject_Z w * qw == inject_Z nw)%Q) by (unfold qw; field; lra).
  assert (Hqhp : (0 < qh)%Q) by nra.
  assert (Hqwp : (0 < qw)%Q) by nra.
  set (H := inject_Z h) in *. set (W := inject_Z w) in *.
  set (NH := inject_Z nh) in *. set (NW := inject_Z nw) in *.
  clearbody H W NH NW qh qw.
  assert (Ekh : (H < 2 * NH * W <-> 1 # 2 < W * qh)%Q).
  { split; intros; nra. }
  assert (Ekw : (W < 2 * NW * H <-> 1 # 2 < H * qw)%Q).
  { split; intros; nra. }
  rewrite Ekh, Ekw.
  pose proof (Q.min_spec qh qw) as Hm. set (r0 := Qmin qh qw) in *. clearbody r0.
  destruct scaleup.
  - destruct Hm as [[Hlt Hm] | [Hle Hm]]; rewrite Hm; split; split; intros; nra.
  - pose proof (Q.min_spec r0 1) as Hm1. set (r := Qmin r0 1) in *. clearbody r.
    destruct Hm1 as [[Hlt1 Hm1] | [Hle1 Hm1]]; rewrite Hm1.
    + destruct Hm as [[Hlt Hm] | [Hle Hm]]; rewrite Hm; split; split; intros; nra.
    + destruct Hm as [[Hlt Hm] | [Hle Hm]]; rewrite Hm in Hle1;
        split; split; intros; nra.
Qed.

End letterbox_scaling.

Section letterbox_theorems.
Local Open Scope Z_scope.


(** X3: with [scaleup] off the image is never enlarged: the size it is
    resized to does not exceed the size of the image, and the ratio does
    not exceed 1.  (The stretch mode [scaleFill] without [auto] does not
    read [scaleup] and is excluded.) *)
Theorem letterbox_no_upscale h w t auto scaleFill stride out :
  0 < h -> 0 < w -> 0 < fst (target_hw t) -> 0 < snd (target_hw t) ->
  auto = true \/ scaleFill = false ->
  letterbox (h, w) t auto scaleFill false stride = Ok out ->
  fst (lb_unpad out) <= w /\ snd (lb_unpad out) <= h /\
  (fst (lb_ratio out) <= 1 /\ snd (lb_ratio out) <= 1)%Q.
Proof.
  intros Hh Hw Hnh Hnw Hmode Hout. apply letterbox_meta_inv in Hout.
  destruct Hout as (_ & _ & Hu & Hr & _). rewrite Hu, Hr.
  unfold resize_target. destruct (target_hw t) as [nh nw]. cbn [fst snd] in *.
  destruct (scale_ratio_bounds h w nh nw false Hh Hw Hnh Hnw)
    as (Hpos & _ & _ & Hle & _).
  specialize (Hle eq_refl). set (r := scale_ratio _ _ _) in *.
  apply inject_Z_pos in Hh, Hw.
  assert (Hsw : fst (scaled_size (h, w) r) <= w)
    by (unfold scaled_size; cbn [fst snd]; apply py_round_le; nra).
  assert (Hsh : snd (scaled_size (h, w) r) <= h)
    by (unfold scaled_size; cbn [fst snd]; apply py_round_le; nra).
  destruct auto; [now repeat split |].
  destruct scaleFill; [destruct Hmode; discriminate | now repeat split].
Qed.

(** X4: with [scaleup] on the image is padded along at most one axis: the
    scaled image fills the target along the other, so the two borders of
    that axis are 0. *)
Theorem letterbox_pads_one_axis h w t auto scaleFill stride out :
  0 < h -> 0 < w -> 0 < fst (target_hw t) -> 0 < snd (target_hw t) ->
  letterbox (h, w) t auto scaleFill true stride = Ok out ->
  (lb_top out = 0 /\ lb_bottom out = 0) \/
  (lb_left out = 0 /\ lb_right out = 0).
Proof.
  intros Hh Hw Hnh Hnw Hout. apply letterbox_meta_inv in Hout.
  destruct Hout as (_ & _ & _ & _ & dw & dh & Hd & _ & Ht & Hb & Hl & Hr & _).
  destruct (target_hw t) as [nh nw]. cbn [fst snd] in *.
  destruct (scale_ratio_bounds h w nh nw true Hh Hw Hnh Hnw)
    as (_ & _ & _ & _ & Hfit).
  set (r := scale_ratio _ _ _) in *.
  assert (Hzero : dh = 0 \/ dw = 0).
  { assert (Hmod : forall s, np_mod 0 s = 0).
    { intros s. unfold np_mod. destruct (s =? 0); [reflexivity | apply Zmod_0_l]. }
    unfold scaled_size in Hd. cbn [fst snd] in Hd.
    destruct Hfit as [Hfit | [Hfit | [? _]]]; [| | discriminate].
    - left.
      assert (Hs : py_round (inject_Z h * r) = nh)
        by (rewrite Hfit; apply py_round_inject).
      rewrite Hs, Z.sub_diag in Hd.
      destruct auto; [| destruct scaleFill]; destruct Hd as [_ ->];
        [apply Hmod | reflexivity | reflexivity].
    - right.
      assert (Hs : py_round (inject_Z w * r) = nw)
        by (rewrite Hfit; apply py_round_inject).
      rewrite Hs, Z.sub_diag in Hd.
      destruct auto; [| destruct scaleFill]; destruct Hd as [-> _];
        [apply Hmod | reflexivity | reflexivity]. }
  destruct Hzero as [-> | ->]; [left | right]; split; assumption.
Qed.

(** [letterbox] returns in the stretch mode, and whenever no side scales
    to one half of a pixel or less. *)
Lemma letterbox_fits h w t auto scaleFill scaleup stride :
  0 < h -> 0 < w -> 0 < stride ->
  0 < fst (target_hw t) -> 0 < snd (target_hw t) ->
  auto = false /\ scaleFill = true \/
  h < 2 * fst (target_hw t) * w /\ w < 2 * snd (target_hw t) * h ->
  exists out, letterbox (h, w) t auto scaleFill scaleup stride = Ok out.
Proof.
  intros Hh Hw Hs Hnh Hnw.
  destruct (scaled_size_pos h w _ _ scaleup Hh Hw Hnh Hnw) as [Hpw Hph].
  intros [[-> ->] | [Hfh Hfw]].
  - unfold letterbox.
    destruct (target_hw t) as [nh nw] eqn:Et. cbn [fst snd] in *.
    destruct (Z.eqb_spec h 0); [lia |]. destruct (Z.eqb_spec w 0); [lia |].
    cbn [orb].
    destruct (cv_resize_ok w h (nw, nh) Hnw Hnh) as [im ->].
    cbn [mbind result_bind rbind]. unfold mbind, result_bind, rbind.
    now eexists.
  - apply letterbox_returns; try assumption.
    + now apply Hpw.
    + now apply Hph.
Qed.

(** Otherwise the resize to an empty size fails. *)
Lemma letterbox_unfit h w t auto scaleFill scaleup stride :
  0 < h -> 0 < w ->
  0 < fst (target_hw t) -> 0 < snd (target_hw t) ->
  ~ (auto = false /\ scaleFill = true \/
     h < 2 * fst (target_hw t) * w /\ w < 2 * snd (target_hw t) * h) ->
  letterbox (h, w) t auto scaleFill scaleup stride = Raise CvError.
Proof.
  intros Hh Hw Hnh Hnw Hnot.
  destruct (scaled_size_pos h w _ _ scaleup Hh Hw Hnh Hnw) as [Hpw Hph].
  assert (Hmode : auto = true \/ scaleFill = false).
  { destruct auto; [now left |]. destruct scaleFill; [| now right].
    exfalso. apply Hnot. now left. }
  assert (Hempty :
    ~ (0 < fst (scaled_size (h, w)
                  (scale_ratio (h, w) (fst (target_hw t), snd (target_hw t))
                               scaleup)) /\
       0 < snd (scaled_size (h, w)
                  (scale_ratio (h, w) (fst (target_hw t), snd (target_hw t))
                               scaleup)))).
  { rewrite Hpw, Hph. intros ?. apply Hnot. now right. }
  unfold letterbox.
  destruct (target_hw t) as [nh nw] eqn:Et. cbn [fst snd] in *.
  destruct (Z.eqb_spec h 0); [lia |]. destruct (Z.eqb_spec w 0); [lia |].
  cbn [orb]. set (scaled := scaled_size _ _) in *.
  assert (Hres : (if decide ((w, h) = scaled) then Ok (h, w)
                  else cv_resize scaled) = Raise CvError).
  { destruct (decide _) as [E | _].
    - exfalso. apply Hempty. rewrite <- E. now split.
    - unfold cv_resize.
      destruct (Z.ltb_spec 0 (fst scaled)), (Z.ltb_spec 0 (snd scaled));
        try reflexivity. exfalso. apply Hempty. now split. }
  destruct auto; [| destruct scaleFill; [destruct Hmode; discriminate |]];
    rewrite Hres; reflexivity.
Qed.

(** X5: for an image and a target of positive size (and a positive
    stride), [letterbox] returns exactly when no side scales to one half
    of a pixel or less, that is when [h < 2 nh w] and [w < 2 nw h]; the
    stretch mode ([scaleFill] without [auto]) always returns.  Otherwise
    the resize to an empty size fails.  An image with a side of 0 makes
    the ratio a division by zero. *)
Theorem letterbox_returns_iff h w t auto scaleFill scaleup stride :
  0 < h -> 0 < w -> 0 < stride ->
  let nh := fst (target_hw t) in
  let nw := snd (target_hw t) in
  0 < nh -> 0 < nw ->
  let fits := auto = false /\ scaleFill = true \/
              h < 2 * nh * w /\ w < 2 * nw * h in
  (fits -> exists out, letterbox (h, w) t auto scaleFill scaleup stride = Ok out) /\
  (~ fits -> letterbox (h, w) t auto scaleFill scaleup stride = Raise CvError) /\
  letterbox (0, w) t auto scaleFill scaleup stride = Raise ZeroDivisionError /\
  letterbox (h, 0) t auto scaleFill scaleup stride = Raise ZeroDivisionError.
Proof.
  intros Hh Hw Hs nh nw Hnh Hnw fits. split; [| split; [| split]].
  - now apply letterbox_fits.
  - now apply letterbox_unfit.
  - unfold letterbox. destruct (target_hw t). reflexivity.
  - unfold letterbox. destruct (target_hw t).
    now rewrite Z.eqb_refl, orb_true_r.
Qed.

(** X6: an image that already has the target size is neither resized nor
    padded: [letterbox] returns it with its size, borders of 0 and ratio
    1, in every mode. *)
Theorem letterbox_target_size_unchanged nh nw auto scaleFill scaleup stride :
  0 < nh -> 0 < nw -> 0 < stride ->
  exists out,
    letterbox (nh, nw) (HW nh nw) auto scaleFill scaleup stride = Ok out /\
    lb_unpad out = (nw, nh) /\
    lb_height out = nh /\ lb_width out = nw /\
    lb_top out = 0 /\ lb_bottom out = 0 /\ lb_left out = 0 /\ lb_right out = 0 /\
    (fst (lb_ratio out) == 1 /\ snd (lb_ratio out) == 1)%Q.
Proof.
  intros Hnh Hnw Hs.
  assert (Hr : (scale_ratio (nh, nw) (nh, nw) scaleup == 1)%Q).
  { apply inject_Z_pos in Hnh, Hnw. unfold scale_ratio. cbn [fst snd].
    assert (E1 : (inject_Z nh / inject_Z nh == 1)%Q) by (field; lra).
    assert (E2 : (inject_Z nw / inject_Z nw == 1)%Q) by (field; lra).
    pose proof (Q.min_spec (inject_Z nh / inject_Z nh) (inject_Z nw / inject_Z nw)) as Hm.
    set (r0 := Qmin _ _) in *. clearbody r0.
    destruct scaleup; [lra |].
    pose proof (Q.min_spec r0 1) as Hm1. set (r1 := Qmin _ _) in *. lra. }
  assert (Hsc : scaled_size (nh, nw) (scale_ratio (nh, nw) (nh, nw) scaleup) = (nw, nh)).
  { unfold scaled_size. cbn [fst snd]. rewrite Hr, !Qmult_1_r.
    now rewrite !py_round_inject. }
  destruct (letterbox_returns nh nw (HW nh nw) auto scaleFill scaleup stride)
    as [out Hout]; try assumption; cbn [target_hw fst snd];
    try (rewrite Hsc; cbn [fst snd]; assumption).
  exists out. split; [exact Hout |].
  pose proof Hout as Hmeta. apply letterbox_meta_inv in Hmeta.
  apply letterbox_inv in Hout.
  destruct Hout as (dw & dh & Hd & Ht & Hb & Hl & Hrt & Hht & Hwd).
  destruct Hmeta as (_ & _ & _ & Hratio & _).
  cbn [target_hw fst snd] in Hd, Hratio. rewrite Hsc in Hd. cbn [fst snd] in Hd.
  rewrite !Z.sub_diag in Hd.
  assert (Hmod : np_mod 0 stride = 0).
  { unfold np_mod. destruct (stride =? 0); [reflexivity | apply Zmod_0_l]. }
  rewrite Hmod in Hd.
  assert (Hz : dw = 0 /\ dh = 0 /\ lb_unpad out = (nw, nh)).
  { destruct auto; [| destruct scaleFill]; destruct Hd as (-> & -> & ->); done. }
  destruct Hz as (-> & -> & Hu). rewrite Hu in Hht, Hwd. cbn [fst snd] in Hht, Hwd.
  change (py_round (inject_Z 0 / 2 - (1 # 10))%Q) with 0 in Ht, Hl.
  change (py_round (inject_Z 0 / 2 + (1 # 10))%Q) with 0 in Hb, Hrt.
  rewrite Ht, Hb in Hht. rewrite Hl, Hrt in Hwd.
  repeat (split; [first [assumption | lia] |]).
  rewrite Hratio.
  apply inject_Z_pos in Hnh, Hnw.
  destruct auto; [| destruct scaleFill]; cbn [fst snd]; split;
    first [exact Hr | field; lra].
Qed.

End letterbox_theorems.

(** ** Further properties of [xywh2xyxy] and [box_iou] *)

Section iou_matrix_more.
Local Open Scope Q_scope.

(** X8: the matrix of [box_iou] has one row for each box of [box1] and
    one column for each box of [box2], and no entry is an infinity,
    whatever the boxes: a positive intersection needs two boxes of
    positive area, and the union is then positive. *)
Theorem box_iou_never_infinite box1 box2 :
  length (box_iou box1 box2) = length box1 /\
  Forall (fun row => length row = length box2 /\ Forall not_infinite row)
         (box_iou box1 box2).
Proof.
  unfold box_iou. split; [apply length_fmap |].
  rewrite Forall_fmap. apply Forall_forall. intros a _. simpl.
  split; [apply length_fmap |].
  rewrite Forall_fmap. apply Forall_forall. intros b _. simpl.
  unfold not_infinite. destruct (iou a b) as [q | s |] eqn:E; try exact I.
  now apply iou_not_inf in E.
Qed.

End iou_matrix_more.

(** ** The label rows *)

Section label_facts.
Local Open Scope Z_scope.

(** X12: a label whose class [k] (truncated to an integer) is a class of
    the tensor gives a row with the box of the label, objectness 1 and
    class score 1 for [k], 0 for the other classes; the row cannot be
    built (the index [k + 5] is out of range) exactly when [k >= nc] or
    [k < -nc - 10]. *)
Theorem label_row_class nc l :
  let k := long (l_cls l) in
  (0 <= k < Z.of_nat nc ->
   label_row nc l =
   Ok (Anchor (l_x l) (l_y l) (l_w l) (l_h l) 1%Q
              (<[Z.to_nat k:=1%Q]> (replicate nc 0%Q)))) /\
  (label_row nc l = Raise IndexError <->
   Z.of_nat nc <= k \/ k < - Z.of_nat nc - 10).
Proof.
  intros k. unfold label_row, wrap_index. fold k. split.
  - intros Hk.
    destruct (Z.ltb_spec (k + 5) (- Z.of_nat (nc + 5))); [lia |].
    destruct (Z.leb_spec (Z.of_nat (nc + 5)) (k + 5)); [lia |].
    destruct (Z.ltb_spec (k + 5) 0); [lia |].
    cbn [orb mbind result_bind rbind].
    replace (Z.to_nat (k + 5)) with (S (S (S (S (S (Z.to_nat k)))))) by lia.
    reflexivity.
  - destruct (Z.ltb_spec (k + 5) (- Z.of_nat (nc + 5))) as [H1 | H1];
      [split; [intros _; lia | reflexivity] |].
    destruct (Z.leb_spec (Z.of_nat (nc + 5)) (k + 5)) as [H2 | H2];
      [split; [intros _; lia | reflexivity] |].
    cbn [orb]. destruct (Z.ltb_spec (k + 5) 0);
      (split; [discriminate | lia]).
Qed.

End label_facts.

(** ** Further properties of the "Batched NMS" step *)

Section kernel_more.
Local Open Scope Q_scope.
Variable boxes : list box.
Variable thr : Q.


(** The overlaps that the kernel reads decide what it keeps. *)
Lemma suppress_from_ext boxes' thr' i rest s :
  (forall j, j ∈ rest -> overlaps boxes' thr' i j = overlaps boxes thr i j) ->
  suppress_from boxes' thr' i rest s = suppress_from boxes thr i rest s.
Proof.
  unfold suppress_from. revert s.
  induction rest as [| j rest IH]; intros s Hov; simpl; [reflexivity |].
  rewrite (Hov j) by apply list_elem_of_here.
  apply IH. intros k Hk. apply Hov. now apply list_elem_of_further.
Qed.

Lemma nms_loop_ext boxes' thr' order s :
  (forall i j, i ∈ order -> j ∈ order ->
     overlaps boxes' thr' i j = overlaps boxes thr i j) ->
  nms_loop boxes' thr' order s = nms_loop boxes thr order s.
Proof.
  revert s. induction order as [| i rest IH]; intros s Hov; simpl; [reflexivity |].
  assert (Hrest : forall i j, i ∈ rest -> j ∈ rest ->
            overlaps boxes' thr' i j = overlaps boxes thr i j).
  { intros i' j' Hi' Hj'. apply Hov; now apply list_elem_of_further. }
  destruct (suppressed_at s i); [now apply IH |].
  rewrite (suppress_from_ext boxes' thr').
  - f_equal. now apply IH.
  - intros j Hj. apply Hov; [apply list_elem_of_here | now apply list_elem_of_further].
Qed.

End kernel_more.

Section rows_more.
Context {A : Type}.
Implicit Types (x : list A) (i : list nat).

Lemma rows_omap x i l : rows x i = Ok l -> l = omap (fun k => x !! k) i.
Proof.
  revert l. induction i as [| k i IH]; simpl; intros l.
  - now intros [= <-].
  - destruct (x !! k) as [r |] eqn:Ek; [| discriminate].
    destruct (rows x i) as [rs |]; [| discriminate].
    cbn [mbind result_bind rbind]. intros [= <-].
    cbn [omap list_omap]. f_equal. now apply IH.
Qed.

Lemma omap_lookup_seq x : omap (fun k => x !! k) (seq 0 (length x)) = x.
Proof.
  pose proof (rows_seq x) as H. apply rows_omap in H. now symmetry.
Qed.

Lemma omap_submseteq_mono {B} (f : B -> option A) (l k : list B) :
  l ⊆+ k -> omap f l ⊆+ omap f k.
Proof.
  induction 1 as [| b l k _ IH | b c l | b l k _ IH | l k m _ IH1 _ IH2];
    cbn [omap list_omap].
  - constructor.
  - destruct (f b); [now constructor | exact IH].
  - destruct (f b), (f c); try reflexivity. apply submseteq_swap.
  - destruct (f b); [now constructor | exact IH].
  - now trans (omap f k).
Qed.

(** The rows at a list of distinct indices, each taken once. *)
Lemma rows_submseteq x i l : NoDup i -> rows x i = Ok l -> l ⊆+ x.
Proof.
  intros Hnd Hl. pose proof (rows_spec _ _ _ Hl) as HF.
  apply rows_omap in Hl. subst l.
  trans (omap (fun k => x !! k) (seq 0 (length x)));
    [| now rewrite omap_lookup_seq].
  apply omap_submseteq_mono, NoDup_submseteq; [exact Hnd |].
  intros k Hk. apply elem_of_seq. split; [lia |]. simpl.
  apply list_elem_of_lookup_1 in Hk as [p Hp].
  destruct (Forall2_lookup_l _ _ _ _ _ HF Hp) as (r & _ & Hr).
  now apply lookup_lt_Some in Hr.
Qed.


Lemma rows_take x i l n :
  rows x i = Ok l -> rows x (take n i) = Ok (take n l).
Proof.
  revert l n. induction i as [| k i IH]; simpl; intros l n.
  - intros [= <-]. now rewrite !take_nil.
  - destruct (x !! k) as [r |] eqn:Ek; [| discriminate].
    destruct (rows x i) as [rs |] eqn:Ers; [| discriminate].
    cbn [mbind result_bind rbind]. intros [= <-].
    destruct n as [| n]; simpl; [reflexivity |].
    rewrite Ek. now rewrite (IH rs n eq_refl).
Qed.

End rows_more.

Section batched_more.
Local Open Scope Q_scope.
Variable x : list det.
Variable agnostic : bool.
Variable thr : Q.

Lemma nms_keep_NoDup : NoDup (nms_keep x agnostic thr).
Proof. apply nms_NoDup. Qed.



(** The row of the highest confidence heads the order of the sort and is
    kept. *)
Lemma nms_keep_head :
  x <> [] ->
  exists i keep d,
    nms_keep x agnostic thr = i :: keep /\ x !! i = Some d /\
    Forall (fun e => d_conf e <= d_conf d) x.
Proof.
  intros Hne. unfold nms_keep, nms.
  destruct (argsort_desc (d_conf <$> x)) as [| i rest] eqn:Eo.
  { apply (f_equal length) in Eo. rewrite argsort_desc_length, length_fmap in Eo.
    destruct x; [done | discriminate]. }
  cbn [nms_loop]. rewrite suppressed_at_replicate.
  assert (Hi : (i < length x)%nat).
  { rewrite <- (length_fmap d_conf). apply argsort_desc_lt. rewrite Eo.
    apply list_elem_of_here. }
  destruct (lookup_lt_is_Some_2 _ _ Hi) as [d Hd].
  eexists i, _, d. split; [reflexivity |]. split; [exact Hd |].
  pose proof (argsort_desc_sorted (d_conf <$> x)) as Hs. rewrite Eo in Hs.
  apply StronglySorted_inv in Hs as [_ Hhd]. rewrite Forall_forall in Hhd.
  rewrite Forall_forall. intros e He.
  apply list_elem_of_lookup_1 in He as [j Hj].
  assert (Hin : j ∈ i :: rest).
  { rewrite <- Eo. apply argsort_desc_lt. rewrite length_fmap.
    now apply lookup_lt_Some in Hj. }
  apply elem_of_cons in Hin as [-> | Hin].
  - rewrite Hd in Hj. injection Hj as ->. apply Qle_refl.
  - destruct (Hhd j Hin) as (si & sj & Hsi & Hsj & Hle).
    rewrite list_lookup_fmap in Hsi, Hsj. rewrite Hd in Hsi. rewrite Hj in Hsj.
    simpl in Hsi, Hsj. injection Hsi as <-. injection Hsj as <-. exact Hle.
Qed.



(** With [max_det >= 1] the head of the kept indices heads the
    result. *)
Lemma batched_nms_head max_det i keep d :
  (1 <= max_det)%Z ->
  nms_keep x agnostic thr = i :: keep -> x !! i = Some d ->
  exists out, batched_nms x agnostic thr max_det = Ok (d :: out).
Proof.
  intros Hmax Hk Hd.
  destruct (batched_nms_ok x agnostic thr max_det) as [out Hout].
  pose proof (batched_nms_rows _ _ _ _ _ Hout) as HF.
  rewrite Hk in HF.
  assert (Hlim : exists keep', limit_det max_det (i :: keep) = i :: keep').
  { unfold limit_det. destruct (_ <? _)%Z; [| now eexists].
    unfold py_take. rewrite (proj2 (Z.leb_le 0 max_det)) by lia.
    destruct (Z.to_nat max_det) as [| n] eqn:En; [lia |]. now eexists. }
  destruct Hlim as [keep' Hlim]. rewrite Hlim in HF.
  apply Forall2_cons_inv_l in HF as (d' & out' & Hd' & _ & ->).
  rewrite Hd in Hd'. injection Hd' as <-. now exists out'.
Qed.

End batched_more.

Section batched_theorems.
Local Open Scope Q_scope.

(** X13: the "Batched NMS" step only removes rows: the rows it returns
    are a sub-multiset of its candidates, so no candidate is returned
    twice and no row is made up. *)
Theorem batched_nms_submseteq x agnostic thr max_det out :
  batched_nms x agnostic thr max_det = Ok out -> out ⊆+ x.
Proof.
  apply rows_submseteq.
  eapply sublist_NoDup; [apply nms_keep_NoDup | apply limit_det_sublist].
Qed.


(** X15: the candidate of the highest confidence is never suppressed: for
    a non-empty list of candidates and [max_det >= 1] the "Batched NMS"
    step returns a non-empty list, headed by a row whose confidence no
    candidate exceeds. *)
Theorem batched_nms_keeps_best x agnostic thr max_det :
  x <> [] -> (1 <= max_det)%Z ->
  exists d out,
    batched_nms x agnostic thr max_det = Ok (d :: out) /\ d ∈ x /\
    Forall (fun e => d_conf e <= d_conf d) x.
Proof.
  intros Hne Hmax.
  destruct (nms_keep_head x agnostic thr Hne) as (i & keep & d & Hk & Hd & Hbest).
  destruct (batched_nms_head x agnostic thr max_det i keep d Hmax Hk Hd)
    as [out Hout].
  exists d, out. split; [exact Hout |].
  split; [now apply list_elem_of_lookup_2 in Hd | exact Hbest].
Qed.



(** The class offset is the same for all rows of one class, so it does
    not change what [nms] keeps among them. *)
Lemma nms_keep_one_class x k thr :
  Forall (fun d => d_cls d = k) x ->
  nms_keep x false thr = nms_keep x true thr.
Proof.
  intros Hk. unfold nms_keep, nms. rewrite !length_fmap.
  apply nms_loop_ext. intros i j _ _. unfold overlaps.
  rewrite !list_lookup_fmap.
  destruct (x !! i) as [a |] eqn:Ha; [| reflexivity].
  destruct (x !! j) as [b |] eqn:Hb; [| reflexivity]. simpl.
  rewrite Forall_forall in Hk.
  assert (Hc : d_cls a = d_cls b).
  { rewrite (Hk a), (Hk b); [reflexivity | |];
      eapply list_elem_of_lookup_2; eassumption. }
  now rewrite !offset_same_class.
Qed.

End batched_theorems.

(** ** Further properties of [non_max_suppression] *)

Section row_max_more.
Local Open Scope Q_scope.



End row_max_more.

Section selection_more.
Local Open Scope Q_scope.
Variable conf_thres : Q.





End selection_more.

Section loop_body_more.
Variable nc : nat.
Variables conf_thres iou_thres : Q.
Variable classes : option (list Z).
Variables agnostic multi_label : bool.
Variable labels : list (list label).
Variable max_det : Z.




End loop_body_more.

Section image_loop_map.
Variables nc nc' : nat.
Variables conf_thres conf_thres' iou_thres iou_thres' : Q.
Variables classes classes' : option (list Z).
Variables agnostic agnostic' multi_label multi_label' : bool.
Variables labels labels' : list (list label).
Variables max_det max_det' : Z.
Variable f : list det -> list det.
Variables xc xc' : list (list bool).

(** Two runs of the loop whose bodies agree, image by image, up to a
    function [f] on the detections of an image, agree up to [f]. *)
Lemma image_loop_map (images images' : list (list anchor)) (xi : nat)
    (output : list (list det)) :
  length images' = length images ->
  (forall j x x', images !! j = Some x -> images' !! j = Some x' ->
     per_image nc' conf_thres' iou_thres' classes' agnostic' multi_label'
               labels' max_det' (xi + j) x' (xc' !!! (xi + j)) =
     rbind (per_image nc conf_thres iou_thres classes agnostic multi_label
                      labels max_det (xi + j) x (xc !!! (xi + j)))
           (fun r => Ok (fmap (M:=option) f r))) ->
  image_loop nc' conf_thres' iou_thres' classes' agnostic' multi_label'
             labels' max_det' xi images' xc' (fmap (M:=list) f output) =
  rbind (image_loop nc conf_thres iou_thres classes agnostic multi_label
                    labels max_det xi images xc output)
        (fun out => Ok (fmap (M:=list) f out)).
Proof.
  revert images' xi output.
  induction images as [| x images IH]; intros [| x' images'] xi output Hlen Hbody;
    try discriminate; cbn [image_loop].
  - reflexivity.
  - pose proof (Hbody 0 x x' eq_refl eq_refl) as H0.
    rewrite Nat.add_0_r in H0. rewrite H0.
    destruct (per_image nc _ _ _ _ _ _ _ xi x _) as [r | e];
      cbn [mbind result_bind rbind]; [| reflexivity].
    assert (Hout : match f <$> r with
                   | Some dets => <[xi:=dets]> (f <$> output)
                   | None => f <$> output
                   end =
                   f <$> match r with
                         | Some dets => <[xi:=dets]> output
                         | None => output
                         end).
    { destruct r; simpl; [now rewrite list_fmap_insert | reflexivity]. }
    rewrite Hout. apply IH.
    + simpl in Hlen. lia.
    + intros j y y' Hy Hy'. replace (S xi + j) with (xi + S j) by lia.
      now apply (Hbody (S j)).
Qed.

End image_loop_map.

Section loop_ext.
Variable nc : nat.
Variables conf_thres iou_thres : Q.
Variable classes : option (list Z).
Variables agnostic agnostic' multi_label : bool.
Variable labels : list (list label).
Variables max_det max_det' : Z.
Variables xc xc' : list (list bool).

(** Two runs of the loop whose bodies agree image by image agree. *)
Lemma image_loop_ext (images images' : list (list anchor)) (xi : nat)
    (output : list (list det)) :
  length images' = length images ->
  (forall j x x', images !! j = Some x -> images' !! j = Some x' ->
     per_image nc conf_thres iou_thres classes agnostic' multi_label labels
               max_det' (xi + j) x' (xc' !!! (xi + j)) =
     per_image nc conf_thres iou_thres classes agnostic multi_label labels
               max_det (xi + j) x (xc !!! (xi + j))) ->
  image_loop nc conf_thres iou_thres classes agnostic' multi_label labels
             max_det' xi images' xc' output =
  image_loop nc conf_thres iou_thres classes agnostic multi_label labels
             max_det xi images xc output.
Proof.
  intros Hlen Hbody.
  rewrite <- (list_fmap_id output) at 1.
  rewrite (image_loop_map nc nc conf_thres conf_thres iou_thres iou_thres
             classes classes agnostic agnostic' multi_label multi_label
             labels labels max_det max_det' id xc xc' images images' xi output
             Hlen).
  - destruct (image_loop _ _ _ _ agnostic _ _ _ _ _ _ _) as [out | e];
      [| reflexivity].
    simpl. now rewrite list_fmap_id.
  - intros j x x' Hx Hx'. rewrite (Hbody j x x' Hx Hx').
    destruct (per_image _ _ _ _ _ _ _ _ _ _ _) as [[r |] | e]; reflexivity.
Qed.

End loop_ext.

(** [labels[xi]] beyond the end of a non-empty [labels] is out of
    range. *)
Lemma label_rows_short nc (labels : list (list label)) xi :
  labels <> [] -> length labels <= xi ->
  label_rows nc labels xi = Raise IndexError.
Proof.
  intros Hne Hxi. unfold label_rows. destruct labels as [| l0 ls]; [done |].
  now rewrite lookup_ge_None_2.
Qed.

Section nms_more.
Variable p : prediction.
Variables conf_thres iou_thres : Q.
Variable classes : option (list Z).
Variables agnostic multi_label : bool.
Variable labels : list (list label).
Variable max_det : Z.

Local Abbreviation multi := (multi_label && (1 <? p_nc p)).

(** X17: the images of a batch are processed independently: without
    apriori labels, the result has one list of detections for each image,
    and the list of an image is the one that [non_max_suppression]
    returns for the batch that holds this image alone. *)
Theorem nms_image_by_image out :
  non_max_suppression p conf_thres iou_thres classes agnostic multi_label
                      [] max_det = Ok out ->
  length out = length (p_images p) /\
  forall xi x, p_images p !! xi = Some x ->
    exists dets,
      out !! xi = Some dets /\
      non_max_suppression (Prediction (p_nc p) [x]) conf_thres iou_thres
                          classes agnostic multi_label [] max_det = Ok [dets].
Proof.
  intros (Hc & Hi & Hlen & Himg)%nms_spec. split; [exact Hlen |].
  intros xi x Hx. destruct (Himg xi x Hx) as (r & Hr & Hout).
  exists (default [] r). split; [exact Hout |].
  unfold non_max_suppression. rewrite Hc, Hi.
  cbn [assert mbind result_bind rbind p_nc p_images image_loop fmap list_fmap
       length replicate].
  change ([objectness_mask conf_thres x] !!! 0) with (objectness_mask conf_thres x).
  assert (Hsame : forall k,
    per_image (p_nc p) conf_thres iou_thres classes agnostic multi [] max_det
              k x (objectness_mask conf_thres x) =
    per_image (p_nc p) conf_thres iou_thres classes agnostic multi [] max_det
              xi x (objectness_mask conf_thres x)) by reflexivity.
  rewrite (Hsame 0), Hr. cbn [mbind result_bind rbind].
  now destruct r.
Qed.



(** X20: whatever [max_det] is, an image never gets more than
    [max_nms = 30000] detections: this many rows at most are handed to
    [nms]. *)
Theorem nms_at_most_max_nms out xi dets :
  non_max_suppression p conf_thres iou_thres classes agnostic multi_label
                      labels max_det = Ok out ->
  out !! xi = Some dets ->
  (Z.of_nat (length dets) <= 30000)%Z.
Proof.
  intros (_ & _ & Hlen & Himg)%nms_spec Hd.
  assert (Hxi : xi < length (p_images p))
    by (rewrite <- Hlen; now apply lookup_lt_Some in Hd).
  destruct (lookup_lt_is_Some_2 _ _ Hxi) as [x Hx].
  destruct (Himg xi x Hx) as (r & Hr & Hout).
  rewrite Hd in Hout. injection Hout as ->.
  destruct r as [dets |]; simpl; [| lia].
  apply per_image_inv in Hr
    as (c & _ & sel & x1 & _ & _ & _ & _ & Hxlen & Hb).
  apply batched_nms_length_le in Hb. unfold max_nms in Hxlen. lia.
Qed.

(** X21: a non-empty [labels] with fewer entries than the batch has
    images makes the function fail: [labels[xi]] is out of range at the
    first image without an entry (if no earlier failure stops the
    loop). *)
Theorem nms_short_labels_fail :
  labels <> [] -> length labels < length (p_images p) ->
  exists e,
    non_max_suppression p conf_thres iou_thres classes agnostic multi_label
                        labels max_det = Raise e.
Proof.
  intros Hne Hshort.
  destruct (non_max_suppression _ _ _ _ _ _ _ _) as [out | e] eqn:E;
    [| now exists e].
  exfalso. apply nms_spec in E as (_ & _ & _ & Himg).
  destruct (lookup_lt_is_Some_2 _ _ Hshort) as [x Hx].
  destruct (Himg _ x Hx) as (r & Hr & _).
  apply per_image_inv in Hr as (c & Hc & _).
  unfold candidates in Hc.
  rewrite label_rows_short in Hc by (assumption || lia). discriminate.
Qed.


End nms_more.

Section gate_facts.
Variable conf_thres : Q.

Lemma gate_rows_idemp x :
  gate_rows conf_thres (gate_rows conf_thres x) = gate_rows conf_thres x.
Proof.
  unfold gate_rows. induction x as [| a x IH]; [reflexivity |].
  destruct (Qltb conf_thres (a_obj a)) eqn:E.
  - rewrite (filter_cons_True _ a x) by exact E.
    rewrite filter_cons_True by exact E. now f_equal.
  - rewrite (filter_cons_False _ a x) by congruence. exact IH.
Qed.

Lemma candidates_gate_rows nc labels xi x :
  candidates nc labels xi (gate_rows conf_thres x)
             (objectness_mask conf_thres (gate_rows conf_thres x)) =
  candidates nc labels xi x (objectness_mask conf_thres x).
Proof.
  unfold candidates, objectness_mask. rewrite !mask_index_fmap.
  fold (gate_rows conf_thres (gate_rows conf_thres x)).
  fold (gate_rows conf_thres x). now rewrite gate_rows_idemp.
Qed.

End gate_facts.

Section max_det_facts.
Variable x : list det.
Variable agnostic : bool.
Variable iou_thres : Q.

Lemma limit_det_take m (i : list nat) :
  (0 <= m)%Z -> limit_det m i = take (Z.to_nat m) i.
Proof.
  intros Hm. unfold limit_det, py_take.
  destruct (Z.ltb_spec m (Z.of_nat (length i))).
  - now rewrite (proj2 (Z.leb_le 0 m)).
  - symmetry. apply take_ge. lia.
Qed.

(** A smaller [max_det] cuts the result of a larger one. *)
Lemma batched_nms_max_det m m' out' :
  (0 <= m <= m')%Z ->
  batched_nms x agnostic iou_thres m' = Ok out' ->
  batched_nms x agnostic iou_thres m = Ok (take (Z.to_nat m) out').
Proof.
  intros Hm. unfold batched_nms. rewrite !limit_det_take by lia.
  intros Hout. apply (rows_take _ _ _ (Z.to_nat m)) in Hout.
  rewrite take_take in Hout.
  now replace (Z.to_nat m `min` Z.to_nat m') with (Z.to_nat m) in Hout by lia.
Qed.

End max_det_facts.

Section one_class_facts.
Variables conf_thres iou_thres : Q.
Variable classes : option (list Z).
Variable multi_label : bool.
Variable max_det : Z.

Lemma batched_nms_one_class x k :
  Forall (fun d => d_cls d = k) x ->
  batched_nms x false iou_thres max_det = batched_nms x true iou_thres max_det.
Proof.
  intros Hk. unfold batched_nms. now rewrite (nms_keep_one_class x k).
Qed.

(** Rows with at most one class score give detections of class 0
    only, so the class offset has no effect on them. *)
Lemma detect_one_class x0 :
  Forall (fun a => length (a_cls a) <= 1) x0 ->
  detect conf_thres iou_thres classes false multi_label max_det x0 =
  detect conf_thres iou_thres classes true multi_label max_det x0.
Proof.
  intros Hx0. unfold detect.
  destruct (select conf_thres multi_label x0) as [sel |] eqn:Esel;
    [| reflexivity].
  cbn [mbind result_bind rbind].
  assert (Hsel : Forall (fun d => d_cls d = 0) (filter_classes classes sel)).
  { apply select_spec in Esel.
    pose proof (proj1 (Forall_forall _ _) Hx0) as Hx.
    pose proof (proj1 (Forall_forall _ _) Esel) as Hs.
    apply Forall_forall. intros d Hd.
    apply filter_classes_spec in Hd as [_ Hd].
    destruct (Hs d Hd) as (a & Ha & _ & Hscore & _).
    apply lookup_lt_Some in Hscore. specialize (Hx a Ha). simpl in Hx. lia. }
  set (x1 := filter_classes classes sel) in *.
  destruct (decide (length x1 = 0)); [reflexivity |].
  destruct (max_nms <? Z.of_nat (length x1))%Z.
  - destruct (rows x1 _) as [x |] eqn:Ex; [| reflexivity].
    cbn [mbind result_bind rbind].
    rewrite (batched_nms_one_class x 0); [reflexivity |].
    apply rows_spec in Ex.
    pose proof (proj1 (Forall_forall _ _) Hsel) as Hs.
    apply Forall_forall. intros d Hd.
    apply list_elem_of_lookup_1 in Hd as [q Hq].
    destruct (Forall2_lookup_r _ _ _ _ _ Ex Hq) as (k & _ & Hk).
    apply Hs. now apply list_elem_of_lookup_2 in Hk.
  - cbn [mbind result_bind rbind].
    now rewrite (batched_nms_one_class x1 0).
Qed.

End one_class_facts.

Section nms_settings.
Variable p : prediction.
Variables conf_thres iou_thres : Q.
Variable classes : option (list Z).
Variables agnostic multi_label : bool.
Variable labels : list (list label).

Local Abbreviation multi := (multi_label && (1 <? p_nc p)).

(** X23: the rows that the objectness gate drops have no effect: the
    function gives the same result, or fails in the same way, on the
    tensor without them. *)
Theorem nms_gated_rows_irrelevant max_det :
  non_max_suppression (gated conf_thres p) conf_thres iou_thres classes
                      agnostic multi_label labels max_det =
  non_max_suppression p conf_thres iou_thres classes agnostic multi_label
                      labels max_det.
Proof.
  unfold non_max_suppression. cbn [gated p_nc p_images].
  destruct (assert (valid_thres conf_thres) _); [| reflexivity].
  destruct (assert (valid_thres iou_thres) _); [| reflexivity].
  cbn [mbind result_bind rbind]. rewrite length_fmap.
  apply image_loop_ext; [apply length_fmap |].
  intros j x x' Hx Hx'. simpl.
  rewrite list_lookup_fmap, Hx in Hx'. injection Hx' as <-.
  rewrite (list_lookup_total_correct
             (objectness_mask conf_thres <$> p_images p)
             j (objectness_mask conf_thres x))
    by (now rewrite list_lookup_fmap, Hx).
  rewrite (list_lookup_total_correct
             (objectness_mask conf_thres <$> (gate_rows conf_thres <$> p_images p))
             j (objectness_mask conf_thres (gate_rows conf_thres x)))
    by (now rewrite !list_lookup_fmap, Hx).
  unfold per_image. now rewrite candidates_gate_rows.
Qed.

(** X24: [max_det] only cuts the ranked list of an image: for
    [0 <= m <= m'], the result with [max_det = m] is the result with
    [max_det = m'] with every image cut to its first [m] detections. *)
Theorem nms_max_det_prefix m m' out' :
  (0 <= m <= m')%Z ->
  non_max_suppression p conf_thres iou_thres classes agnostic multi_label
                      labels m' = Ok out' ->
  non_max_suppression p conf_thres iou_thres classes agnostic multi_label
                      labels m = Ok (first_dets (Z.to_nat m) out').
Proof.
  intros Hm. unfold non_max_suppression.
  destruct (assert (valid_thres conf_thres) _); [| discriminate].
  destruct (assert (valid_thres iou_thres) _); [| discriminate].
  cbn [mbind result_bind rbind]. intros Hout.
  assert (Hinit : replicate (length (p_images p)) ([] : list det) =
                  fmap (M:=list) (take (Z.to_nat m))
                       (replicate (length (p_images p)) [])).
  { rewrite fmap_replicate. now rewrite take_nil. }
  rewrite Hinit at 1.
  rewrite (image_loop_map (p_nc p) (p_nc p) conf_thres conf_thres
             iou_thres iou_thres classes classes agnostic agnostic
             multi multi labels labels m' m (take (Z.to_nat m))
             (objectness_mask conf_thres <$> p_images p)
             (objectness_mask conf_thres <$> p_images p)
             (p_images p) (p_images p) 0 _ eq_refl).
  - now rewrite Hout.
  - intros j x x' Hx Hx'. rewrite Hx in Hx'. injection Hx' as <-.
    unfold per_image.
    destruct (candidates _ _ _ _ _) as [c0 | e0]; [| reflexivity].
    cbn [mbind result_bind rbind]. destruct c0 as [| r0 c0]; [reflexivity |].
    cbn [mbind result_bind rbind]. unfold detect.
    destruct (select _ _ _) as [sel | e1]; [| reflexivity].
    cbn [mbind result_bind rbind].
    destruct (decide _); [reflexivity |].
    destruct (if (max_nms <? _)%Z then _ else _) as [x1 | e2]; [| reflexivity].
    cbn [mbind result_bind rbind].
    destruct (batched_nms_ok x1 agnostic iou_thres m') as [o Ho].
    rewrite Ho, (batched_nms_max_det x1 agnostic iou_thres m m' o Hm Ho).
    reflexivity.
Qed.

(** X25: on a tensor with a single class (or none) the flag [agnostic]
    has no effect: every detection has class 0, so the class offset moves
    all boxes alike. *)
Theorem nms_single_class_agnostic max_det :
  well_shaped p -> p_nc p <= 1 ->
  non_max_suppression p conf_thres iou_thres classes false multi_label
                      labels max_det =
  non_max_suppression p conf_thres iou_thres classes true multi_label
                      labels max_det.
Proof.
  intros Hshape Hnc. unfold non_max_suppression.
  destruct (assert (valid_thres conf_thres) _); [| reflexivity].
  destruct (assert (valid_thres iou_thres) _); [| reflexivity].
  cbn [mbind result_bind rbind].
  apply image_loop_ext; [reflexivity |].
  intros j x x' Hx Hx'. rewrite Hx in Hx'. injection Hx' as <-. simpl.
  rewrite (list_lookup_total_correct _ j (objectness_mask conf_thres x))
    by (now rewrite list_lookup_fmap, Hx).
  unfold per_image.
  destruct (candidates _ _ _ _ _) as [c | e] eqn:Ec; [| reflexivity].
  cbn [mbind result_bind rbind]. destruct c as [| r0 c]; [reflexivity |].
  apply detect_one_class.
  assert (Hlen : Forall (fun a => length (a_cls a) = p_nc p) (r0 :: c)).
  { eapply candidates_cls_length; [| exact Ec].
    unfold well_shaped in Hshape. rewrite Forall_forall in Hshape.
    apply Hshape. now apply list_elem_of_lookup_2 in Hx. }
  rewrite Forall_fmap. eapply Forall_impl; [exact Hlen |].
  intros b Hb. unfold compose. rewrite fuse_cls_length. simpl in Hb. lia.
Qed.

End nms_settings.

Section completeness.
Local Open Scope Q_scope.
Variable p : prediction.
Variables conf_thres iou_thres : Q.
Variable classes : option (list Z).
Variables agnostic multi_label : bool.
Variable max_det : Z.

Local Abbreviation multi := (multi_label && (1 <? p_nc p)%nat).



End completeness.

Section selection_multi.
Local Open Scope Q_scope.
Variable conf_thres : Q.




End selection_multi.

Section class_filter_more.
Local Open Scope Q_scope.
Variable p : prediction.
Variables conf_thres iou_thres : Q.
Variables agnostic multi_label : bool.
Variable labels : list (list label).
Variable max_det : Z.

Local Abbreviation multi := (multi_label && (1 <? p_nc p)%nat).

(** X27: when no entry of the filter [classes] is a class of the tensor,
    the empty filter among them, no image has a detection. *)
Theorem nms_filter_without_class cl out :
  well_shaped p ->
  Forall (fun c => (c < 0 \/ Z.of_nat (p_nc p) <= c)%Z) cl ->
  non_max_suppression p conf_thres iou_thres (Some cl) agnostic multi_label
                      labels max_det = Ok out ->
  Forall (fun dets => dets = []) out.
Proof.
  intros Hshape Hcl Hout. rewrite Forall_forall. intros dets Hd.
  apply list_elem_of_lookup_1 in Hd as [xi Hxi].
  destruct (nms_image_facts _ _ _ _ _ _ _ _ _ _ _ Hout Hshape Hxi) as (Hf & _).
  destruct dets as [| d dets]; [reflexivity |]. exfalso.
  apply Forall_cons in Hf as [(_ & Hlt & Hall) _].
  unfold class_allowed in Hall.
  apply existsb_exists in Hall as (c & Hin & Heq).
  apply list_elem_of_In in Hin. apply Z.eqb_eq in Heq.
  rewrite Forall_forall in Hcl. specialize (Hcl c Hin). lia.
Qed.


End class_filter_more.

(** ** The route [predict] *)

Section predict_facts.
Local Open Scope Z_scope.

(** Without auto mode the returned image has the target size. *)
Lemma letterbox_exact h w t scaleFill scaleup stride out :
  letterbox (h, w) t false scaleFill scaleup stride = Ok out ->
  lb_height out = fst (target_hw t) /\ lb_width out = snd (target_hw t).
Proof.
  intros Hout. apply letterbox_inv in Hout.
  destruct Hout as (dw & dh & Hpad & Ht & Hb & Hl & Hr & Hht & Hwd).
  destruct (border_split dw) as [[Hsw _] _].
  destruct (border_split dh) as [[Hsh _] _].
  rewrite <- Ht, <- Hb in Hsh. rewrite <- Hl, <- Hr in Hsw.
  destruct scaleFill; destruct Hpad as (-> & -> & Hu);
    rewrite Hu in Hht, Hwd; cbn [fst snd] in *; lia.
Qed.

Lemma scale_pred_well_shaped w h pred :
  well_shaped pred -> well_shaped (scale_pred w h pred).
Proof.
  unfold well_shaped, scale_pred, scale_image. cbn [p_nc p_images].
  intros Hs. rewrite Forall_fmap. eapply Forall_impl; [exact Hs |].
  intros x Hx. unfold compose. rewrite Forall_fmap.
  eapply Forall_impl; [exact Hx |]. now intros a Ha.
Qed.

Lemma labels_fit_nil nc n : labels_fit nc n [].
Proof. intros xi _. now exists None. Qed.

(** X29: the route hands the session a tensor of height and width 640
    whatever the size of the image: the result of [predict] depends on
    the session only through its output for the shape (640, 640). *)
Theorem predict_input_640 img0 session_run :
  predict img0 session_run = predict img0 (fun _ => session_run (640, 640)).
Proof.
  unfold predict. destruct img0 as [h w].
  destruct (letterbox (h, w) _ _ _ _ _) as [img | e] eqn:E; [| reflexivity].
  cbn [mbind result_bind rbind].
  apply letterbox_exact in E as [-> ->]. reflexivity.
Qed.

(** X30: for a decoded image of height [h] and width [w], the route
    returns its string whenever no side of the image is 1280 times the
    other or more and the session gives a well-shaped tensor with at
    least one class; a more elongated image makes the resize of
    [letterbox] fail, before the session runs. *)
Theorem predict_returns h w session_run :
  0 < h -> 0 < w ->
  (h < 1280 * w -> w < 1280 * h ->
   well_shaped (session_run (640, 640)) ->
   (0 < p_nc (session_run (640%Z, 640%Z)))%nat ->
   predict (h, w) session_run = Ok "App OK"%string) /\
  (~ (h < 1280 * w /\ w < 1280 * h) ->
   predict (h, w) session_run = Raise CvError).
Proof.
  intros Hh Hw. split.
  - intros Hfh Hfw Hshape Hnc. unfold predict.
    destruct (letterbox_fits h w (HW 640 640) false false true 32)
      as [img Himg]; try assumption; cbn [target_hw fst snd]; try lia.
    rewrite Himg. cbn [mbind result_bind rbind].
    apply letterbox_exact in Himg as [-> ->]. cbn [target_hw fst snd].
    destruct (nms_returns (scale_pred 640 640 (session_run (640, 640)))
                (1 # 4)%Q (45 # 100)%Q None false false [] 300)
      as [out Hout].
    + reflexivity.
    + reflexivity.
    + now apply scale_pred_well_shaped.
    + exact Hnc.
    + apply labels_fit_nil.
    + now rewrite Hout.
  - intros Hnot. unfold predict.
    assert (Hraise : letterbox (h, w) (HW 640 640) false false true 32 =
                     Raise CvError).
    { apply letterbox_unfit; try assumption; cbn [target_hw fst snd]; lia. }
    now rewrite Hraise.
Qed.

End predict_facts.

(** ** Sample runs *)

Section letterbox_samples.
Local Open Scope Z_scope.

(** A 1080 x 810 image letterboxed to 640 in auto mode. *)
Lemma letterbox_returns_iff_witness :
  let nh := fst (target_hw (Edge 640)) in
  let nw := snd (target_hw (Edge 640)) in
  let fits := true = false /\ false = true \/
              1080 < 2 * nh * 810 /\ 810 < 2 * nw * 1080 in
  (fits ->
   exists out, letterbox (1080, 810) (Edge 640) true false true 32 = Ok out) /\
  (~ fits ->
   letterbox (1080, 810) (Edge 640) true false true 32 = Raise CvError) /\
  letterbox (0, 810) (Edge 640) true false true 32 = Raise ZeroDivisionError /\
  letterbox (1080, 0) (Edge 640) true false true 32 = Raise ZeroDivisionError.
Proof.
  apply (letterbox_returns_iff 1080 810 (Edge 640) true false true 32);
    reflexivity.
Defined.

(** A 1080 x 810 image letterboxed to 640 x 640 without auto mode: the
    image is padded on the left and on the right only. *)
Lemma letterbox_pads_one_axis_witness :
  exists out,
    letterbox (1080, 810) (HW 640 640) false false true 32 = Ok out /\
    ((lb_top out = 0 /\ lb_bottom out = 0) \/
     (lb_left out = 0 /\ lb_right out = 0)).
Proof.
  eexists. split; [vm_compute; reflexivity |].
  apply (letterbox_pads_one_axis 1080 810 (HW 640 640) false false 32);
    vm_compute; reflexivity.
Defined.

(** A 1080 x 811 image: the scaled width is 481, the pad 79.5, the
    borders 79 and 80. *)
Lemma letterbox_pad_halves_witness :
  exists out,
    letterbox (1080, 811) (HW 640 640) false false true 32 = Ok out /\
    (inject_Z (lb_left out + lb_right out) == 2 * fst (lb_pad out) /\
     inject_Z (lb_top out + lb_bottom out) == 2 * snd (lb_pad out) /\
     inject_Z (lb_left out) <= fst (lb_pad out) <= inject_Z (lb_right out) /\
     inject_Z (lb_top out) <= snd (lb_pad out) <= inject_Z (lb_bottom out))%Q /\
    0 <= lb_left out /\ 0 <= lb_top out.
Proof.
  eexists. split; [vm_compute; reflexivity |].
  apply (letterbox_pad_halves 1080 811 (HW 640 640) false false true 32).
  vm_compute; reflexivity.
Defined.


(** A 100 x 200 image with [scaleup] off keeps its size in a 640 x 640
    target. *)
Lemma letterbox_no_upscale_witness :
  exists out,
    letterbox (100, 200) (HW 640 640) false false false 32 = Ok out /\
    fst (lb_unpad out) <= 200 /\ snd (lb_unpad out) <= 100 /\
    (fst (lb_ratio out) <= 1 /\ snd (lb_ratio out) <= 1)%Q.
Proof.
  eexists. split; [vm_compute; reflexivity |].
  apply (letterbox_no_upscale 100 200 (HW 640 640) false false 32);
    try (vm_compute; reflexivity).
  now right.
Defined.

Lemma letterbox_target_size_unchanged_witness :
  exists out,
    letterbox (480, 640) (HW 480 640) true false true 32 = Ok out /\
    lb_unpad out = (640, 480) /\
    lb_height out = 480 /\ lb_width out = 640 /\
    lb_top out = 0 /\ lb_bottom out = 0 /\ lb_left out = 0 /\ lb_right out = 0 /\
    (fst (lb_ratio out) == 1 /\ snd (lb_ratio out) == 1)%Q.
Proof.
  apply (letterbox_target_size_unchanged 480 640 true false true 32);
    reflexivity.
Defined.

End letterbox_samples.

Section batched_samples.
Local Open Scope Q_scope.

(** The three detections of [ex_dets]: the third row is suppressed by the
    first of its class. *)
Lemma batched_nms_submseteq_witness : [ex_d1; ex_d2] ⊆+ ex_dets.
Proof.
  apply (batched_nms_submseteq ex_dets false (45 # 100) 300).
  vm_compute. reflexivity.
Defined.


Lemma batched_nms_keeps_best_witness :
  exists d out,
    batched_nms ex_dets false (45 # 100) 300 = Ok (d :: out) /\ d ∈ ex_dets /\
    Forall (fun e => d_conf e <= d_conf d) ex_dets.
Proof.
  apply (batched_nms_keeps_best ex_dets false (45 # 100) 300).
  - discriminate.
  - vm_compute. discriminate.
Defined.


End batched_samples.

Section nms_samples.
Local Open Scope Q_scope.

Lemma nms_image_by_image_witness :
  length [[ex_d1; ex_d2]; []] = length (p_images ex_prediction) /\
  forall xi x, p_images ex_prediction !! xi = Some x ->
    exists dets,
      [[ex_d1; ex_d2]; []] !! xi = Some dets /\
      non_max_suppression (Prediction (p_nc ex_prediction) [x]) (1 # 4)
                          (45 # 100) None false false [] 300 = Ok [dets].
Proof.
  apply (nms_image_by_image ex_prediction (1 # 4) (45 # 100) None false false
                            300).
  vm_compute. reflexivity.
Defined.




Lemma nms_at_most_max_nms_witness :
  (Z.of_nat (length [ex_d1; ex_d2]) <= 30000)%Z.
Proof.
  apply (nms_at_most_max_nms ex_prediction (1 # 4) (45 # 100) None false
           false [] 300 [[ex_d1; ex_d2]; []] 0).
  - vm_compute. reflexivity.
  - reflexivity.
Defined.

Lemma nms_max_det_prefix_witness :
  non_max_suppression ex_prediction (1 # 4) (45 # 100) None false false [] 1 =
  Ok (first_dets (Z.to_nat 1) [[ex_d1; ex_d2]; []]).
Proof.
  apply (nms_max_det_prefix ex_prediction (1 # 4) (45 # 100) None false false
           [] 1 300).
  - lia.
  - vm_compute. reflexivity.
Defined.

Lemma nms_single_class_agnostic_witness :
  non_max_suppression ex_single (1 # 4) (45 # 100) None false false [] 300 =
  non_max_suppression ex_single (1 # 4) (45 # 100) None true false [] 300.
Proof.
  apply (nms_single_class_agnostic ex_single (1 # 4) (45 # 100) None false []
           300).
  - repeat constructor.
  - simpl. lia.
Defined.

(** One entry of labels for the two images of [ex_prediction]. *)
Lemma nms_short_labels_fail_witness :
  exists e,
    non_max_suppression ex_prediction (1 # 4) (45 # 100) None false false
                        [[]] 300 = Raise e.
Proof.
  apply (nms_short_labels_fail ex_prediction (1 # 4) (45 # 100) None false
           false [[]] 300).
  - discriminate.
  - simpl. lia.
Defined.

(** A filter that names the classes 5 and -1 on a tensor with two
    classes. *)
Lemma nms_filter_without_class_witness :
  Forall (fun dets : list det => dets = []) [[]; []].
Proof.
  apply (nms_filter_without_class ex_prediction (1 # 4) (45 # 100) false false
           [] 300 [5; -1]%Z).
  - repeat constructor.
  - constructor; [right; vm_compute; discriminate |].
    constructor; [left; reflexivity | constructor].
  - vm_compute. reflexivity.
Defined.


End nms_samples.

Section predict_samples.
Local Open Scope Z_scope.

(** A 1080 x 810 image and a session that answers [ex_prediction]. *)
Lemma predict_returns_witness :
  (1080 < 1280 * 810 -> 810 < 1280 * 1080 ->
   well_shaped ex_prediction ->
   (0 < p_nc ex_prediction)%nat ->
   predict (1080, 810) (fun _ => ex_prediction) = Ok "App OK"%string) /\
  (~ (1080 < 1280 * 810 /\ 810 < 1280 * 1080) ->
   predict (1080, 810) (fun _ => ex_prediction) = Raise CvError).
Proof.
  apply (predict_returns 1080 810 (fun _ => ex_prediction)); reflexivity.
Defined.

End predict_samples.

(** ** Rounding to binary32 *)

Section powers.
Local Open Scope Q_scope.

Lemma pow2_pos k : 0 < 2 ^ k.
Proof. now apply Qpower_0_lt. Qed.

Lemma pow2_succ k : 2 ^ (k + 1) == 2 * 2 ^ k.
Proof. rewrite Qpower_plus by easy. change (2 ^ 1) with 2. ring. Qed.

Lemma pow2_plus a b : 2 ^ (a + b) == 2 ^ a * 2 ^ b.
Proof. now apply Qpower_plus. Qed.

Lemma pow2_le a b : (a <= b)%Z -> 2 ^ a <= 2 ^ b.
Proof. intros H. now apply Qpower_le_compat_l. Qed.

Lemma pow2_lt_inv a b : 2 ^ a < 2 ^ b -> (a < b)%Z.
Proof. intros H. now apply (Qpower_lt_compat_l_inv 2). Qed.

Lemma pow2_inject k : (0 <= k)%Z -> 2 ^ k == inject_Z (2 ^ k).
Proof. intros H. now rewrite Zpower_Qpower. Qed.

Lemma Qlog2_spec q : 0 < q -> 2 ^ Qlog2 q <= q /\ q < 2 ^ (Qlog2 q + 1).
Proof.
  intros Hq. destruct q as [n d]. unfold Qlog2. cbn [Qnum Qden].
  assert (Hn : (0 < n)%Z).
  { unfold Qlt in Hq. simpl in Hq. lia. }
  set (a := Z.log2 n). set (b := Z.log2 (Z.pos d)).
  destruct (Z.log2_spec n Hn) as [Ha1 Ha2]. fold a in Ha1, Ha2.
  destruct (Z.log2_spec (Z.pos d) eq_refl) as [Hb1 Hb2]. fold b in Hb1, Hb2.
  assert (Ha0 : (0 <= a)%Z) by apply Z.log2_nonneg.
  assert (Hb0 : (0 <= b)%Z) by apply Z.log2_nonneg.
  assert (Hk : 2 ^ (a - b) * inject_Z (2 ^ b) == inject_Z (2 ^ a)).
  { rewrite <- !pow2_inject by lia. rewrite <- pow2_plus. now replace (a - b + b)%Z with a by lia. }
  assert (Hqd : (n # d) * inject_Z (Z.pos d) == inject_Z n).
  { rewrite (Qmake_Qdiv n d). field. discriminate. }
  assert (Hd0 : 0 < inject_Z (Z.pos d)) by reflexivity.
  assert (Hpb : 0 < inject_Z (2 ^ b)).
  { rewrite <- pow2_inject by lia. apply pow2_pos. }
  pose proof (pow2_pos (a - b)) as Hpk.
  rewrite Zle_Qle in Ha1, Hb1. rewrite Zlt_Qlt in Ha2, Hb2.
  rewrite Z.pow_succ_r in Ha2, Hb2 by lia.
  rewrite inject_Z_mult in Ha2, Hb2. change (inject_Z 2) with 2 in Ha2, Hb2.
  set (q := n # d) in *. set (D := inject_Z (Z.pos d)) in *.
  set (N := inject_Z n) in *. set (A := inject_Z (2 ^ a)) in *.
  set (B := inject_Z (2 ^ b)) in *. set (K := 2 ^ (a - b)) in *.
  destruct (Qle_bool K q) eqn:E.
  - apply Qle_bool_iff in E. split; [exact E |].
    rewrite pow2_succ. fold K.
    apply Qnot_le_lt. intros Hc. nra.
  - assert (Hlt : q < K).
    { apply Qnot_le_lt. intros Hc. apply Qle_bool_iff in Hc. congruence. }
    replace (a - b - 1 + 1)%Z with (a - b)%Z by lia. fold K. split; [| exact Hlt].
    assert (HK2 : K == 2 * 2 ^ (a - b - 1)).
    { unfold K. rewrite <- pow2_succ. now replace (a - b - 1 + 1)%Z with (a - b)%Z by lia. }
    pose proof (pow2_pos (a - b - 1)) as Hpk1.
    set (K1 := 2 ^ (a - b - 1)) in *.
    apply Qnot_lt_le. intros Hc. nra.
Qed.

Lemma Qlog2_unique q k : 2 ^ k <= q -> q < 2 ^ (k + 1) -> Qlog2 q = k.
Proof.
  intros Hlo Hhi.
  assert (Hq : 0 < q) by (pose proof (pow2_pos k); lra).
  destruct (Qlog2_spec q Hq) as [H1 H2].
  assert (Qlog2 q < k + 1)%Z by (apply pow2_lt_inv; lra).
  assert (k < Qlog2 q + 1)%Z by (apply pow2_lt_inv; lra).
  lia.
Qed.

Lemma Qlog2_mono p q : 0 < p -> p <= q -> (Qlog2 p <= Qlog2 q)%Z.
Proof.
  intros Hp Hpq.
  destruct (Qlog2_spec p Hp) as [H1 _].
  destruct (Qlog2_spec q) as [_ H2]; [lra |].
  assert (Qlog2 p < Qlog2 q + 1)%Z by (apply pow2_lt_inv; lra).
  lia.
Qed.

Lemma Qlog2_proper p q : 0 < p -> p == q -> Qlog2 p = Qlog2 q.
Proof.
  intros Hp Hpq. destruct (Qlog2_spec p Hp) as [H1 H2].
  symmetry. apply Qlog2_unique; lra.
Qed.

End powers.

Section py_round_more.
Local Open Scope Q_scope.

Lemma py_round_half k :
  py_round (inject_Z k + (1 # 2)) = if Z.even k then k else (k + 1)%Z.
Proof.
  unfold py_round.
  assert (Hf : Qfloor (inject_Z k + (1 # 2)) = k).
  { apply Qfloor_unique; [lra |]. rewrite inject_Z_plus.
    change (inject_Z 1) with 1. lra. }
  rewrite Hf.
  assert (Hfr : inject_Z k + (1 # 2) - inject_Z k == 1 # 2) by ring.
  rewrite (Qltb_proper _ _ Hfr _ _ (Qeq_refl _)),
          (Qltb_proper _ _ (Qeq_refl (1 # 2)) _ _ Hfr).
  reflexivity.
Qed.

(** A rational is an integer plus a part of [-1/2, 1/2). *)
Lemma Q_near_int q :
  exists k e, q == inject_Z k + e /\ - (1 # 2) <= e /\ e < 1 # 2.
Proof.
  pose proof (Qfloor_le q) as Hf. pose proof (Qlt_floor q) as Hc.
  rewrite inject_Z_plus in Hc. change (inject_Z 1) with 1 in Hc.
  destruct (Qlt_le_dec (q - inject_Z (Qfloor q)) (1 # 2)) as [H | H].
  - exists (Qfloor q), (q - inject_Z (Qfloor q)). repeat split; lra.
  - exists (Qfloor q + 1)%Z, (q - inject_Z (Qfloor q) - 1).
    rewrite inject_Z_plus. change (inject_Z 1) with 1. repeat split; lra.
Qed.

Lemma py_round_opp q : py_round (- q) = (- py_round q)%Z.
Proof.
  destruct (Q_near_int q) as (k & e & Hq & Hlo & Hhi).
  destruct (Qeq_dec e (- (1 # 2))) as [He | He].
  - assert (H1 : q == inject_Z (k - 1) + (1 # 2)).
    { unfold Z.sub. rewrite inject_Z_plus, inject_Z_opp.
      change (inject_Z 1) with 1. lra. }
    assert (H2 : - q == inject_Z (- k) + (1 # 2)).
    { rewrite inject_Z_opp. lra. }
    rewrite H1 at 2. rewrite H2, !py_round_half.
    rewrite Z.even_opp, Z.even_sub. change (Z.even 1) with false.
    destruct (Z.even k); simpl; lia.
  - assert (H1 : - q == inject_Z (- k) + - e) by (rewrite inject_Z_opp; lra).
    rewrite H1, Hq, !py_round_near; lra || reflexivity.
Qed.

Lemma py_round_mono p q : p <= q -> (py_round p <= py_round q)%Z.
Proof.
  intros Hpq. destruct (Qeq_dec p q) as [He | Hne].
  - now rewrite He.
  - destruct (py_round_dist p) as [_ Hp]. destruct (py_round_dist q) as [Hq _].
    assert (Hlt : inject_Z (py_round p) < inject_Z (py_round q + 1)).
    { rewrite inject_Z_plus. change (inject_Z 1) with 1.
      assert (p < q) by (apply Qle_lteq in Hpq as [? | ?]; [easy | contradiction]).
      lra. }
    rewrite <- Zlt_Qlt in Hlt. lia.
Qed.

Lemma py_round_nonneg q : 0 <= q -> (0 <= py_round q)%Z.
Proof.
  intros Hq. change 0%Z with (py_round (inject_Z 0)) at 1.
  - apply py_round_mono. exact Hq.
Qed.

End py_round_more.

Section binary32_rounding.
Local Open Scope Q_scope.

Lemma Qabs_pos_neq q : ~ q == 0 -> 0 < Qabs q.
Proof.
  intros Hq. apply Qabs_case; intros H; lra.
Qed.

Lemma fl32_exp_proper p q : ~ p == 0 -> p == q -> fl32_exp p = fl32_exp q.
Proof.
  intros Hp Hpq. unfold fl32_exp.
  rewrite (Qlog2_proper (Qabs p) (Qabs q)); [reflexivity | | now rewrite Hpq].
  now apply Qabs_pos_neq.
Qed.

Lemma fl32_exp_opp q : ~ q == 0 -> fl32_exp (- q) = fl32_exp q.
Proof.
  intros Hq. unfold fl32_exp.
  rewrite (Qlog2_proper (Qabs (- q)) (Qabs q)); [reflexivity | | apply Qabs_opp].
  apply Qabs_pos_neq. lra.
Qed.

Lemma fl32_exp_pos q : 0 < q -> fl32_exp q = Z.max (Qlog2 q - 23) (-149).
Proof.
  intros Hq. unfold fl32_exp.
  rewrite (Qlog2_proper (Qabs q) q); [reflexivity | | apply Qabs_pos; lra].
  apply Qabs_pos_neq. lra.
Qed.

Lemma fl32_zero q : q == 0 -> fl32 q = 0.
Proof. intros Hq. unfold fl32. now rewrite (Qeq_eq_bool _ _ Hq). Qed.

Lemma fl32_val q :
  ~ q == 0 ->
  fl32 q == inject_Z (py_round (q / 2 ^ fl32_exp q)) * 2 ^ fl32_exp q.
Proof.
  intros Hq. unfold fl32.
  destruct (Qeq_bool q 0) eqn:E; [apply Qeq_bool_eq in E; contradiction |].
  apply Qred_correct.
Qed.

#[export] Instance fl32_proper : Proper (Qeq ==> eq) fl32.
Proof.
  intros p q Hpq. unfold fl32.
  destruct (Qeq_bool p 0) eqn:E1, (Qeq_bool q 0) eqn:E2; [reflexivity | | |].
  - apply Qeq_bool_eq in E1. apply Qeq_bool_neq in E2. lra.
  - apply Qeq_bool_eq in E2. apply Qeq_bool_neq in E1. lra.
  - apply Qeq_bool_neq in E1. rewrite <- (fl32_exp_proper p q E1 Hpq).
    apply Qred_complete.
    assert (H : p / 2 ^ fl32_exp p == q / 2 ^ fl32_exp p)
      by (apply Qmult_comp; [exact Hpq | reflexivity]).
    now rewrite (py_round_proper _ _ H).
Qed.

Lemma fl32_opp q : fl32 (- q) == - fl32 q.
Proof.
  destruct (Qeq_dec q 0) as [Hz | Hnz].
  - rewrite !fl32_zero; [reflexivity | exact Hz | lra].
  - rewrite !fl32_val by lra. rewrite fl32_exp_opp by exact Hnz.
    assert (H : - q / 2 ^ fl32_exp q == - (q / 2 ^ fl32_exp q)).
    { field. pose proof (pow2_pos (fl32_exp q)). lra. }
    rewrite H, py_round_opp, inject_Z_opp. ring.
Qed.

(** The scaled magnitude of a positive number lies below [2 ^ 24], and
    from [2 ^ 23] on above the subnormal range. *)
Lemma fl32_scaled_lt q : 0 < q -> q / 2 ^ fl32_exp q < 2 ^ 24.
Proof.
  intros Hq. destruct (Qlog2_spec q Hq) as [_ Hhi].
  pose proof (pow2_pos (fl32_exp q)) as He.
  apply Qlt_shift_div_r; [exact He |].
  rewrite <- pow2_plus. eapply Qlt_le_trans; [exact Hhi |].
  apply pow2_le. rewrite fl32_exp_pos by exact Hq. lia.
Qed.

Lemma fl32_scaled_ge q :
  0 < q -> (-149 < fl32_exp q)%Z -> 2 ^ 23 <= q / 2 ^ fl32_exp q.
Proof.
  intros Hq Hn. destruct (Qlog2_spec q Hq) as [Hlo _].
  pose proof (pow2_pos (fl32_exp q)) as He.
  apply Qle_shift_div_l; [exact He |].
  rewrite <- pow2_plus. eapply Qle_trans; [| exact Hlo].
  apply pow2_le. rewrite fl32_exp_pos in * by exact Hq. lia.
Qed.

Lemma fl32_nonneg q : 0 <= q -> 0 <= fl32 q.
Proof.
  intros Hq. destruct (Qeq_dec q 0) as [Hz | Hnz].
  - now rewrite fl32_zero.
  - rewrite fl32_val by exact Hnz.
    pose proof (pow2_pos (fl32_exp q)) as He.
    apply Qmult_le_0_compat; [| lra].
    change 0 with (inject_Z 0). rewrite <- Zle_Qle.
    apply py_round_nonneg. apply Qle_shift_div_l; [exact He | lra].
Qed.

Lemma fl32_mono_pos p q : 0 < p -> p <= q -> fl32 p <= fl32 q.
Proof.
  intros Hp Hpq. assert (Hq : 0 < q) by lra.
  rewrite (fl32_val p), (fl32_val q) by lra.
  pose proof (pow2_pos (fl32_exp p)) as Hep.
  pose proof (pow2_pos (fl32_exp q)) as Heq.
  assert (Hle : (fl32_exp p <= fl32_exp q)%Z).
  { rewrite !fl32_exp_pos by assumption.
    pose proof (Qlog2_mono p q Hp Hpq). lia. }
  destruct (Z.eq_dec (fl32_exp p) (fl32_exp q)) as [E | E].
  - rewrite E. apply Qmult_le_compat_r; [| lra].
    rewrite <- Zle_Qle. apply py_round_mono.
    apply Qmult_le_compat_r; [exact Hpq |].
    apply Qlt_le_weak, Qinv_lt_0_compat, Heq.
  - assert (Hm : inject_Z (py_round (p / 2 ^ fl32_exp p)) <= 2 ^ 24).
    { change (2 ^ 24) with (inject_Z (2 ^ 24)). rewrite <- Zle_Qle.
      apply py_round_le. apply Qlt_le_weak.
      change (inject_Z (2 ^ 24)) with (2 ^ 24). now apply fl32_scaled_lt. }
    assert (Hn : 2 ^ 23 <= inject_Z (py_round (q / 2 ^ fl32_exp q))).
    { change (2 ^ 23) with (inject_Z (2 ^ 23)). rewrite <- Zle_Qle.
      rewrite <- (py_round_inject (2 ^ 23)) at 1. apply py_round_mono.
      change (inject_Z (2 ^ 23)) with (2 ^ 23).
      apply fl32_scaled_ge; [exact Hq | ].
      assert (-149 <= fl32_exp p)%Z by (unfold fl32_exp; lia). lia. }
    assert (Hstep : 2 ^ 24 * 2 ^ fl32_exp p <= 2 ^ 23 * 2 ^ fl32_exp q).
    { rewrite <- !pow2_plus. apply pow2_le. lia. }
    eapply Qle_trans; [apply Qmult_le_compat_r; [exact Hm | lra] |].
    eapply Qle_trans; [exact Hstep |].
    apply Qmult_le_compat_r; [exact Hn | lra].
Qed.

(** Rounding is monotone. *)
Lemma fl32_mono p q : p <= q -> fl32 p <= fl32 q.
Proof.
  intros Hpq.
  destruct (Qlt_le_dec 0 p) as [Hp | Hp]; [now apply fl32_mono_pos |].
  destruct (Qlt_le_dec q 0) as [Hq | Hq].
  - assert (H : fl32 (- q) <= fl32 (- p)) by (apply fl32_mono_pos; lra).
    rewrite !fl32_opp in H. lra.
  - assert (H1 : 0 <= fl32 q) by now apply fl32_nonneg.
    assert (H2 : 0 <= fl32 (- p)) by (apply fl32_nonneg; lra).
    rewrite fl32_opp in H2. lra.
Qed.

End binary32_rounding.

Section binary32_numbers.
Local Open Scope Q_scope.

(** A multiple [m * 2 ^ e] with [|m| < 2 ^ 24] and [e >= -149] is a
    binary32 number: rounding leaves it as it is. *)
Lemma fl32_repr_pos m e :
  (0 < m < 2 ^ 24)%Z -> (-149 <= e)%Z ->
  fl32 (inject_Z m * 2 ^ e) == inject_Z m * 2 ^ e.
Proof.
  intros Hm He. set (q := inject_Z m * 2 ^ e).
  pose proof (pow2_pos e) as Hpe.
  assert (Hm0 : 0 < inject_Z m) by (apply inject_Z_pos; lia).
  assert (Hq : 0 < q) by (unfold q; nra).
  rewrite fl32_val by lra.
  set (e' := fl32_exp q).
  assert (He' : (e' <= e)%Z).
  { unfold e'. rewrite fl32_exp_pos by exact Hq.
    destruct (Qlog2_spec q Hq) as [Hlo _].
    assert (Hlt : q < 2 ^ (24 + e)).
    { rewrite pow2_plus. unfold q. apply Qmult_lt_compat_r; [exact Hpe |].
      change (2 ^ 24) with (inject_Z (2 ^ 24)). rewrite <- Zlt_Qlt. lia. }
    assert (Qlog2 q < 24 + e)%Z by (apply pow2_lt_inv; lra). lia. }
  pose proof (pow2_pos e') as Hpe'.
  assert (Hsplit : 2 ^ e == inject_Z (2 ^ (e - e')) * 2 ^ e').
  { rewrite <- pow2_inject by lia. rewrite <- pow2_plus.
    now replace (e - e' + e')%Z with e by lia. }
  assert (Hint : q / 2 ^ e' == inject_Z (m * 2 ^ (e - e'))).
  { unfold q. rewrite inject_Z_mult, Hsplit. field. lra. }
  rewrite (py_round_proper _ _ Hint), py_round_inject, inject_Z_mult.
  unfold q. rewrite Hsplit. ring.
Qed.

Lemma fl32_repr m e :
  (Z.abs m < 2 ^ 24)%Z -> (-149 <= e)%Z ->
  fl32 (inject_Z m * 2 ^ e) == inject_Z m * 2 ^ e.
Proof.
  intros Hm He. destruct (Z.lt_trichotomy m 0) as [Hn | [-> | Hp]].
  - assert (H : inject_Z m * 2 ^ e == - (inject_Z (- m) * 2 ^ e)).
    { rewrite inject_Z_opp. ring. }
    rewrite (fl32_proper _ _ H), fl32_opp, fl32_repr_pos by lia.
    rewrite inject_Z_opp. ring.
  - rewrite fl32_zero; [| ring]. ring.
  - apply fl32_repr_pos; lia.
Qed.

(** An integer below [2 ^ 24] in magnitude is a binary32 number. *)
Lemma fl32_int n : (Z.abs n < 2 ^ 24)%Z -> fl32 (inject_Z n) == inject_Z n.
Proof.
  intros Hn. assert (H : inject_Z n == inject_Z n * 2 ^ 0) by (simpl; ring).
  rewrite (fl32_proper _ _ H) at 1. rewrite fl32_repr by lia. simpl. ring.
Qed.

(** Every rounded number is such a multiple. *)
Lemma fl32_form q :
  exists m e, fl32 q == inject_Z m * 2 ^ e /\
              (Z.abs m < 2 ^ 24)%Z /\ (-149 <= e)%Z.
Proof.
  assert (Hpos : forall p, 0 < p ->
    exists m e, fl32 p == inject_Z m * 2 ^ e /\
                (0 <= m < 2 ^ 24)%Z /\ (-149 <= e)%Z).
  { intros p Hp. assert (Hv := fl32_val p). 
    set (e := fl32_exp p) in *. set (m := py_round (p / 2 ^ e)) in *.
    pose proof (pow2_pos e) as Hpe.
    assert (He : (-149 <= e)%Z) by (unfold e, fl32_exp; lia).
    assert (Hm0 : (0 <= m)%Z).
    { apply py_round_nonneg. apply Qle_shift_div_l; [exact Hpe | lra]. }
    assert (Hm1 : (m <= 2 ^ 24)%Z).
    { apply py_round_le. apply Qlt_le_weak.
      change (inject_Z (2 ^ 24)) with (2 ^ 24). now apply fl32_scaled_lt. }
    destruct (Z.eq_dec m (2 ^ 24)) as [E | E].
    - exists (2 ^ 23)%Z, (e + 1)%Z. split; [| split; [lia | lia]].
      rewrite Hv by lra. rewrite E, pow2_succ.
      change (inject_Z (2 ^ 24)) with (2 * inject_Z (2 ^ 23)). ring.
    - exists m, e. split; [apply Hv; lra |]. split; [lia | exact He]. }
  destruct (Qlt_le_dec 0 q) as [Hq | Hq].
  - destruct (Hpos q Hq) as (m & e & H & Hm & He).
    exists m, e. split; [exact H |]. split; [lia | exact He].
  - destruct (Qeq_dec q 0) as [Hz | Hnz].
    + exists 0%Z, 0%Z. rewrite (fl32_zero q Hz). split; [reflexivity |].
      split; [reflexivity | lia].
    + destruct (Hpos (- q)) as (m & e & H & Hm & He); [lra |].
      exists (- m)%Z, e. rewrite fl32_opp in H.
      split; [rewrite inject_Z_opp; lra |]. split; [lia | exact He].
Qed.

(** Rounding is idempotent. *)
Lemma fl32_idem q : fl32 (fl32 q) == fl32 q.
Proof.
  destruct (fl32_form q) as (m & e & H & Hm & He).
  rewrite (fl32_proper _ _ H), fl32_repr by assumption. now rewrite H.
Qed.

(** Twice a binary32 number is one. *)
Lemma fl32_double q : fl32 (2 * fl32 q) == 2 * fl32 q.
Proof.
  destruct (fl32_form q) as (m & e & H & Hm & He).
  assert (H2 : 2 * fl32 q == inject_Z m * 2 ^ (e + 1)).
  { rewrite H, pow2_succ. ring. }
  rewrite (fl32_proper _ _ H2), fl32_repr by (assumption || lia).
  now rewrite H2.
Qed.

Lemma fl32_one : fl32 1 == 1.
Proof. apply (fl32_int 1). reflexivity. Qed.

Lemma fl32_0 : fl32 0 = 0.
Proof. reflexivity. Qed.

Lemma fl32_nonpos q : q <= 0 -> fl32 q <= 0.
Proof. intros Hq. rewrite <- fl32_0. now apply fl32_mono. Qed.

(** Rounding falls between binary32 bounds of its argument. *)
Lemma fl32_le_repr q v : q <= fl32 v -> fl32 q <= fl32 v.
Proof. intros H. rewrite <- (fl32_idem v). now apply fl32_mono. Qed.

End binary32_numbers.

(** ** binary32 arithmetic *)

Section binary32_ops.
Local Open Scope Q_scope.

#[export] Instance rnd32_proper : Proper (Qeq ==> eq) rnd32.
Proof. intros p q Hpq. unfold rnd32. now rewrite (fl32_proper _ _ Hpq). Qed.

(** The three outcomes of rounding. *)
Lemma rnd32_cases q :
  (rnd32 q = Fin (fl32 q) /\ Qabs (fl32 q) < 2 ^ 128) \/
  (rnd32 q = Inf true /\ 2 ^ 128 <= fl32 q) \/
  (rnd32 q = Inf false /\ fl32 q <= - 2 ^ 128).
Proof.
  unfold rnd32. destruct (Qle_bool (2 ^ 128) (Qabs (fl32 q))) eqn:E.
  - apply Qle_bool_iff in E. right.
    destruct (Qltb 0 (fl32 q)) eqn:Es.
    + left. split; [reflexivity |]. apply Qltb_lt in Es.
      now rewrite Qabs_pos in E by lra.
    + right. split; [reflexivity |]. apply Qltb_ge in Es.
      rewrite Qabs_neg in E by exact Es. lra.
  - left. split; [reflexivity |]. apply Qnot_le_lt. intros Hc.
    apply Qle_bool_iff in Hc. congruence.
Qed.

Lemma rnd32_fin q v : rnd32 q = Fin v -> v = fl32 q /\ Qabs v < 2 ^ 128.
Proof.
  destruct (rnd32_cases q) as [[H Hb] | [[H _] | [H _]]]; rewrite H;
    [| discriminate | discriminate].
  intros [= <-]. easy.
Qed.

(** A rounded number between two finite bounds is finite. *)
Lemma rnd32_between q lo hi :
  - 2 ^ 128 < lo -> lo <= fl32 q -> fl32 q <= hi -> hi < 2 ^ 128 ->
  rnd32 q = Fin (fl32 q).
Proof.
  intros H1 H2 H3 H4.
  destruct (rnd32_cases q) as [[H _] | [[_ H] | [_ H]]]; [exact H | lra | lra].
Qed.

Lemma rnd32_zero q : q == 0 -> rnd32 q = Fin 0.
Proof. intros Hq. rewrite (rnd32_proper _ _ Hq). reflexivity. Qed.

Lemma f32_add_comm x y : f32_add x y = f32_add y x.
Proof.
  destruct x as [p | s |], y as [q | t |]; simpl; try reflexivity.
  - apply rnd32_proper. ring.
  - destruct s, t; reflexivity.
Qed.

Lemma f32_min_fin p q :
  f32_min (Fin p) (Fin q) = Fin (if Qltb q p then q else p).
Proof. simpl. now destruct (Qltb q p). Qed.

Lemma f32_max_fin p q :
  f32_max (Fin p) (Fin q) = Fin (if Qltb p q then q else p).
Proof. simpl. now destruct (Qltb p q). Qed.

Lemma Qmin_if p q : (if Qltb q p then q else p) == Qmin p q.
Proof.
  destruct (Qltb q p) eqn:E.
  - apply Qltb_lt in E. symmetry. apply Q.min_r. lra.
  - apply Qltb_ge in E. symmetry. now apply Q.min_l.
Qed.

Lemma Qmax_if p q : (if Qltb p q then q else p) == Qmax p q.
Proof.
  destruct (Qltb p q) eqn:E.
  - apply Qltb_lt in E. symmetry. apply Q.max_r. lra.
  - apply Qltb_ge in E. symmetry. now apply Q.max_l.
Qed.

(** The clamped extent of the intersection along one axis. *)
Lemma axis32 lo1 hi1 lo2 hi2 :
  f32_clamp0 (f32_sub (f32_min (Fin hi1) (Fin hi2)) (f32_max (Fin lo1) (Fin lo2)))
  = f32_clamp0 (rnd32 (Qmin hi1 hi2 - Qmax lo1 lo2)).
Proof.
  rewrite f32_min_fin, f32_max_fin. simpl. f_equal. apply rnd32_proper.
  now rewrite Qmin_if, Qmax_if.
Qed.

Lemma axis32_sym lo1 hi1 lo2 hi2 :
  f32_clamp0 (rnd32 (Qmin hi1 hi2 - Qmax lo1 lo2)) =
  f32_clamp0 (rnd32 (Qmin hi2 hi1 - Qmax lo2 lo1)).
Proof. f_equal. apply rnd32_proper. now rewrite Q.min_comm, Q.max_comm. Qed.

Lemma f32_mul_comm x y : f32_mul x y = f32_mul y x.
Proof.
  destruct x as [p | s |], y as [q | t |]; simpl; try reflexivity.
  - apply rnd32_proper. ring.
  - destruct s, t; reflexivity.
Qed.

End binary32_ops.

Section iou32_facts.
Local Open Scope Q_scope.

Lemma box_inter32_of a b :
  box_inter32 (fbox_of a) (fbox_of b) =
  f32_mul (f32_clamp0 (rnd32 (Qmin (bx2 a) (bx2 b) - Qmax (bx1 a) (bx1 b))))
          (f32_clamp0 (rnd32 (Qmin (by2 a) (by2 b) - Qmax (by1 a) (by1 b)))).
Proof. unfold box_inter32, fbox_of. cbn [fx1 fy1 fx2 fy2]. now rewrite !axis32. Qed.

Lemma box_inter32_sym a b :
  box_inter32 (fbox_of a) (fbox_of b) = box_inter32 (fbox_of b) (fbox_of a).
Proof.
  rewrite !box_inter32_of.
  now rewrite (axis32_sym (bx1 a)), (axis32_sym (by1 a)).
Qed.

(** [box_iou] is symmetric on boxes of finite coordinates. *)
Lemma iou32_sym a b : iou32 (fbox_of a) (fbox_of b) = iou32 (fbox_of b) (fbox_of a).
Proof.
  unfold iou32. rewrite box_inter32_sym.
  now rewrite (f32_add_comm (box_area32 (fbox_of a))).
Qed.

End iou32_facts.

(** ** The overlap of two boxes in binary32 *)

Section iou32_range.
Local Open Scope Q_scope.

Lemma pow128_pos : 0 < 2 ^ 128.
Proof. reflexivity. Qed.

Lemma inf_times_not_fin s p v : inf_times s p <> Fin v.
Proof. unfold inf_times. now destruct (Qeq_bool p 0). Qed.

(** A finite product has finite factors. *)
Lemma f32_mul_fin x y v :
  f32_mul x y = Fin v -> exists p q, x = Fin p /\ y = Fin q /\ rnd32 (p * q) = Fin v.
Proof.
  destruct x as [p | s |], y as [q | t |]; simpl; intros H; try discriminate.
  - now exists p, q.
  - now apply inf_times_not_fin in H.
  - now apply inf_times_not_fin in H.
Qed.

(** The area of a box in corner form, when it is finite. *)
Lemma box_area32_fin a A :
  corner_form a -> box_area32 (fbox_of a) = Fin A ->
  let w := fl32 (bx2 a - bx1 a) in
  let h := fl32 (by2 a - by1 a) in
  0 <= w /\ w < 2 ^ 128 /\ 0 <= h /\ h < 2 ^ 128 /\
  A = fl32 (w * h) /\ 0 <= A /\ A < 2 ^ 128.
Proof.
  intros [Hx Hy] HA. unfold box_area32, fbox_of in HA.
  cbn [fx1 fy1 fx2 fy2 f32_sub] in HA.
  apply f32_mul_fin in HA as (p & q & Hp & Hq & HA).
  apply rnd32_fin in Hp as [-> Hp], Hq as [-> Hq], HA as [-> HA].
  assert (Hw : 0 <= fl32 (bx2 a - bx1 a)) by (apply fl32_nonneg; lra).
  assert (Hh : 0 <= fl32 (by2 a - by1 a)) by (apply fl32_nonneg; lra).
  rewrite Qabs_pos in Hp, Hq by assumption.
  assert (H0 : 0 <= fl32 (fl32 (bx2 a - bx1 a) * fl32 (by2 a - by1 a))).
  { apply fl32_nonneg. now apply Qmult_le_0_compat. }
  rewrite Qabs_pos in HA by exact H0. simpl. easy.
Qed.

(** The clamped extent of the intersection along an axis is a number
    between 0 and the extent of each box. *)
Lemma axis32_bounds lo1 hi1 lo2 hi2 :
  lo1 <= hi1 -> lo2 <= hi2 -> fl32 (hi1 - lo1) < 2 ^ 128 ->
  exists c, f32_clamp0 (rnd32 (Qmin hi1 hi2 - Qmax lo1 lo2)) = Fin c /\
            0 <= c /\ c <= fl32 (hi1 - lo1) /\ c <= fl32 (hi2 - lo2).
Proof.
  intros H1 H2 Hfin. set (d := Qmin hi1 hi2 - Qmax lo1 lo2).
  assert (Hd1 : d <= hi1 - lo1).
  { unfold d. pose proof (Q.le_min_l hi1 hi2). pose proof (Q.le_max_l lo1 lo2). lra. }
  assert (Hd2 : d <= hi2 - lo2).
  { unfold d. pose proof (Q.le_min_r hi1 hi2). pose proof (Q.le_max_r lo1 lo2). lra. }
  pose proof (fl32_mono _ _ Hd1) as Hm1. pose proof (fl32_mono _ _ Hd2) as Hm2.
  assert (Hw1 : 0 <= fl32 (hi1 - lo1)) by (apply fl32_nonneg; lra).
  assert (Hw2 : 0 <= fl32 (hi2 - lo2)) by (apply fl32_nonneg; lra).
  destruct (rnd32_cases d) as [[H _] | [[_ H] | [H _]]]; [| lra |].
  - rewrite H. unfold f32_clamp0. cbn [f32_ltb].
    destruct (Qltb (fl32 d) 0) eqn:E.
    + exists 0. repeat split; (reflexivity || lra).
    + apply Qltb_ge in E. exists (fl32 d). repeat split; assumption.
  - rewrite H. exists 0. repeat split; (reflexivity || lra).
Qed.

(** The intersection of two boxes in corner form of finite area is a
    binary32 number between 0 and each area. *)
Lemma box_inter32_fin a b A B :
  corner_form a -> corner_form b ->
  box_area32 (fbox_of a) = Fin A -> box_area32 (fbox_of b) = Fin B ->
  exists I, box_inter32 (fbox_of a) (fbox_of b) = Fin I /\
            0 <= I /\ I <= A /\ I <= B /\ fl32 I == I.
Proof.
  intros Ca Cb HA HB.
  destruct (box_area32_fin a A Ca HA) as (Hwa & Hwa' & Hha & Hha' & -> & HA0 & HA1).
  destruct (box_area32_fin b B Cb HB) as (Hwb & Hwb' & Hhb & Hhb' & -> & HB0 & HB1).
  destruct Ca as [Cax Cay], Cb as [Cbx Cby].
  destruct (axis32_bounds (bx1 a) (bx2 a) (bx1 b) (bx2 b) Cax Cbx Hwa')
    as (cw & Hcw & Hcw0 & Hcw1 & Hcw2).
  destruct (axis32_bounds (by1 a) (by2 a) (by1 b) (by2 b) Cay Cby Hha')
    as (ch & Hch & Hch0 & Hch1 & Hch2).
  rewrite box_inter32_of, Hcw, Hch. cbn [f32_mul].
  assert (H0 : 0 <= fl32 (cw * ch)).
  { apply fl32_nonneg. now apply Qmult_le_0_compat. }
  assert (H1 : fl32 (cw * ch) <=
               fl32 (fl32 (bx2 a - bx1 a) * fl32 (by2 a - by1 a))).
  { apply fl32_mono. nra. }
  assert (H2 : fl32 (cw * ch) <=
               fl32 (fl32 (bx2 b - bx1 b) * fl32 (by2 b - by1 b))).
  { apply fl32_mono. nra. }
  exists (fl32 (cw * ch)). split.
  - eapply (rnd32_between _ 0); [reflexivity | exact H0 | exact H1 | exact HA1].
  - repeat split; try assumption. apply fl32_idem.
Qed.

(** The sum of two finite areas covers twice the intersection and each
    area. *)
Lemma iou32_unit a b A B :
  corner_form a -> corner_form b ->
  box_area32 (fbox_of a) = Fin A -> box_area32 (fbox_of b) = Fin B ->
  0 < A \/ 0 < B ->
  fin_between 0 1 (iou32 (fbox_of a) (fbox_of b)).
Proof.
  intros Ca Cb HA HB Hpos.
  destruct (box_inter32_fin a b A B Ca Cb HA HB) as (I & HI & HI0 & HIA & HIB & HIr).
  destruct (box_area32_fin a A Ca HA) as (_ & _ & _ & _ & EA & HA0 & HA1).
  destruct (box_area32_fin b B Cb HB) as (_ & _ & _ & _ & EB & HB0 & HB1).
  assert (HAr : fl32 A == A) by (rewrite EA; apply fl32_idem).
  assert (HBr : fl32 B == B) by (rewrite EB; apply fl32_idem).
  unfold iou32. rewrite HI, HA, HB. cbn [f32_add].
  set (s := fl32 (A + B)).
  assert (Hs0 : 0 <= s) by (apply fl32_nonneg; lra).
  destruct (rnd32_cases (A + B)) as [[Hs Hsb] | [[Hs _] | [_ Hs]]];
    [| | fold s in Hs; pose proof pow128_pos; lra].
  2: { rewrite Hs. simpl. split; [apply Qle_refl | discriminate]. }
  rewrite Hs. fold s in Hsb |- *. rewrite Qabs_pos in Hsb by exact Hs0.
  cbn [f32_sub].
  assert (HsA : A <= s).
  { apply Qle_trans with (fl32 A); [lra | apply fl32_mono; lra]. }
  assert (HsB : B <= s).
  { apply Qle_trans with (fl32 B); [lra | apply fl32_mono; lra]. }
  assert (HsI : 2 * I <= s).
  { assert (H2 : fl32 (2 * I) == 2 * I).
    { assert (E : 2 * I == 2 * fl32 I) by lra.
      rewrite (fl32_proper _ _ E), fl32_double. lra. }
    apply Qle_trans with (fl32 (2 * I)); [lra | apply fl32_mono; lra]. }
  set (u := fl32 (s - I)).
  assert (HuI : I <= u).
  { apply Qle_trans with (fl32 I); [lra | apply fl32_mono; lra]. }
  assert (Hus : u <= s).
  { apply (fl32_le_repr (s - I) (A + B)). fold s. lra. }
  assert (Hu0 : 0 < u).
  { destruct (Qlt_le_dec 0 I) as [Hp | Hz]; [lra |].
    assert (E : s - I == fl32 (A + B)) by (fold s; lra).
    unfold u. rewrite (fl32_proper _ _ E).
    pose proof (fl32_idem (A + B)) as Hi. fold s in Hi |- *.
    destruct Hpos; lra. }
  assert (Hub : Qabs u < 2 ^ 128) by (rewrite Qabs_pos; lra).
  destruct (rnd32_cases (s - I)) as [[Hu _] | [[_ Hu] | [_ Hu]]];
    [| fold u in Hu; lra | fold u in Hu; pose proof pow128_pos; lra].
  rewrite Hu. fold u. cbn [f32_div].
  destruct (Qeq_bool u 0) eqn:Eu; [apply Qeq_bool_eq in Eu; lra |].
  assert (Hq0 : 0 <= I / u) by (apply Qle_shift_div_l; lra).
  assert (Hq1 : I / u <= 1) by (apply Qle_shift_div_r; lra).
  assert (Hr0 : 0 <= fl32 (I / u)) by now apply fl32_nonneg.
  assert (Hr1 : fl32 (I / u) <= 1).
  { rewrite <- fl32_one. now apply fl32_mono. }
  erewrite (rnd32_between _ 0 1); [| reflexivity | exact Hr0 | exact Hr1 | reflexivity].
  split; assumption.
Qed.

(** Two boxes whose areas round to zero: the quotient is [0 / 0]. *)
Lemma iou32_degenerate a b A B :
  corner_form a -> corner_form b ->
  box_area32 (fbox_of a) = Fin A -> box_area32 (fbox_of b) = Fin B ->
  A == 0 -> B == 0 ->
  iou32 (fbox_of a) (fbox_of b) = NaN.
Proof.
  intros Ca Cb HA HB HA0 HB0.
  destruct (box_inter32_fin a b A B Ca Cb HA HB) as (I & HI & HI0 & HIA & HIB & HIr).
  unfold iou32. rewrite HI, HA, HB. cbn [f32_add].
  rewrite (rnd32_zero (A + B)) by lra. cbn [f32_sub].
  rewrite (rnd32_zero (0 - I)) by lra. cbn [f32_div].
  assert (Hi : I == 0) by lra.
  now rewrite (Qeq_eq_bool _ _ Hi).
Qed.

(** A box against itself: the quotient is 1 when the area is positive
    and twice the area is still finite. *)
Lemma iou32_self a A :
  corner_form a -> box_area32 (fbox_of a) = Fin A ->
  0 < A -> 2 * A < 2 ^ 128 ->
  iou32 (fbox_of a) (fbox_of a) = Fin 1.
Proof.
  intros Ca HA Hpos Hfin.
  destruct (box_area32_fin a A Ca HA) as (Hw & Hw' & Hh & Hh' & EA & HA0 & HA1).
  assert (HAr : fl32 A == A) by (rewrite EA; apply fl32_idem).
  assert (HI : box_inter32 (fbox_of a) (fbox_of a) = Fin A).
  { rewrite box_inter32_of.
    assert (Hax : forall lo hi, lo <= hi -> fl32 (hi - lo) < 2 ^ 128 ->
              f32_clamp0 (rnd32 (Qmin hi hi - Qmax lo lo)) = Fin (fl32 (hi - lo))).
    { intros lo hi Hle Hb.
      assert (E : Qmin hi hi - Qmax lo lo == hi - lo).
      { rewrite Q.min_id, Q.max_id. reflexivity. }
      rewrite (rnd32_proper _ _ E).
      assert (H0 : 0 <= fl32 (hi - lo)) by (apply fl32_nonneg; lra).
      erewrite (rnd32_between _ 0); [| reflexivity | exact H0 | apply Qle_refl | exact Hb].
      unfold f32_clamp0. cbn [f32_ltb].
      now rewrite (proj2 (Qltb_ge _ _) H0). }
    destruct Ca as [Cx Cy].
    rewrite (Hax _ _ Cx Hw'), (Hax _ _ Cy Hh'). cbn [f32_mul].
    rewrite EA.
    eapply (rnd32_between _ 0); [reflexivity | | apply Qle_refl |];
      rewrite <- EA; assumption. }
  unfold iou32. rewrite HI, HA. cbn [f32_add].
  assert (E2 : A + A == 2 * fl32 A) by lra.
  assert (Hs : rnd32 (A + A) = Fin (fl32 (A + A))).
  { eapply (rnd32_between _ 0 (2 * A)); [reflexivity | | | exact Hfin].
    - apply fl32_nonneg. lra.
    - rewrite (fl32_proper _ _ E2), fl32_double. lra. }
  rewrite Hs. cbn [f32_sub].
  assert (E1 : fl32 (A + A) - A == fl32 A).
  { rewrite (fl32_proper _ _ E2), fl32_double. lra. }
  rewrite (rnd32_proper _ _ E1).
  assert (Hu : rnd32 (fl32 A) = Fin (fl32 (fl32 A))).
  { eapply (rnd32_between _ 0 A); [reflexivity | | | exact HA1];
      rewrite fl32_idem; lra. }
  rewrite Hu. cbn [f32_div].
  destruct (Qeq_bool (fl32 (fl32 A)) 0) eqn:Eu.
  - apply Qeq_bool_eq in Eu. rewrite fl32_idem in Eu. lra.
  - assert (E : A / fl32 (fl32 A) == 1).
    { rewrite fl32_idem, HAr. field. lra. }
    now rewrite (rnd32_proper _ _ E).
Qed.

End iou32_range.

(** ** The float model: sorting and the kernel *)

Section sorting32.

Lemma insert_desc32_perm p l : insert_desc32 p l ≡ₚ p :: l.
Proof.
  induction l as [| q l IH]; simpl; [reflexivity |].
  destruct (f32_ltb _ _); [reflexivity |].
  rewrite IH. apply perm_swap.
Qed.

Lemma sort_desc32_foldl_perm acc l :
  foldl (fun acc p => insert_desc32 p acc) acc l ≡ₚ acc ++ l.
Proof.
  revert acc. induction l as [| p l IH]; intros acc; simpl.
  - now rewrite app_nil_r.
  - rewrite IH, insert_desc32_perm. simpl. apply Permutation_middle.
Qed.

Lemma sort_desc32_perm l : sort_desc32 l ≡ₚ l.
Proof. apply sort_desc32_foldl_perm. Qed.

Lemma indexed32_fst (scores : list fnum) :
  (imap pair scores).*1 = seq 0 (length scores).
Proof.
  rewrite fmap_imap.
  rewrite (imap_ext _ (fun j _ => j) scores) by reflexivity.
  rewrite (imap_seq_0 scores (fun j => j)). apply list_fmap_id.
Qed.

(** The order found by [argsort_desc32] is a permutation of the
    indices. *)
Lemma argsort_desc32_perm scores :
  argsort_desc32 scores ≡ₚ seq 0 (length scores).
Proof.
  unfold argsort_desc32. now rewrite sort_desc32_perm, indexed32_fst.
Qed.

Lemma argsort_desc32_lt scores i :
  i ∈ argsort_desc32 scores <-> i < length scores.
Proof. rewrite argsort_desc32_perm, elem_of_seq. lia. Qed.

Lemma argsort_desc32_length scores :
  length (argsort_desc32 scores) = length scores.
Proof. now rewrite argsort_desc32_perm, length_seq. Qed.

(** A pair that is above no entry goes to the end. *)
Lemma insert_desc32_last p l :
  Forall (fun q => f32_ltb (snd q) (snd p) = false) l ->
  insert_desc32 p l = l ++ [p].
Proof.
  induction 1 as [| q l Hq _ IH]; simpl; [reflexivity |].
  now rewrite Hq, IH.
Qed.

(** Scores that are all the same number are visited in index order. *)
Lemma argsort_desc32_const (s : fnum) n :
  f32_ltb s s = false ->
  argsort_desc32 (replicate n s) = seq 0 n.
Proof.
  intros Hs. unfold argsort_desc32, sort_desc32.
  assert (Hgen : forall (l : list (nat * fnum)) acc,
            Forall (fun q => snd q = s) acc -> Forall (fun q => snd q = s) l ->
            foldl (fun acc p => insert_desc32 p acc) acc l = acc ++ l).
  { induction l as [| p l IH]; intros acc Hacc Hl; simpl.
    - now rewrite app_nil_r.
    - apply Forall_cons in Hl as [Hp Hl].
      rewrite insert_desc32_last.
      + rewrite IH, <- app_assoc; [reflexivity | | exact Hl].
        apply Forall_app. split; [exact Hacc | now constructor].
      + eapply Forall_impl; [exact Hacc |]. intros q Hq. simpl in Hq.
        now rewrite Hq, Hp. }
  rewrite (Hgen _ []); [| constructor |].
  - simpl. rewrite indexed32_fst. now rewrite length_replicate.
  - rewrite Forall_forall. intros [j t] Hj.
    apply elem_of_lookup_imap in Hj as (k & y & [= -> ->] & Hk).
    simpl. now apply lookup_replicate_1 in Hk as [-> _].
Qed.


End sorting32.

Section kernel32.
Variable boxes : list fbox.
Variable thr : Q.

Lemma suppress_from32_length i rest s :
  length (suppress_from32 boxes thr i rest s) = length s.
Proof.
  unfold suppress_from32. revert s.
  induction rest as [| j rest IH]; intros s; simpl; [reflexivity |].
  rewrite IH. destruct (suppressed_at s j); [reflexivity |].
  destruct (overlaps32 _ _ _ _); [apply length_insert | reflexivity].
Qed.

(** The marks after the inner loop: the marks before it, and the boxes of
    [rest] that overlap the kept box. *)
Lemma suppress_from32_spec i rest s k :
  Forall (fun j => j < length s) rest ->
  suppressed_at (suppress_from32 boxes thr i rest s) k = true <->
  suppressed_at s k = true \/ (k ∈ rest /\ overlaps32 boxes thr i k = true).
Proof.
  unfold suppress_from32. revert s.
  induction rest as [| j rest IH]; intros s Hlt; simpl.
  - rewrite elem_of_nil. tauto.
  - apply Forall_cons in Hlt as [Hj Hlt].
    rewrite elem_of_cons.
    destruct (suppressed_at s j) eqn:Ej.
    + rewrite IH by assumption. split; [tauto |].
      intros [? | [[-> | ?] ?]]; auto.
    + destruct (overlaps32 boxes thr i j) eqn:Eo.
      * rewrite IH by (now rewrite length_insert).
        rewrite suppressed_at_insert.
        destruct (decide _) as [[-> _] | Hn]; [tauto |].
        split; [tauto |].
        intros [? | [[-> | ?] ?]]; try (exfalso; apply Hn; done); auto.
      * rewrite IH by assumption. split; [tauto |].
        intros [? | [[-> | ?] ?]]; auto. congruence.
Qed.

Lemma nms_loop32_sublist order s :
  nms_loop32 boxes thr order s `sublist_of` order.
Proof.
  revert s. induction order as [| i rest IH]; intros s; simpl.
  - constructor.
  - destruct (suppressed_at s i); [apply sublist_cons | apply sublist_skip];
      apply IH.
Qed.

Lemma nms_loop32_unsuppressed order s k :
  Forall (fun j => j < length s) order ->
  k ∈ nms_loop32 boxes thr order s -> suppressed_at s k = false.
Proof.
  revert s. induction order as [| i rest IH]; intros s Hlt; simpl.
  - now rewrite elem_of_nil.
  - apply Forall_cons in Hlt as [Hi Hlt].
    destruct (suppressed_at s i) eqn:Ei; [now apply IH |].
    rewrite elem_of_cons. intros [-> | Hk]; [exact Ei |].
    apply IH in Hk; [| now rewrite suppress_from32_length].
    destruct (suppressed_at s k) eqn:Ek; [| reflexivity].
    assert (suppressed_at (suppress_from32 boxes thr i rest s) k = true)
      by (apply suppress_from32_spec; auto).
    congruence.
Qed.

(** No kept box overlaps, by the test of the kernel, a box kept after
    it. *)
Lemma nms_loop32_pairwise order s :
  Forall (fun j => j < length s) order ->
  StronglySorted (fun i j => overlaps32 boxes thr i j = false)
                 (nms_loop32 boxes thr order s).
Proof.
  revert s. induction order as [| i rest IH]; intros s Hlt; simpl.
  - constructor.
  - apply Forall_cons in Hlt as [Hi Hlt].
    destruct (suppressed_at s i) eqn:Ei; [now apply IH |].
    constructor; [apply IH; now rewrite suppress_from32_length |].
    rewrite Forall_forall. intros k Hk.
    pose proof (sublist_subseteq _ _ (nms_loop32_sublist _ _) _ Hk) as Hin.
    apply nms_loop32_unsuppressed in Hk; [| now rewrite suppress_from32_length].
    destruct (overlaps32 boxes thr i k) eqn:Eo; [| reflexivity].
    assert (suppressed_at (suppress_from32 boxes thr i rest s) k = true)
      by (apply suppress_from32_spec; auto).
    congruence.
Qed.


(** With no overlap between a box and a later one and no mark at the
    start, every box is kept. *)
Lemma nms_loop32_keeps_all order s :
  Forall (fun j => j < length s) order ->
  Forall (fun j => suppressed_at s j = false) order ->
  StronglySorted (fun i j => overlaps32 boxes thr i j = false) order ->
  nms_loop32 boxes thr order s = order.
Proof.
  revert s. induction order as [| i rest IH]; intros s Hlt Hun Hs; simpl.
  - reflexivity.
  - apply Forall_cons in Hlt as [Hi Hlt]. apply Forall_cons in Hun as [Hui Hun].
    apply StronglySorted_inv in Hs as [Hs Hhd].
    rewrite Hui. f_equal. apply IH.
    + now rewrite suppress_from32_length.
    + rewrite Forall_forall in *. intros j Hj.
      destruct (suppressed_at _ j) eqn:E; [| reflexivity].
      apply suppress_from32_spec in E; [| now apply Forall_forall].
      destruct E as [E | [_ E]].
      * rewrite Hun in E by assumption. discriminate.
      * rewrite Hhd in E by assumption. discriminate.
    + exact Hs.
Qed.

End kernel32.

Section nms32_facts.
Variable boxes : list fbox.
Variable scores : list fnum.
Variable thr : Q.
Hypothesis same_length : length boxes = length scores.

Lemma nms32_order_lt :
  Forall (fun j => j < length (replicate (length boxes) false))
         (argsort_desc32 scores).
Proof.
  rewrite Forall_forall. intros j Hj. apply argsort_desc32_lt in Hj.
  rewrite length_replicate. lia.
Qed.

Lemma nms32_sublist : nms32 boxes scores thr `sublist_of` argsort_desc32 scores.
Proof. apply nms_loop32_sublist. Qed.


Lemma nms32_length : length (nms32 boxes scores thr) <= length boxes.
Proof.
  rewrite (sublist_length _ _ nms32_sublist), argsort_desc32_length. lia.
Qed.

Lemma nms32_pairwise :
  StronglySorted (fun i j => overlaps32 boxes thr i j = false)
                 (nms32 boxes scores thr).
Proof. apply nms_loop32_pairwise, nms32_order_lt. Qed.


End nms32_facts.

(** ** The float model: the "Batched NMS" step *)

Section batched32.
Variable x : list fdet.
Variable agnostic : bool.
Variable iou_thres : Q.
Variable max_det : Z.

Lemma nms_keep32_lengths :
  length (offset_box32 agnostic <$> x) = length (fd_conf <$> x).
Proof. now rewrite !length_fmap. Qed.


Lemma batched_nms32_rows out :
  batched_nms32 x agnostic iou_thres max_det = Ok out ->
  Forall2 (fun k d => x !! k = Some d)
          (limit_det max_det (nms_keep32 x agnostic iou_thres)) out.
Proof. apply rows_spec. Qed.

Lemma overlaps32_offset i j a b :
  x !! i = Some a -> x !! j = Some b ->
  overlaps32 (offset_box32 agnostic <$> x) iou_thres i j =
  fgt (kernel_iou (offset_box32 agnostic a) (offset_box32 agnostic b)) iou_thres.
Proof.
  intros Ha Hb. unfold overlaps32. now rewrite !list_lookup_fmap, Ha, Hb.
Qed.

(** No row returned by the step overlaps, by the test of the kernel on
    the offset boxes, a row returned after it. *)
Lemma batched_nms32_offset_apart out :
  batched_nms32 x agnostic iou_thres max_det = Ok out ->
  StronglySorted (offset_apart32 agnostic iou_thres) out.
Proof.
  intros Hout. apply batched_nms32_rows in Hout.
  eapply (StronglySorted_Forall2 _ _ _ _ _ Hout).
  2: { eapply StronglySorted_sublist; [apply limit_det_sublist |].
       apply nms32_pairwise, nms_keep32_lengths. }
  intros i j a b Hij Ha Hb. simpl in *. unfold offset_apart32.
  now rewrite <- (overlaps32_offset _ _ _ _ Ha Hb).
Qed.

Lemma batched_nms32_length out :
  (0 <= max_det)%Z ->
  batched_nms32 x agnostic iou_thres max_det = Ok out ->
  (Z.of_nat (length out) <= max_det)%Z.
Proof.
  intros Hm Hout%batched_nms32_rows.
  rewrite <- (Forall2_length _ _ _ Hout). now apply limit_det_length.
Qed.

Lemma batched_nms32_length_le out :
  batched_nms32 x agnostic iou_thres max_det = Ok out ->
  length out <= length x.
Proof.
  intros Hout%batched_nms32_rows.
  rewrite <- (Forall2_length _ _ _ Hout).
  rewrite (sublist_length _ _ (limit_det_sublist _ _)).
  unfold nms_keep32. rewrite nms32_length by apply nms_keep32_lengths.
  now rewrite length_fmap.
Qed.

Lemma batched_nms32_elem_of out d :
  batched_nms32 x agnostic iou_thres max_det = Ok out -> d ∈ out -> d ∈ x.
Proof.
  intros Hout%batched_nms32_rows Hd.
  apply list_elem_of_lookup_1 in Hd as [p Hp].
  destruct (Forall2_lookup_r _ _ _ _ _ Hout Hp) as (k & _ & Hk).
  now apply list_elem_of_lookup_2 in Hk.
Qed.


End batched32.

(** ** The float model: selection *)

Section selection32.
Variable conf_thres : Q.

Lemma elem_of_indexed32 (scores : list fnum) i s :
  (i, s) ∈ imap pair scores <-> scores !! i = Some s.
Proof.
  rewrite elem_of_lookup_imap. split.
  - intros (j & y & [= -> ->] & H). exact H.
  - intros H. now exists i, s.
Qed.

Lemma row_max32_from_spec best bi i l :
  row_max32_from best bi i l = (best, bi) \/
  exists k, l !! k = Some (fst (row_max32_from best bi i l)) /\
            snd (row_max32_from best bi i l) = i + k.
Proof.
  revert best bi i. induction l as [| s l IH]; intros best bi i; simpl.
  - now left.
  - destruct (f32_ltb best s).
    + right. destruct (IH s i (S i)) as [-> | (k & Hk & Hj)].
      * exists 0. simpl. split; [reflexivity | lia].
      * exists (S k). simpl. split; [exact Hk | lia].
    + destruct (IH best bi (S i)) as [-> | (k & Hk & Hj)]; [now left |].
      right. exists (S k). simpl. split; [exact Hk | lia].
Qed.

Lemma row_max32_spec l m :
  row_max32 l = Ok m -> l !! snd m = Some (fst m).
Proof.
  destruct l as [| s l]; simpl; [discriminate |]. intros [= <-].
  destruct (row_max32_from_spec s 0 1 l) as [-> | (k & Hk & ->)]; [reflexivity |].
  exact Hk.
Qed.

Lemma select_best32_spec x sel :
  select_best32 conf_thres x = Ok sel ->
  Forall (selected_from32 conf_thres x) sel.
Proof.
  unfold select_best32.
  destruct (traverse _ x) as [ds |] eqn:Et; [| discriminate].
  cbn [mbind result_bind rbind]. intros [= <-].
  apply traverse_spec in Et. rewrite Forall_forall. intros d Hd.
  apply list_elem_of_filter in Hd as [Hc Hd].
  apply list_elem_of_lookup_1 in Hd as [p Hp].
  destruct (Forall2_lookup_r _ _ _ _ _ Et Hp) as (a & Ha & Hda).
  destruct (row_max32 (r_cls a)) as [m |] eqn:Em; [| discriminate].
  cbn [mbind result_bind rbind] in Hda. injection Hda as <-.
  exists a. split; [now apply list_elem_of_lookup_2 in Ha |].
  split; [reflexivity |]. split; [now apply row_max32_spec | exact Hc].
Qed.

Lemma select_multi32_spec x :
  Forall (selected_from32 conf_thres x) (select_multi32 conf_thres x).
Proof.
  unfold select_multi32. rewrite Forall_forall. intros d Hd.
  apply list_elem_of_bind in Hd as (a & Hd & Ha).
  apply list_elem_of_omap in Hd as ([j s] & Hjs & Hd). simpl in Hd.
  destruct (gt_scalar s conf_thres) eqn:Es; [| discriminate]. injection Hd as <-.
  apply elem_of_indexed32 in Hjs.
  exists a. now repeat split.
Qed.

Lemma select32_spec multi_label x sel :
  select32 conf_thres multi_label x = Ok sel ->
  Forall (selected_from32 conf_thres x) sel.
Proof.
  unfold select32. destruct multi_label.
  - intros [= <-]. apply select_multi32_spec.
  - apply select_best32_spec.
Qed.

End selection32.

Section class_filter32.
Variable classes : option (list Z).

Lemma filter_classes32_spec sel d :
  d ∈ filter_classes32 classes sel <-> class_allowed32 classes d /\ d ∈ sel.
Proof.
  unfold filter_classes32, class_allowed32. destruct classes as [cl |].
  - now rewrite list_elem_of_filter.
  - tauto.
Qed.

Lemma filter_classes32_all x :
  Forall (class_allowed32 classes) x -> filter_classes32 classes x = x.
Proof.
  unfold filter_classes32, class_allowed32. destruct classes as [cl |]; [| done].
  induction 1 as [| d x Hd _ IH]; [reflexivity |].
  rewrite filter_cons_True by exact Hd. now f_equal.
Qed.

End class_filter32.

(** ** The float model: the loop body and the loop *)

Section loop_body32.
Variable nc : nat.
Variables conf_thres iou_thres : Q.
Variable classes : option (list Z).
Variables agnostic multi_label : bool.
Variable labels : list (list label).
Variable max_det : Z.

Lemma detect32_inv x0 r :
  detect32 conf_thres iou_thres classes agnostic multi_label max_det x0 = Ok r ->
  exists sel,
    select32 conf_thres multi_label x0 = Ok sel /\
    match r with
    | None => filter_classes32 classes sel = []
    | Some dets =>
        exists x,
          filter_classes32 classes sel <> [] /\
          Forall (fun d => d ∈ filter_classes32 classes sel) x /\
          (Z.of_nat (length x) <= max_nms)%Z /\
          batched_nms32 x agnostic iou_thres max_det = Ok dets
    end.
Proof.
  unfold detect32.
  destruct (select32 conf_thres multi_label x0) as [sel |]; [| discriminate].
  cbn [mbind result_bind rbind].
  set (x1 := filter_classes32 classes sel).
  destruct (decide (length x1 = 0)) as [E | E].
  - intros [= <-]. exists sel. split; [reflexivity |].
    now apply length_zero_iff_nil.
  - destruct (Z.ltb_spec max_nms (Z.of_nat (length x1))) as [Hbig | Hsmall].
    + destruct (rows x1 _) as [x |] eqn:Ex; [| discriminate].
      cbn [mbind result_bind rbind].
      destruct (batched_nms32 x _ _ _) as [dets |] eqn:Eb; [| discriminate].
      intros [= <-]. exists sel. split; [reflexivity |]. exists x.
      apply rows_spec in Ex.
      split; [intros Hnil; apply E; subst x1; now rewrite Hnil |]. split; [| split].
      * rewrite Forall_forall. intros d Hd.
        apply list_elem_of_lookup_1 in Hd as [p Hp].
        destruct (Forall2_lookup_r _ _ _ _ _ Ex Hp) as (k & _ & Hk).
        now apply list_elem_of_lookup_2 in Hk.
      * rewrite <- (Forall2_length _ _ _ Ex).
        apply py_take_length_le. unfold max_nms. lia.
      * exact Eb.
    + cbn [mbind result_bind rbind].
      destruct (batched_nms32 x1 _ _ _) as [dets |] eqn:Eb; [| discriminate].
      intros [= <-]. exists sel. split; [reflexivity |]. exists x1.
      split; [intros Hnil; apply E; subst x1; now rewrite Hnil |]. split; [| split].
      * now rewrite Forall_forall.
      * exact Hsmall.
      * exact Eb.
Qed.

Lemma per_image32_inv xi x0 mask r :
  per_image32 nc conf_thres iou_thres classes agnostic multi_label labels
              max_det xi x0 mask = Ok r ->
  exists c,
    candidates nc labels xi x0 mask = Ok c /\
    match r with
    | None =>
        c = [] \/
        exists sel, select32 conf_thres multi_label (fuse32 <$> c) = Ok sel /\
                    filter_classes32 classes sel = []
    | Some dets =>
        exists sel x,
          c <> [] /\
          select32 conf_thres multi_label (fuse32 <$> c) = Ok sel /\
          filter_classes32 classes sel <> [] /\
          Forall (fun d => d ∈ filter_classes32 classes sel) x /\
          (Z.of_nat (length x) <= max_nms)%Z /\
          batched_nms32 x agnostic iou_thres max_det = Ok dets
    end.
Proof.
  unfold per_image32.
  destruct (candidates nc labels xi x0 mask) as [c |]; [| discriminate].
  cbn [mbind result_bind rbind]. destruct c as [| a c].
  - intros [= <-]. exists []. split; [reflexivity | now left].
  - intros Hd. apply detect32_inv in Hd as (sel & Hsel & Hr).
    exists (a :: c). split; [reflexivity |]. destruct r as [dets |].
    + destruct Hr as (x & ? & ? & ? & ?). exists sel, x. repeat split; try done.
    + right. now exists sel.
Qed.

Lemma per_image32_batched xi x0 mask dets :
  per_image32 nc conf_thres iou_thres classes agnostic multi_label labels
              max_det xi x0 mask = Ok (Some dets) ->
  exists x, batched_nms32 x agnostic iou_thres max_det = Ok dets.
Proof.
  intros H%per_image32_inv. destruct H as (c & _ & sel & x & _ & _ & _ & _ & _ & H).
  now exists x.
Qed.

End loop_body32.

Section image_loop32_facts.
Variable nc : nat.
Variables conf_thres iou_thres : Q.
Variable classes : option (list Z).
Variables agnostic multi_label : bool.
Variable labels : list (list label).
Variable max_det : Z.
Variable xc : list (list bool).

Local Abbreviation body :=
  (per_image32 nc conf_thres iou_thres classes agnostic multi_label labels
               max_det).
Local Abbreviation loop :=
  (image_loop32 nc conf_thres iou_thres classes agnostic multi_label labels
                max_det).

Lemma image_loop32_spec images xi output out :
  loop xi images xc output = Ok out ->
  length out = length output /\
  (forall k, k < xi -> out !! k = output !! k) /\
  (forall k, xi + length images <= k -> out !! k = output !! k) /\
  (forall j x, images !! j = Some x ->
     exists r, body (xi + j) x (xc !!! (xi + j)) = Ok r /\
       (xi + j < length output ->
        out !! (xi + j) = match r with
                          | Some dets => Some dets
                          | None => output !! (xi + j)
                          end)).
Proof.
  revert xi output.
  induction images as [| x images IH]; intros xi output; simpl.
  - intros [= <-]. repeat split; auto. intros j x. now rewrite lookup_nil.
  - destruct (per_image32 _ _ _ _ _ _ _ _ xi x _) as [r |] eqn:Er; [| discriminate].
    cbn [mbind result_bind rbind]. intros Hloop.
    apply IH in Hloop as (Hlen & Hlow & Hhigh & Himg).
    set (output' := match r with
                    | Some dets => <[xi:=dets]> output
                    | None => output
                    end) in *.
    assert (Hlen' : length output' = length output).
    { subst output'. destruct r; [apply length_insert | reflexivity]. }
    assert (Hother : forall k, k <> xi -> output' !! k = output !! k).
    { intros k Hk. subst output'. destruct r; [| reflexivity].
      now apply list_lookup_insert_ne. }
    split; [congruence |]. split; [| split].
    + intros k Hk. rewrite Hlow by lia. apply Hother. lia.
    + intros k Hk. rewrite Hhigh by lia. apply Hother. lia.
    + intros [| j] y; simpl.
      * intros [= <-]. rewrite Nat.add_0_r. exists r. split; [exact Er |].
        intros Hxi. rewrite Hlow by lia. subst output'.
        destruct r; [now apply list_lookup_insert_eq | reflexivity].
      * intros Hy. destruct (Himg j y Hy) as (r' & Hr' & Hout).
        replace (xi + S j) with (S xi + j) by lia.
        exists r'. split; [exact Hr' |]. intros Hlt.
        rewrite Hout by lia. destruct r'; [reflexivity |].
        apply Hother. lia.
Qed.

Lemma image_loop32_ok images xi output :
  (forall j x, images !! j = Some x ->
     exists r, body (xi + j) x (xc !!! (xi + j)) = Ok r) ->
  exists out, loop xi images xc output = Ok out.
Proof.
  revert xi output.
  induction images as [| x images IH]; intros xi output Hbody; simpl.
  - now eexists.
  - destruct (Hbody 0 x eq_refl) as [r Hr]. rewrite Nat.add_0_r in Hr.
    rewrite Hr. cbn [mbind result_bind rbind]. apply IH.
    intros j y Hy. replace (S xi + j) with (xi + S j) by lia.
    now apply (Hbody (S j)).
Qed.

End image_loop32_facts.

Section nms32_function.
Variable p : prediction.
Variables conf_thres iou_thres : Q.
Variable classes : option (list Z).
Variables agnostic multi_label : bool.
Variable labels : list (list label).
Variable max_det : Z.

Local Abbreviation multi := (multi_label && (1 <? p_nc p)).
Local Abbreviation body :=
  (per_image32 (p_nc p) conf_thres iou_thres classes agnostic multi labels
               max_det).

Lemma xc32_lookup xi x :
  p_images p !! xi = Some x ->
  (objectness_mask32 conf_thres <$> p_images p) !!! xi =
  objectness_mask32 conf_thres x.
Proof.
  intros Hx. apply list_lookup_total_correct.
  now rewrite list_lookup_fmap, Hx.
Qed.

Lemma nms32_valid :
  valid_thres conf_thres = true -> valid_thres iou_thres = true ->
  non_max_suppression32 p conf_thres iou_thres classes agnostic multi_label
                        labels max_det =
  image_loop32 (p_nc p) conf_thres iou_thres classes agnostic multi labels
               max_det 0 (p_images p)
               (objectness_mask32 conf_thres <$> p_images p)
               (replicate (length (p_images p)) []).
Proof.
  intros Hc Hi. unfold non_max_suppression32. now rewrite Hc, Hi.
Qed.

(** A result of the function: the thresholds were valid, and slot [xi]
    holds what the loop body returned for image [xi], or the initial empty
    tensor when the body went on to the next image. *)
Lemma nms32_spec out :
  non_max_suppression32 p conf_thres iou_thres classes agnostic multi_label
                        labels max_det = Ok out ->
  valid_thres conf_thres = true /\ valid_thres iou_thres = true /\
  length out = length (p_images p) /\
  forall xi x, p_images p !! xi = Some x ->
    exists r, body xi x (objectness_mask32 conf_thres x) = Ok r /\
              out !! xi = Some (default [] r).
Proof.
  unfold non_max_suppression32.
  destruct (valid_thres conf_thres); [| discriminate].
  destruct (valid_thres iou_thres); [| discriminate].
  cbn [assert mbind result_bind rbind]. intros Hloop.
  apply image_loop32_spec in Hloop as (Hlen & _ & _ & Himg).
  rewrite length_replicate in Hlen.
  split; [reflexivity |]. split; [reflexivity |]. split; [exact Hlen |].
  intros xi x Hx. destruct (Himg xi x Hx) as (r & Hr & Hout).
  simpl in Hr, Hout. rewrite (xc32_lookup _ _ Hx) in Hr.
  exists r. split; [exact Hr |].
  rewrite Hout by (rewrite length_replicate; now apply lookup_lt_Some in Hx).
  destruct r; [reflexivity |]. simpl.
  apply lookup_replicate_2. now apply lookup_lt_Some in Hx.
Qed.

(** The detections of an image are empty or come out of the "Batched NMS"
    step. *)
Lemma nms32_image_cases out xi dets :
  non_max_suppression32 p conf_thres iou_thres classes agnostic multi_label
                        labels max_det = Ok out ->
  out !! xi = Some dets ->
  dets = [] \/ exists x, batched_nms32 x agnostic iou_thres max_det = Ok dets.
Proof.
  intros (_ & _ & Hlen & Himg)%nms32_spec Hd.
  assert (Hxi : xi < length (p_images p))
    by (rewrite <- Hlen; now apply lookup_lt_Some in Hd).
  destruct (lookup_lt_is_Some_2 _ _ Hxi) as [x Hx].
  destruct (Himg xi x Hx) as (r & Hr & Hout).
  rewrite Hd in Hout. injection Hout as ->.
  destruct r as [dets |]; [right | now left].
  now apply per_image32_batched in Hr.
Qed.

Lemma nms32_ok :
  valid_thres conf_thres = true -> valid_thres iou_thres = true ->
  (forall xi x, p_images p !! xi = Some x ->
     exists r, body xi x (objectness_mask32 conf_thres x) = Ok r) ->
  exists out,
    non_max_suppression32 p conf_thres iou_thres classes agnostic multi_label
                          labels max_det = Ok out.
Proof.
  intros Hc Hi Hbody. rewrite nms32_valid by assumption.
  apply image_loop32_ok. intros j x Hx. simpl.
  rewrite (xc32_lookup _ _ Hx). now apply Hbody.
Qed.

End nms32_function.

(** ** The float model: the class offset *)

Section fnum_order.
Local Open Scope Q_scope.



Lemma rnd32_not_nan q : rnd32 q <> NaN.
Proof. unfold rnd32. now destruct (Qle_bool _ _). Qed.

(** Rounding is monotone, also where it overflows. *)
Lemma rnd32_mono p q : p <= q -> fle (rnd32 p) (rnd32 q).
Proof.
  intros Hpq. pose proof (fl32_mono p q Hpq) as Hm.
  pose proof pow128_pos as H128.
  destruct (rnd32_cases p) as [[-> Hp] | [[-> Hp] | [-> Hp]]],
           (rnd32_cases q) as [[-> Hq] | [[-> Hq] | [-> Hq]]]; simpl;
    try easy; try lra.
  - apply Qabs_Qlt_condition in Hp. lra.
  - apply Qabs_Qlt_condition in Hq. lra.
Qed.










Lemma f32_div_zero_or_nan x u : zero_or_nan x -> zero_or_nan (f32_div x u).
Proof.
  destruct x as [p | s |]; cbn [zero_or_nan f32_div]; [| easy | easy]. intros Hp.
  destruct u as [q | t |]; cbn [zero_or_nan]; [| reflexivity | exact I].
  rewrite (Qeq_eq_bool _ _ Hp).
  destruct (Qeq_bool q 0) eqn:E; [exact I |].
  apply Qeq_bool_neq in E. rewrite rnd32_zero; [reflexivity |].
  rewrite Hp. field. exact E.
Qed.


End fnum_order.

Section kernel_axis.
Local Open Scope Q_scope.
Variable thr : Q.
Hypothesis thr_nonneg : 0 <= thr.


End kernel_axis.

Section class_offsets32.
Local Open Scope Q_scope.
Variable thr : Q.
Hypothesis thr_nonneg : 0 <= thr.

(** The class of a row converts to a float as it is. *)
Lemma cls32_exact d :
  exact_class d ->
  exists c, cls32 (fd_cls d) = Fin c /\ c == inject_Z (Z.of_nat (fd_cls d)).
Proof.
  unfold exact_class, cls32. intros Hd. set (j := Z.of_nat (fd_cls d)) in *.
  assert (Hj : fl32 (inject_Z j) == inject_Z j) by (apply fl32_int; lia).
  assert (H0 : 0 <= inject_Z j).
  { change 0 with (inject_Z 0). rewrite <- Zle_Qle. lia. }
  assert (H1 : inject_Z j < inject_Z (2 ^ 24)) by now rewrite <- Zlt_Qlt.
  exists (fl32 (inject_Z j)). split; [| exact Hj].
  eapply (rnd32_between _ 0 (inject_Z (2 ^ 24))); [reflexivity | | | reflexivity];
    lra.
Qed.


(** With [agnostic] set the offset is zero. *)
Lemma class_offset32_agnostic d :
  exact_class d -> class_offset32 true d = Fin 0.
Proof.
  intros Hd. destruct (cls32_exact d Hd) as (c & Hc & _).
  unfold class_offset32. rewrite Hc. cbn [f32_mul].
  apply rnd32_zero. ring.
Qed.




End class_offsets32.

Section kernel_finite.
Local Open Scope Q_scope.

Lemma std_max_fin p q :
  std_max (Fin p) (Fin q) = Fin (if Qltb p q then q else p).
Proof. unfold std_max. simpl. now destruct (Qltb p q). Qed.

Lemma std_min_fin p q :
  std_min (Fin p) (Fin q) = Fin (if Qltb q p then q else p).
Proof. unfold std_min. simpl. now destruct (Qltb q p). Qed.

Lemma inf_times_proper s p p' : p == p' -> inf_times s p = inf_times s p'.
Proof.
  intros Hp. unfold inf_times.
  rewrite (Qltb_proper 0 0 (Qeq_refl 0) p p' Hp).
  destruct (Qeq_bool p 0) eqn:E1, (Qeq_bool p' 0) eqn:E2; try reflexivity.
  - apply Qeq_bool_eq in E1. apply Qeq_bool_neq in E2. lra.
  - apply Qeq_bool_eq in E2. apply Qeq_bool_neq in E1. lra.
Qed.

#[export] Instance feq_f32_mul : Proper (feq ==> feq ==> eq) f32_mul.
Proof.
  intros x x' Hx y y' Hy.
  destruct x as [p | s |], x' as [p' | s' |]; simpl in Hx; try easy;
    destruct y as [q | t |], y' as [q' | t' |]; simpl in Hy; try easy;
    subst; cbn [f32_mul]; try reflexivity.
  - apply rnd32_proper. now apply Qmult_comp.
  - now apply inf_times_proper.
  - now apply inf_times_proper.
Qed.

(** On a rounded difference the clamp of the kernel and [.clamp(0)]
    agree up to the value of the number. *)
Lemma clamp_rnd32 d : feq (std_max (Fin 0) (rnd32 d)) (f32_clamp0 (rnd32 d)).
Proof.
  unfold std_max, f32_clamp0.
  destruct (rnd32_cases d) as [[-> _] | [[-> _] | [-> _]]]; cbn [f32_ltb];
    [| reflexivity | reflexivity].
  destruct (Qltb 0 (fl32 d)) eqn:E1, (Qltb (fl32 d) 0) eqn:E2; simpl;
    try reflexivity.
  - apply Qltb_lt in E1, E2. lra.
  - apply Qltb_ge in E1, E2. lra.
Qed.

(** On boxes of finite coordinates the kernel computes the quotient of
    [box_iou]. *)
Lemma kernel_iou_finite a b :
  kernel_iou (fbox_of a) (fbox_of b) = iou32 (fbox_of a) (fbox_of b).
Proof.
  assert (Hi : f32_mul
      (std_max (Fin 0) (f32_sub (std_min (Fin (bx2 a)) (Fin (bx2 b)))
                                (std_max (Fin (bx1 a)) (Fin (bx1 b)))))
      (std_max (Fin 0) (f32_sub (std_min (Fin (by2 a)) (Fin (by2 b)))
                                (std_max (Fin (by1 a)) (Fin (by1 b)))))
    = box_inter32 (fbox_of a) (fbox_of b)).
  { unfold box_inter32, fbox_of. cbn [fx1 fy1 fx2 fy2].
    rewrite !std_min_fin, !std_max_fin, !f32_min_fin, !f32_max_fin.
    cbn [f32_sub]. apply feq_f32_mul; apply clamp_rnd32. }
  unfold kernel_iou, iou32. cbn [fbox_of fx1 fy1 fx2 fy2] in *.
  now rewrite Hi.
Qed.


End kernel_finite.

Section two_candidates32.
Variables a b : fdet.
Variable agnostic : bool.
Variable thr : Q.



End two_candidates32.

(** ** The detections of an image in binary32 *)

Section stable_boxes.
Local Open Scope Q_scope.

Lemma fl32_canonical q : Qred (fl32 q) = fl32 q.
Proof.
  unfold fl32. destruct (Qeq_bool q 0); [reflexivity |].
  apply Qred_complete, Qred_correct.
Qed.

(** Rounding is idempotent, also as a term. *)
Lemma fl32_idem_eq q : fl32 (fl32 q) = fl32 q.
Proof.
  transitivity (Qred (fl32 (fl32 q))); [symmetry; apply fl32_canonical |].
  transitivity (Qred (fl32 q)); [| apply fl32_canonical].
  apply Qred_complete, fl32_idem.
Qed.

(** Adding zero to a rounded number leaves it as it is. *)
Lemma rnd32_add_zero q : f32_add (rnd32 q) (Fin 0) = rnd32 q.
Proof.
  destruct (rnd32_cases q) as [[E Hb] | [[E _] | [E _]]]; rewrite E;
    cbn [f32_add]; try reflexivity.
  assert (H : fl32 q + 0 == fl32 q) by ring.
  rewrite (rnd32_proper _ _ H). unfold rnd32. rewrite fl32_idem_eq.
  destruct (Qle_bool (2 ^ 128) (Qabs (fl32 q))) eqn:Eb; [| reflexivity].
  apply Qle_bool_iff in Eb. lra.
Qed.

Lemma f32_sub_add_zero c v : v <> NaN ->
  f32_add (f32_sub (Fin c) v) (Fin 0) = f32_sub (Fin c) v.
Proof.
  destruct v as [q | s |]; cbn [f32_sub]; [| reflexivity | easy].
  intros _. apply rnd32_add_zero.
Qed.

Lemma f32_add_add_zero c v : v <> NaN ->
  f32_add (f32_add (Fin c) v) (Fin 0) = f32_add (Fin c) v.
Proof.
  destruct v as [q | s |]; cbn [f32_add]; [| reflexivity | easy].
  intros _. apply rnd32_add_zero.
Qed.

Lemma half32_not_nan w : f32_div (Fin w) (Fin 2) <> NaN.
Proof.
  cbn [f32_div]. change (Qeq_bool 2 0) with false. cbv iota.
  apply rnd32_not_nan.
Qed.

(** A box that [xywh2xyxy] returns is handed to [nms] as it is when the
    offset is zero. *)
Lemma offset_box32_zero agnostic d r :
  fd_box d = anchor_box32 r -> class_offset32 agnostic d = Fin 0 ->
  offset_box32 agnostic d = fd_box d.
Proof.
  intros Hb Hc. unfold offset_box32. rewrite Hc, Hb.
  unfold anchor_box32, xywh2xyxy32. cbn [fx1 fy1 fx2 fy2].
  now rewrite !f32_sub_add_zero, !f32_add_add_zero by apply half32_not_nan.
Qed.

Lemma class_offset32_zero agnostic d :
  exact_class d -> no_offset agnostic d -> class_offset32 agnostic d = Fin 0.
Proof.
  intros Hd [-> | H0]; [now apply class_offset32_agnostic |].
  destruct (cls32_exact d Hd) as (c & Hc & Ec).
  unfold class_offset32. rewrite Hc. cbn [f32_mul].
  apply rnd32_zero. rewrite Ec, H0. destruct agnostic; reflexivity.
Qed.

End stable_boxes.

Section detections32.
Variable p : prediction.
Variables conf_thres iou_thres : Q.
Variable classes : option (list Z).
Variables agnostic multi_label : bool.
Variable labels : list (list label).
Variable max_det : Z.

(** The box of a detection is a box that [xywh2xyxy] returned. *)
Lemma nms32_detection_box out xi dets d :
  non_max_suppression32 p conf_thres iou_thres classes agnostic multi_label
                        labels max_det = Ok out ->
  out !! xi = Some dets -> d ∈ dets ->
  exists r, fd_box d = anchor_box32 r.
Proof.
  intros (_ & _ & Hlen & Himg)%nms32_spec Hd Hin.
  assert (Hxi : xi < length (p_images p))
    by (rewrite <- Hlen; now apply lookup_lt_Some in Hd).
  destruct (lookup_lt_is_Some_2 _ _ Hxi) as [x0 Hx0].
  destruct (Himg xi x0 Hx0) as (r & Hr & Hout).
  rewrite Hd in Hout. injection Hout as ->.
  destruct r as [dets |]; simpl in Hin; [| now apply elem_of_nil in Hin].
  apply per_image32_inv in Hr
    as (c & Hc & sel & x & Hne & Hsel & Hfne & Hx & Hxlen & Hb).
  apply select32_spec in Hsel.
  apply (batched_nms32_elem_of _ _ _ _ _ _ Hb) in Hin.
  rewrite Forall_forall in Hx. apply Hx in Hin.
  apply filter_classes32_spec in Hin as [_ Hdsel].
  rewrite Forall_forall in Hsel.
  destruct (Hsel d Hdsel) as (a & _ & Hbox & _). now exists a.
Qed.

(** C1, as amended: when [non_max_suppression] has returned, no detection
    of an image overlaps a detection after it beyond [iou_thres], as the
    suppression measures the overlap: the quotient that the kernel of
    [nms] computes in binary32 on the boxes offset by class.  Where the
    offset is zero, with [agnostic] set or for class 0, that quotient is
    the entry of [box_iou]: two such detections with finite boxes have a
    [box_iou] that does not exceed [iou_thres]. *)
Theorem nms32_kernel_invariant out xi dets :
  non_max_suppression32 p conf_thres iou_thres classes agnostic multi_label
                        labels max_det = Ok out ->
  out !! xi = Some dets ->
  kernel_apart agnostic iou_thres dets /\
  (forall i j a b,
     i <> j -> dets !! i = Some a -> dets !! j = Some b ->
     exact_class a -> exact_class b ->
     no_offset agnostic a -> no_offset agnostic b ->
     finite_box a -> finite_box b ->
     iou32_exceeds iou_thres a b = false).
Proof.
  intros Hout Hd.
  assert (Hap : kernel_apart agnostic iou_thres dets).
  { destruct (nms32_image_cases _ _ _ _ _ _ _ _ _ _ _ Hout Hd) as [-> | [x Hx]].
    - intros i j a b _ Ha. now rewrite lookup_nil in Ha.
    - apply batched_nms32_offset_apart in Hx. intros i j a b Hij Ha Hb.
      exact (StronglySorted_lookup _ _ _ _ _ _ Hx Ha Hb Hij). }
  split; [exact Hap |].
  assert (Hlt : forall i j a b,
     i < j -> dets !! i = Some a -> dets !! j = Some b ->
     exact_class a -> exact_class b ->
     no_offset agnostic a -> no_offset agnostic b ->
     finite_box a -> finite_box b ->
     iou32_exceeds iou_thres a b = false /\
     iou32_exceeds iou_thres b a = false).
  { intros i j a b Hij Ha Hb Hea Heb Hna Hnb [qa Hqa] [qb Hqb].
    pose proof (Hap i j a b Hij Ha Hb) as H. unfold offset_apart32 in H.
    destruct (nms32_detection_box out xi dets a Hout Hd) as [ra Hra];
      [now apply list_elem_of_lookup_2 in Ha |].
    destruct (nms32_detection_box out xi dets b Hout Hd) as [rb Hrb];
      [now apply list_elem_of_lookup_2 in Hb |].
    rewrite (offset_box32_zero agnostic a ra Hra
               (class_offset32_zero agnostic a Hea Hna)),
            (offset_box32_zero agnostic b rb Hrb
               (class_offset32_zero agnostic b Heb Hnb)) in H.
    unfold iou32_exceeds. rewrite Hqa, Hqb in *.
    rewrite kernel_iou_finite in H.
    split; [exact H | now rewrite iou32_sym]. }
  intros i j a b Hne Ha Hb Hea Heb Hna Hnb Hfa Hfb.
  destruct (Nat.lt_total i j) as [Hij | [-> | Hji]]; [| done |].
  - now apply (Hlt i j a b).
  - now apply (Hlt j i b a).
Qed.

End detections32.

(** ** The float model: running the filter on its own output *)

Section reencoding32.
Local Open Scope Q_scope.
Variable nc : nat.
Variable conf_thres : Q.
Hypothesis conf_nonneg : 0 <= conf_thres.
Hypothesis conf_below_one : gt_scalar (Fin 1) conf_thres = true.

Lemma gate32_zero : gt_scalar (Fin 0) conf_thres = false.
Proof.
  unfold gt_scalar.
  assert (H : fle (rnd32 0) (rnd32 conf_thres)) by now apply rnd32_mono.
  change (rnd32 0) with (Fin 0) in H.
  destruct (rnd32 conf_thres) as [q | [] |]; simpl in *; try easy.
  now apply Qltb_ge.
Qed.

(** The fused class scores of a re-encoding row. *)
Lemma fuse32_reencodes d a :
  reencodes nc d a ->
  r_cls (fuse32 a) = <[fd_cls d:=Fin 1]> (replicate nc (Fin 0)) /\
  anchor_box32 (fuse32 a) = fd_box d.
Proof.
  intros (Hobj & Hcls & Hbox). split; [| exact Hbox].
  unfold fuse32. cbn [r_cls]. rewrite Hcls, Hobj.
  rewrite list_fmap_insert, fmap_replicate. reflexivity.
Qed.

Lemma row_max32_from_zeros best bi i n :
  f32_ltb best (Fin 0) = false ->
  row_max32_from best bi i (replicate n (Fin 0)) = (best, bi).
Proof.
  intros Hb. revert i. induction n as [| n IH]; intros i; simpl; [reflexivity |].
  rewrite Hb. apply IH.
Qed.

Lemma row_max32_from_one_hot n k bi i :
  (k < n)%nat ->
  row_max32_from (Fin 0) bi i (<[k:=Fin 1]> (replicate n (Fin 0))) =
  (Fin 1, (i + k)%nat).
Proof.
  revert k i. induction n as [| n IH]; intros k i Hk; [lia |].
  destruct k as [| k]; simpl.
  - rewrite row_max32_from_zeros by reflexivity. now rewrite Nat.add_0_r.
  - rewrite IH by lia. f_equal. lia.
Qed.

Lemma row_max32_one_hot k :
  (k < nc)%nat ->
  row_max32 (<[k:=Fin 1]> (replicate nc (Fin 0))) = Ok (Fin 1, k).
Proof.
  intros Hk. destruct nc as [| n]; [lia |]. destruct k as [| k]; simpl.
  - now rewrite row_max32_from_zeros.
  - now rewrite row_max32_from_one_hot by lia.
Qed.

(** In best-class mode a re-encoded detection is selected with its box,
    its class and confidence 1. *)
Lemma select_best32_reencode dets x :
  Forall2 (reencodes nc) dets x ->
  Forall (fun d => (fd_cls d < nc)%nat) dets ->
  select_best32 conf_thres (fuse32 <$> x) = Ok (redetected32 <$> dets).
Proof.
  intros Hre Hcls. unfold select_best32.
  assert (Ht : traverse
                 (fun r => m ← row_max32 (r_cls r);
                           Ok (FDet (anchor_box32 r) m.1 m.2))
                 (fuse32 <$> x) = Ok (redetected32 <$> dets)).
  { induction Hre as [| d a dets x Hda Hre IH]; [reflexivity |].
    apply Forall_cons in Hcls as [Hd Hcls].
    cbn [fmap list_fmap traverse].
    destruct (fuse32_reencodes d a Hda) as [Ec Eb].
    rewrite Ec, (row_max32_one_hot _ Hd). cbn [mbind result_bind rbind fst snd].
    rewrite Eb.
    change (list_fmap anchor frow fuse32 x) with (fuse32 <$> x).
    rewrite (IH Hcls). reflexivity. }
  rewrite Ht. cbn [mbind result_bind rbind]. f_equal.
  clear Ht Hre Hcls. induction dets as [| d dets IH]; [reflexivity |].
  cbn [fmap list_fmap]. rewrite filter_cons_True by apply conf_below_one.
  f_equal. exact IH.
Qed.

Lemma omap_one_hot32 (F : nat * fnum -> option fdet) (g : nat -> nat) n k d :
  (k < n)%nat ->
  (forall j, F (j, Fin 0) = None) -> F (g k, Fin 1) = Some d ->
  omap F (imap (fun i s => (g i, s)) (<[k:=Fin 1]> (replicate n (Fin 0)))) = [d].
Proof.
  intros Hk H0 H1.
  assert (Hzeros : forall (h : nat -> nat) m,
            omap F (imap (fun i s => (h i, s)) (replicate m (Fin 0))) = []).
  { intros h m. revert h. induction m as [| m IH]; intros h; [reflexivity |].
    simpl. rewrite H0. apply (IH (h ∘ S)). }
  revert g k Hk H1.
  induction n as [| n IH]; intros g k Hk H1; [lia |].
  destruct k as [| k]; simpl.
  - rewrite H1. f_equal. apply (Hzeros (g ∘ S)).
  - rewrite H0. apply (IH (g ∘ S) k); [lia | exact H1].
Qed.

(** And so it is in multi-label mode. *)
Lemma select_multi32_reencode dets x :
  Forall2 (reencodes nc) dets x ->
  Forall (fun d => (fd_cls d < nc)%nat) dets ->
  select_multi32 conf_thres (fuse32 <$> x) = redetected32 <$> dets.
Proof.
  intros Hre Hcls. unfold select_multi32.
  induction Hre as [| d a dets x Hda Hre IH]; [reflexivity |].
  apply Forall_cons in Hcls as [Hd Hcls].
  cbn [fmap list_fmap]. rewrite bind_cons.
  change (list_fmap anchor frow fuse32 x) with (fuse32 <$> x).
  rewrite (IH Hcls).
  destruct (fuse32_reencodes d a Hda) as [Ec Eb]. rewrite Ec, Eb.
  rewrite (omap_one_hot32 _ (fun i => i) nc (fd_cls d) (redetected32 d) Hd).
  - reflexivity.
  - intros j. cbn [fst snd]. now rewrite gate32_zero.
  - cbn [fst snd]. now rewrite conf_below_one.
Qed.

Lemma select32_reencode multi dets x :
  Forall2 (reencodes nc) dets x ->
  Forall (fun d => (fd_cls d < nc)%nat) dets ->
  select32 conf_thres multi (fuse32 <$> x) = Ok (redetected32 <$> dets).
Proof.
  intros Hre Hcls. unfold select32. destruct multi.
  - now rewrite (select_multi32_reencode dets).
  - now apply select_best32_reencode.
Qed.

(** Every re-encoding row passes the objectness gate. *)
Lemma candidates32_reencode xi dets x :
  Forall2 (reencodes nc) dets x ->
  candidates nc [] xi x (objectness_mask32 conf_thres x) = Ok x.
Proof.
  intros Hre. unfold candidates, objectness_mask32. simpl.
  rewrite mask_index_fmap. f_equal.
  induction Hre as [| d a dets x (Hobj & _) _ IH]; [reflexivity |].
  rewrite filter_cons_True; [now f_equal |].
  rewrite Hobj. exact conf_below_one.
Qed.

End reencoding32.

Section rerun32.
Variable agnostic : bool.
Variable thr : Q.

(** The step keeps every re-encoded detection, in the same order. *)
Lemma batched_nms32_redetected dets max_det :
  StronglySorted (offset_apart32 agnostic thr) dets ->
  (Z.of_nat (length dets) <= max_det)%Z ->
  batched_nms32 (redetected32 <$> dets) agnostic thr max_det =
  Ok (redetected32 <$> dets).
Proof.
  intros Hapart Hmax. unfold batched_nms32, nms_keep32, nms32.
  set (x := redetected32 <$> dets).
  assert (Hlen : length x = length dets) by apply length_fmap.
  assert (Hsc : fd_conf <$> x = replicate (length dets) (Fin 1)).
  { subst x. clear. induction dets as [| d dets IH]; [reflexivity |].
    cbn [fmap list_fmap length replicate]. f_equal. exact IH. }
  rewrite Hsc, argsort_desc32_const by reflexivity.
  rewrite !length_fmap, Hlen.
  rewrite nms_loop32_keeps_all.
  - rewrite limit_det_id by (now rewrite length_seq).
    rewrite <- Hlen. apply rows_seq.
  - rewrite Forall_forall. intros j Hj. apply elem_of_seq in Hj.
    rewrite length_replicate. lia.
  - rewrite Forall_forall. intros j _. apply suppressed_at_replicate.
  - apply StronglySorted_seq. intros i j Hij Hj.
    destruct (lookup_lt_is_Some_2 dets i) as [a Ha]; [lia |].
    destruct (lookup_lt_is_Some_2 dets j) as [b Hb]; [lia |].
    assert (Hxa : x !! i = Some (redetected32 a))
      by (subst x; now rewrite list_lookup_fmap, Ha).
    assert (Hxb : x !! j = Some (redetected32 b))
      by (subst x; now rewrite list_lookup_fmap, Hb).
    rewrite (overlaps32_offset _ _ _ _ _ _ _ Hxa Hxb).
    apply (StronglySorted_lookup _ _ i j _ _ Hapart Ha Hb). lia.
Qed.

End rerun32.

Section candidates_mask.
Variable nc : nat.

Lemma mask_index_elem_of {A} (x : list A) (mask : list bool) a :
  a ∈ mask_index x mask -> a ∈ x.
Proof.
  unfold mask_index. intros H.
  apply list_elem_of_fmap in H as ([a' m] & -> & H).
  apply list_elem_of_filter in H as [_ H].
  now apply elem_of_zip_l in H.
Qed.

Lemma candidates_cls_length_mask labels xi x mask c :
  Forall (fun a => length (a_cls a) = nc) x ->
  candidates nc labels xi x mask = Ok c ->
  Forall (fun a => length (a_cls a) = nc) c.
Proof.
  intros Hx. unfold candidates.
  destruct (label_rows nc labels xi) as [v |] eqn:Ev; [| discriminate].
  cbn [mbind result_bind rbind]. intros [= <-].
  assert (Hf : Forall (fun a => length (a_cls a) = nc) (mask_index x mask)).
  { rewrite Forall_forall in *. intros a Ha. apply Hx.
    now apply mask_index_elem_of in Ha. }
  destruct v as [v |]; [| exact Hf].
  apply Forall_app. split; [exact Hf |]. now apply label_rows_cls_length in Ev.
Qed.

Lemma fuse32_cls_length a : length (r_cls (fuse32 a)) = length (a_cls a).
Proof. unfold fuse32. simpl. apply length_fmap. Qed.

End candidates_mask.

Section idempotence32.
Local Open Scope Q_scope.
Variable p : prediction.
Variables conf_thres iou_thres : Q.
Variable classes : option (list Z).
Variables agnostic multi_label : bool.
Variable labels : list (list label).
Variable max_det : Z.

(** What a run of the function tells about the detections of an
    image. *)
Lemma nms32_image_facts out xi dets :
  non_max_suppression32 p conf_thres iou_thres classes agnostic multi_label
                        labels max_det = Ok out ->
  well_shaped p ->
  out !! xi = Some dets ->
  Forall (fun d => (fd_cls d < p_nc p)%nat /\ class_allowed32 classes d) dets /\
  (Z.of_nat (length dets) <= max_nms)%Z /\
  StronglySorted (offset_apart32 agnostic iou_thres) dets /\
  ((0 <= max_det)%Z -> (Z.of_nat (length dets) <= max_det)%Z).
Proof.
  intros (_ & _ & Hlen & Himg)%nms32_spec Hshape Hd.
  assert (Hxi : (xi < length (p_images p))%nat)
    by (rewrite <- Hlen; now apply lookup_lt_Some in Hd).
  destruct (lookup_lt_is_Some_2 _ _ Hxi) as [x0 Hx0].
  destruct (Himg xi x0 Hx0) as (r & Hr & Hout).
  rewrite Hd in Hout. injection Hout as ->.
  destruct r as [dets |]; simpl.
  2: { split; [constructor |]. split; [unfold max_nms; lia |].
       split; [constructor | auto]. }
  apply per_image32_inv in Hr
    as (c & Hc & sel & x & Hne & Hsel & Hfne & Hx & Hxlen & Hb).
  assert (Hclen : Forall (fun a => length (a_cls a) = p_nc p) c).
  { eapply candidates_cls_length_mask; [| exact Hc].
    unfold well_shaped in Hshape. rewrite Forall_forall in Hshape.
    apply Hshape. now apply list_elem_of_lookup_2 in Hx0. }
  apply select32_spec in Hsel.
  split; [| split; [| split]].
  - rewrite Forall_forall. intros d Hdin.
    apply (batched_nms32_elem_of _ _ _ _ _ _ Hb) in Hdin.
    rewrite Forall_forall in Hx. apply Hx in Hdin.
    apply filter_classes32_spec in Hdin as [Hallowed Hdsel].
    rewrite Forall_forall in Hsel.
    destruct (Hsel d Hdsel) as (a & Ha & _ & Hscore & Hgate).
    split; [| exact Hallowed].
    apply list_elem_of_fmap in Ha as (a0 & -> & Ha0).
    rewrite Forall_forall in Hclen. rewrite <- (Hclen a0 Ha0).
    rewrite <- (fuse32_cls_length a0). now apply lookup_lt_Some in Hscore.
  - pose proof (batched_nms32_length_le _ _ _ _ _ Hb). lia.
  - now apply batched_nms32_offset_apart in Hb.
  - intros Hm. now apply (batched_nms32_length _ _ _ _ _ Hm) in Hb.
Qed.

(** The loop body on rows that re-encode the detections of an image
    gives the detections back. *)
Lemma per_image32_reencode nc multi xi dets x :
  0 <= conf_thres -> gt_scalar (Fin 1) conf_thres = true ->
  Forall2 (reencodes nc) dets x ->
  Forall (fun d => (fd_cls d < nc)%nat /\ class_allowed32 classes d) dets ->
  (Z.of_nat (length dets) <= max_nms)%Z ->
  (Z.of_nat (length dets) <= max_det)%Z ->
  StronglySorted (offset_apart32 agnostic iou_thres) dets ->
  per_image32 nc conf_thres iou_thres classes agnostic multi [] max_det xi
              x (objectness_mask32 conf_thres x) =
  Ok (match dets with
      | [] => None
      | _ => Some (redetected32 <$> dets)
      end).
Proof.
  intros Hconf Hlt Hre Hfacts Hnms Hmax Hapart. unfold per_image32.
  rewrite (candidates32_reencode nc conf_thres Hlt xi dets x Hre).
  cbn [mbind result_bind rbind].
  destruct Hre as [| d a dets x Hda Hre]; [reflexivity |].
  assert (Hre' : Forall2 (reencodes nc) (d :: dets) (a :: x))
    by now constructor.
  unfold detect32.
  rewrite (select32_reencode nc conf_thres Hconf Hlt multi (d :: dets) (a :: x) Hre').
  2: { eapply Forall_impl; [exact Hfacts |]. now intros d' (H & _). }
  cbn [mbind result_bind rbind].
  rewrite filter_classes32_all.
  2: { rewrite Forall_fmap. eapply Forall_impl; [exact Hfacts |].
       now intros d' (_ & H). }
  rewrite length_fmap.
  destruct (decide (length (d :: dets) = 0%nat)) as [E | _]; [discriminate E |].
  destruct (Z.ltb_spec max_nms (Z.of_nat (length (d :: dets)))) as [? | _];
    [lia |].
  cbn [mbind result_bind rbind].
  now rewrite (batched_nms32_redetected agnostic iou_thres _ _ Hapart Hmax).
Qed.

(** C6, as amended: running [non_max_suppression] again on a tensor
    whose rows re-encode the detections of a first run with confidence 1
    (and no apriori labels) returns the same detections image by image:
    the same boxes and classes, in the same order, now with confidence 1.
    The rows are such that [xywh2xyxy] converts their boxes back to the
    boxes of the detections; the first tensor is well shaped, [max_det]
    is not negative, and [conf_thres] is below 1 as a float. *)
Theorem nms32_idempotent out p' :
  non_max_suppression32 p conf_thres iou_thres classes agnostic multi_label
                        labels max_det = Ok out ->
  well_shaped p ->
  (0 <= max_det)%Z ->
  gt_scalar (Fin 1) conf_thres = true ->
  p_nc p' = p_nc p ->
  Forall2 (Forall2 (reencodes (p_nc p))) out (p_images p') ->
  exists out',
    non_max_suppression32 p' conf_thres iou_thres classes agnostic
                          multi_label [] max_det = Ok out' /\
    Forall2 (Forall2 same_detection32) out out'.
Proof.
  intros Hrun Hshape Hmax Hlt Hnc Hre.
  pose proof (nms32_spec _ _ _ _ _ _ _ _ _ Hrun) as (Hc & Hi & Hlen & _).
  assert (Hconf : 0 <= conf_thres) by now apply valid_thres_true in Hc.
  assert (Hbody : forall xi dets x, out !! xi = Some dets ->
    p_images p' !! xi = Some x ->
    per_image32 (p_nc p') conf_thres iou_thres classes agnostic
                (multi_label && (1 <? p_nc p')) [] max_det xi
                x (objectness_mask32 conf_thres x) =
    Ok (match dets with
        | [] => None
        | _ => Some (redetected32 <$> dets)
        end)).
  { intros xi dets x Hd Hx.
    destruct (nms32_image_facts _ _ _ Hrun Hshape Hd) as (Hf & Hn & Ha & Hm).
    rewrite Hnc. apply per_image32_reencode; auto.
    exact (Forall2_lookup_lr _ _ _ _ _ _ Hre Hd Hx). }
  destruct (nms32_ok p' conf_thres iou_thres classes
              agnostic multi_label [] max_det Hc Hi) as [out' Hrun'].
  { intros xi x Hx.
    destruct (Forall2_lookup_r _ _ _ _ _ Hre Hx) as (dets & Hd & _).
    rewrite (Hbody xi dets x Hd Hx). now eexists. }
  exists out'. split; [exact Hrun' |].
  apply nms32_spec in Hrun' as (_ & _ & Hlen' & Himg').
  apply Forall2_same_length_lookup. split.
  { rewrite Hlen'. exact (Forall2_length _ _ _ Hre). }
  intros xi dets dets' Hd Hd'.
  assert (Hxi : (xi < length (p_images p'))%nat).
  { rewrite <- Hlen'. now apply lookup_lt_Some in Hd'. }
  destruct (lookup_lt_is_Some_2 _ _ Hxi) as [x Hx].
  destruct (Himg' xi x Hx) as (r & Hr & Hslot).
  rewrite (Hbody xi dets x Hd Hx) in Hr. injection Hr as <-.
  rewrite Hd' in Hslot. injection Hslot as ->.
  destruct dets as [| d dets]; [constructor |].
  clear. generalize (d :: dets). intros l.
  induction l as [| e l IH]; constructor; [reflexivity | exact IH].
Qed.

End idempotence32.

(** ** The matrix of [box_iou] in binary32 *)

Section iou32_matrix.
Local Open Scope Q_scope.

Lemma box_iou32_entry box1 box2 i j a b :
  box1 !! i = Some a -> box2 !! j = Some b ->
  entry (box_iou32 box1 box2) i j = Some (iou32 a b).
Proof.
  intros Ha Hb. unfold entry, box_iou32.
  rewrite list_lookup_fmap, Ha. simpl.
  now rewrite list_lookup_fmap, Hb.
Qed.

Lemma fbox_of_proper a b : box_eq a b -> iou32 (fbox_of a) (fbox_of b) = iou32 (fbox_of a) (fbox_of a).
Proof.
  intros (H1 & H2 & H3 & H4). unfold iou32.
  assert (Hi : box_inter32 (fbox_of a) (fbox_of b) =
               box_inter32 (fbox_of a) (fbox_of a)).
  { rewrite !box_inter32_of. f_equal; f_equal; apply rnd32_proper;
      now rewrite ?H1, ?H2, ?H3, ?H4. }
  assert (Ha : box_area32 (fbox_of b) = box_area32 (fbox_of a)).
  { unfold box_area32, fbox_of. cbn [fx1 fy1 fx2 fy2 f32_sub].
    f_equal; apply rnd32_proper; now rewrite ?H1, ?H2, ?H3, ?H4. }
  now rewrite Hi, Ha.
Qed.

(** C5, as amended: for boxes in corner form with finite coordinates,
    entry (i, j) of [box_iou box1 box2], computed in binary32, equals
    entry (j, i) of [box_iou box2 box1] (symmetry).  When the two areas
    that the function computes are finite, the entry is a number of
    [0, 1] as soon as one of them is positive, and it is [0 / 0],
    not-a-number, when both are zero.  The entry of a box against itself
    is 1 when its computed area [A] is positive and [2 * A] is below the
    overflow threshold [2 ^ 128]. *)
Theorem box_iou32_properties box1 box2 i j a b :
  box1 !! i = Some (fbox_of a) -> box2 !! j = Some (fbox_of b) ->
  corner_form a -> corner_form b ->
  exists e e',
    entry (box_iou32 box1 box2) i j = Some e /\
    entry (box_iou32 box2 box1) j i = Some e' /\
    e = e' /\
    (forall A B,
       box_area32 (fbox_of a) = Fin A -> box_area32 (fbox_of b) = Fin B ->
       (0 < A \/ 0 < B -> fin_between 0 1 e) /\
       (A == 0 -> B == 0 -> e = NaN)) /\
    (forall A,
       box_eq a b -> box_area32 (fbox_of a) = Fin A ->
       0 < A -> 2 * A < 2 ^ 128 -> e = Fin 1).
Proof.
  intros Hi Hj Ha Hb.
  exists (iou32 (fbox_of a) (fbox_of b)), (iou32 (fbox_of b) (fbox_of a)).
  rewrite (box_iou32_entry _ _ _ _ _ _ Hi Hj), (box_iou32_entry _ _ _ _ _ _ Hj Hi).
  split; [reflexivity |]. split; [reflexivity |].
  split; [apply iou32_sym |]. split.
  - intros A B HA HB. split.
    + now apply (iou32_unit a b A B).
    + now apply (iou32_degenerate a b A B).
  - intros A Hab HA Hpos Hfin. rewrite (fbox_of_proper a b Hab).
    now apply (iou32_self a A).
Qed.

End iou32_matrix.

Section iou32_samples.
Local Open Scope Q_scope.

(** Two overlapping squares (the entry is the binary32 number nearest to
    1/7), a square against itself, and two boxes without extent. *)
Lemma box_iou32_properties_witness :
  (exists e,
     entry (box_iou32 [fbox_of (Box 0 0 2 2)] [fbox_of (Box 1 1 3 3)]) 0 0
     = Some e /\
     entry (box_iou32 [fbox_of (Box 1 1 3 3)] [fbox_of (Box 0 0 2 2)]) 0 0
     = Some e /\
     fin_between 0 1 e) /\
  entry (box_iou32 [fbox_of (Box 0 0 2 2)] [fbox_of (Box 0 0 2 2)]) 0 0
  = Some (Fin 1) /\
  entry (box_iou32 [fbox_of (Box 0 0 0 0)] [fbox_of (Box 5 5 5 5)]) 0 0
  = Some NaN.
Proof.
  split; [| split].
  - destruct (box_iou32_properties
                [fbox_of (Box 0 0 2 2)] [fbox_of (Box 1 1 3 3)] 0 0
                (Box 0 0 2 2) (Box 1 1 3 3))
      as (e & e' & He & He' & Hsym & Hrange & _).
    + reflexivity.
    + reflexivity.
    + split; vm_compute; discriminate.
    + split; vm_compute; discriminate.
    + exists e. split; [exact He |]. split; [now rewrite Hsym |].
      destruct (Hrange 4 4) as [Hunit _].
      * reflexivity.
      * reflexivity.
      * apply Hunit. left. reflexivity.
  - destruct (box_iou32_properties
                [fbox_of (Box 0 0 2 2)] [fbox_of (Box 0 0 2 2)] 0 0
                (Box 0 0 2 2) (Box 0 0 2 2))
      as (e & e' & He & _ & _ & _ & Hself).
    + reflexivity.
    + reflexivity.
    + split; vm_compute; discriminate.
    + split; vm_compute; discriminate.
    + rewrite He. f_equal. apply (Hself 4).
      * repeat split; reflexivity.
      * reflexivity.
      * reflexivity.
      * reflexivity.
  - destruct (box_iou32_properties
                [fbox_of (Box 0 0 0 0)] [fbox_of (Box 5 5 5 5)] 0 0
                (Box 0 0 0 0) (Box 5 5 5 5))
      as (e & e' & He & _ & _ & Hrange & _).
    + reflexivity.
    + reflexivity.
    + split; vm_compute; discriminate.
    + split; vm_compute; discriminate.
    + rewrite He. f_equal. destruct (Hrange 0 0) as [_ Hnan].
      * reflexivity.
      * reflexivity.
      * apply Hnan; reflexivity.
Defined.

(** C5 as stated fails on the code.  For two boxes of area 0 the entry is
    [0 / 0], which is no number of [0, 1].  A square of side [2 ^ -100]
    has a positive area, but the area that the function computes
    underflows to 0: its entry against itself is [0 / 0] and not 1.  A
    box of area [2 ^ 127] has a finite computed area, but the sum of the
    two areas overflows: its entry against itself is 0 and not 1. *)
Lemma box_iou32_counterexamples :
  (corner_form (Box 0 0 0 0) /\
   entry (box_iou32 [fbox_of (Box 0 0 0 0)] [fbox_of (Box 0 0 0 0)]) 0 0
   = Some NaN /\
   ~ fin_between 0 1 NaN) /\
  (corner_form fex_tiny /\ binary32_box fex_tiny /\ 0 < box_area fex_tiny /\
   entry (box_iou32 [fbox_of fex_tiny] [fbox_of fex_tiny]) 0 0 = Some NaN) /\
  (corner_form fex_huge /\ binary32_box fex_huge /\ 0 < box_area fex_huge /\
   box_area32 (fbox_of fex_huge) = Fin (2 ^ 127) /\
   entry (box_iou32 [fbox_of fex_huge] [fbox_of fex_huge]) 0 0 = Some (Fin 0)).
Proof.
  split; [| split].
  - split; [split; vm_compute; discriminate |].
    split; [reflexivity | intros []].
  - split; [split; vm_compute; discriminate |].
    split; [repeat split; vm_compute; reflexivity |].
    split; [vm_compute; reflexivity | vm_compute; reflexivity].
  - split; [split; vm_compute; discriminate |].
    split; [repeat split; vm_compute; reflexivity |].
    split; [vm_compute; reflexivity |].
    split; vm_compute; reflexivity.
Qed.

End iou32_samples.

(** ** Sample runs in binary32 *)

Section detections32_samples.
Local Open Scope Q_scope.

(** The two detections of class 79 of the sample tensor, and two
    detections of class 0 whose boxes overlap by a third. *)
Lemma nms32_kernel_invariant_witness :
  kernel_apart false (45 # 100) [fex_d1; fex_d2] /\
  iou32_exceeds (45 # 100) fex_nd1 fex_nd2 = false.
Proof.
  split.
  - apply (fun H => proj1 (nms32_kernel_invariant fex_prediction (1 # 4)
             (45 # 100) None false false [] 300 [[fex_d1; fex_d2]] 0
             [fex_d1; fex_d2] H eq_refl)).
    vm_compute. reflexivity.
  - apply (fun H => proj2 (nms32_kernel_invariant fex_near (1 # 4)
             (45 # 100) None false false [] 300 [[fex_nd1; fex_nd2]] 0
             [fex_nd1; fex_nd2] H eq_refl) 0%nat 1%nat fex_nd1 fex_nd2).
    + vm_compute. reflexivity.
    + discriminate.
    + reflexivity.
    + reflexivity.
    + reflexivity.
    + reflexivity.
    + right. reflexivity.
    + right. reflexivity.
    + eexists. reflexivity.
    + eexists. reflexivity.
Defined.

(** C1 as stated fails on the code.  The sample tensor has two rows of
    class 79 around one center, 1 and 71/32 pixels wide.  Both are
    returned, although the IoU of their boxes is 32/71, which [box_iou]
    computes as 0.45070 and which exceeds [iou_thres] = 0.45: the kernel
    sees the boxes offset by 79 * 4096, where binary32 numbers are 1/32
    apart, and finds the quotient 0.44444. *)
Lemma nms32_same_class_overlap :
  float_tensor fex_prediction = true /\
  non_max_suppression32 fex_prediction (1 # 4) (45 # 100) None false false
                        [] 300 = Ok [[fex_d1; fex_d2]] /\
  fd_cls fex_d1 = fd_cls fex_d2 /\
  iou32_exceeds (45 # 100) fex_d1 fex_d2 = true /\
  entry (box_iou32 [fd_box fex_d1] [fd_box fex_d2]) 0 0
  = Some (Fin (3780781 # 8388608)) /\
  feq (iou (Box (199 # 2) (199 # 2) (201 # 2) (201 # 2))
           (Box (6329 # 64) (199 # 2) (6471 # 64) (201 # 2)))
      (Fin (32 # 71)) /\
  45 # 100 < 32 # 71 /\
  kernel_iou (offset_box32 false fex_d1) (offset_box32 false fex_d2)
  = Fin (14913081 # 33554432).
Proof.
  repeat split; vm_compute; reflexivity.
Qed.

End detections32_samples.

(** ** The class offset in binary32 *)

Section class_aware32.
Local Open Scope Q_scope.





End class_aware32.

(** ** A second run in binary32 *)

Section idempotence32_samples.
Local Open Scope Q_scope.

(** The sample tensor: rows that re-encode its two detections give them
    back with confidence 1. *)
Lemma nms32_idempotent_witness :
  exists out',
    non_max_suppression32 fex_again (1 # 4) (45 # 100) None false false []
                          300 = Ok out' /\
    Forall2 (Forall2 same_detection32) [[fex_d1; fex_d2]] out'.
Proof.
  apply (nms32_idempotent fex_prediction (1 # 4) (45 # 100) None false false
           [] 300 [[fex_d1; fex_d2]] fex_again).
  - vm_compute. reflexivity.
  - repeat constructor.
  - lia.
  - reflexivity.
  - reflexivity.
  - repeat constructor; vm_compute; reflexivity.
Defined.

(** C6 as stated fails on the code.  Of the two rows of class 79 both
    are returned: the kernel finds the quotient 0.44762 on their offset
    boxes.  Re-encoded in center form in binary32, the second box comes
    back from [xywh2xyxy] with [x1] one unit in the last place lower
    (8101/64 for 16590849/131072); offset by 79 * 4096 this rounds the
    other way, the kernel finds 0.45238, and the second run drops the
    detection. *)
Lemma nms32_rerun_suppresses :
  float_tensor (Prediction 80 [[fex_b1; fex_b2; fex_b2_again]]) = true /\
  exists d1 d2,
    non_max_suppression32 (Prediction 80 [[fex_b1; fex_b2]]) (1 # 4)
                          (45 # 100) None false false [] 300
    = Ok [[d1; d2]] /\
    center_form32 (fd_box d1)
    = (Fin (a_cx fex_b1), Fin (a_cy fex_b1), Fin (a_w fex_b1), Fin (a_h fex_b1)) /\
    center_form32 (fd_box d2)
    = (Fin (a_cx fex_b2_again), Fin (a_cy fex_b2_again),
       Fin (a_w fex_b2_again), Fin (a_h fex_b2_again)) /\
    fx1 (fd_box d2) = Fin (16590849 # 131072) /\
    fx1 (anchor_box32 (fuse32 fex_b2_again)) = Fin (8101 # 64) /\
    non_max_suppression32 (Prediction 80 [[fex_b1; fex_b2_again]]) (1 # 4)
                          (45 # 100) None false false [] 300
    = Ok [[redetected32 d1]].
Proof.
  split; [vm_compute; reflexivity |].
  eexists _, _. split; [vm_compute; reflexivity |].
  repeat split; vm_compute; reflexivity.
Qed.

End idempotence32_samples.

(** ** Further properties of [xywh2xyxy] and [box_iou] in binary32 *)

Section geometry32_more.
Local Open Scope Q_scope.

Lemma half32_nonneg w :
  0 <= w -> fle (Fin 0) (f32_div (Fin w) (Fin 2)).
Proof.
  intros Hw. cbn [f32_div]. change (Qeq_bool 2 0) with false. cbv iota.
  change (Fin 0) with (rnd32 0). apply rnd32_mono.
  apply Qle_shift_div_l; [reflexivity | lra].
Qed.

(** X7: in binary32, [xywh2xyxy] returns a box in corner form whenever
    the width and the height of the row are not negative: [x1 <= x2] and
    [y1 <= y2] as the floats compare, also where a coordinate
    overflows. *)
Theorem xywh2xyxy32_corner_form cx cy w h :
  0 <= w -> 0 <= h ->
  let b := xywh2xyxy32 (Fin cx) (Fin cy) (Fin w) (Fin h) in
  fle (fx1 b) (fx2 b) /\ fle (fy1 b) (fy2 b).
Proof.
  intros Hw Hh.
  assert (Hax : forall c v, 0 <= v ->
            fle (f32_sub (Fin c) (f32_div (Fin v) (Fin 2)))
                (f32_add (Fin c) (f32_div (Fin v) (Fin 2)))).
  { intros c v Hv. pose proof (half32_nonneg v Hv) as H0.
    destruct (f32_div (Fin v) (Fin 2)) as [q | [] |]; simpl in H0; try easy.
    cbn [f32_sub f32_add]. apply rnd32_mono. lra. }
  simpl. split; now apply Hax.
Qed.

(** Two boxes that do not meet along an axis: the clamped extent of the
    intersection along it is zero. *)
Lemma axis32_zero lo1 hi1 lo2 hi2 :
  hi1 <= lo2 \/ hi2 <= lo1 ->
  exists z, f32_clamp0 (rnd32 (Qmin hi1 hi2 - Qmax lo1 lo2)) = Fin z /\ z == 0.
Proof.
  intros Hsep. set (d := Qmin hi1 hi2 - Qmax lo1 lo2).
  assert (Hd : d <= 0).
  { unfold d. pose proof (Q.le_min_l hi1 hi2). pose proof (Q.le_min_r hi1 hi2).
    pose proof (Q.le_max_l lo1 lo2). pose proof (Q.le_max_r lo1 lo2).
    destruct Hsep; lra. }
  pose proof (fl32_nonpos d Hd) as Hf. pose proof pow128_pos as H128.
  unfold f32_clamp0.
  destruct (rnd32_cases d) as [[-> _] | [[-> Hc] | [-> _]]]; cbn [f32_ltb];
    [| lra | now exists 0].
  destruct (Qltb (fl32 d) 0) eqn:E; [now exists 0 |].
  apply Qltb_ge in E. exists (fl32 d). split; [reflexivity | lra].
Qed.

Lemma axis32_cases lo1 hi1 lo2 hi2 :
  (exists c, f32_clamp0 (rnd32 (Qmin hi1 hi2 - Qmax lo1 lo2)) = Fin c) \/
  f32_clamp0 (rnd32 (Qmin hi1 hi2 - Qmax lo1 lo2)) = Inf true.
Proof.
  unfold f32_clamp0.
  destruct (rnd32_cases (Qmin hi1 hi2 - Qmax lo1 lo2))
    as [[-> _] | [[-> _] | [-> _]]]; cbn [f32_ltb]; eauto.
  destruct (Qltb _ 0); eauto.
Qed.

Lemma f32_mul_zeroish z h :
  z == 0 -> (exists q, h = Fin q) \/ h = Inf true ->
  zero_or_nan (f32_mul (Fin z) h).
Proof.
  intros Hz [[q ->] | ->]; cbn [f32_mul].
  - rewrite rnd32_zero; [reflexivity | rewrite Hz; ring].
  - unfold inf_times. now rewrite (Qeq_eq_bool _ _ Hz).
Qed.

(** X10: two boxes of finite coordinates that do not meet have an entry
    that is zero or, by a division [0 / 0], not-a-number: never a
    positive number.  In corner form with finite computed areas of which
    one is positive, the entry is 0. *)
Theorem box_iou32_separated box1 box2 i j a b :
  box1 !! i = Some (fbox_of a) -> box2 !! j = Some (fbox_of b) ->
  separated a b ->
  exists e, entry (box_iou32 box1 box2) i j = Some e /\ zero_or_nan e /\
    (forall A B, corner_form a -> corner_form b ->
       box_area32 (fbox_of a) = Fin A -> box_area32 (fbox_of b) = Fin B ->
       0 < A \/ 0 < B -> feq e (Fin 0)).
Proof.
  intros Hi Hj Hsep. exists (iou32 (fbox_of a) (fbox_of b)).
  split; [now apply box_iou32_entry |].
  assert (Hz : zero_or_nan (iou32 (fbox_of a) (fbox_of b))).
  { unfold iou32. apply f32_div_zero_or_nan. rewrite box_inter32_of.
    destruct Hsep as [H | [H | [H | H]]].
    - destruct (axis32_zero (bx1 a) (bx2 a) (bx1 b) (bx2 b)) as (z & -> & Hz);
        [now left |]. apply f32_mul_zeroish; [exact Hz | apply axis32_cases].
    - destruct (axis32_zero (bx1 a) (bx2 a) (bx1 b) (bx2 b)) as (z & -> & Hz);
        [now right |]. apply f32_mul_zeroish; [exact Hz | apply axis32_cases].
    - destruct (axis32_zero (by1 a) (by2 a) (by1 b) (by2 b)) as (z & -> & Hz);
        [now left |]. rewrite f32_mul_comm.
      apply f32_mul_zeroish; [exact Hz | apply axis32_cases].
    - destruct (axis32_zero (by1 a) (by2 a) (by1 b) (by2 b)) as (z & -> & Hz);
        [now right |]. rewrite f32_mul_comm.
      apply f32_mul_zeroish; [exact Hz | apply axis32_cases]. }
  split; [exact Hz |].
  intros A B Ca Cb HA HB Hpos.
  pose proof (iou32_unit a b A B Ca Cb HA HB Hpos) as Hu.
  destruct (iou32 (fbox_of a) (fbox_of b)) as [q | s |]; simpl in *;
    [exact Hz | contradiction | contradiction].
Qed.

End geometry32_more.

Section geometry32_samples.
Local Open Scope Q_scope.

Lemma xywh2xyxy32_corner_form_witness :
  fle (fx1 (xywh2xyxy32 (Fin 100) (Fin 100) (Fin (71 # 32)) (Fin 1)))
      (fx2 (xywh2xyxy32 (Fin 100) (Fin 100) (Fin (71 # 32)) (Fin 1))) /\
  fle (fy1 (xywh2xyxy32 (Fin 100) (Fin 100) (Fin (71 # 32)) (Fin 1)))
      (fy2 (xywh2xyxy32 (Fin 100) (Fin 100) (Fin (71 # 32)) (Fin 1))).
Proof.
  apply (xywh2xyxy32_corner_form 100 100 (71 # 32) 1); vm_compute; discriminate.
Defined.

(** Two unit squares two pixels apart. *)
Lemma box_iou32_separated_witness :
  exists e,
    entry (box_iou32 [fbox_of (Box 0 0 1 1)] [fbox_of (Box 3 0 4 1)]) 0 0
    = Some e /\ feq e (Fin 0).
Proof.
  destruct (box_iou32_separated [fbox_of (Box 0 0 1 1)] [fbox_of (Box 3 0 4 1)]
              0 0 (Box 0 0 1 1) (Box 3 0 4 1)) as (e & He & _ & Hzero).
  - reflexivity.
  - reflexivity.
  - left. vm_compute. discriminate.
  - exists e. split; [exact He |]. apply (Hzero 1 1).
    + split; vm_compute; discriminate.
    + split; vm_compute; discriminate.
    + reflexivity.
    + reflexivity.
    + left. reflexivity.
Defined.

End geometry32_samples.

(** ** Rows stopped at the gates *)

Section gated_samples.
Local Open Scope Q_scope.


(** What stops the rows: one candidate row is lost at the objectness
    gate, one selected row is left after the confidence gate, and none
    after the class filter. *)
Example ex_gated_stages :
  candidates 2 [] 0 [ex_g1; ex_g2; ex_g3]
             (objectness_mask (1 # 4) [ex_g1; ex_g2; ex_g3])
  = Ok [ex_g2; ex_g3] /\
  (exists d, select (1 # 4) false (fuse <$> [ex_g2; ex_g3]) = Ok [d] /\
             d_cls d = 0%nat /\ filter_classes (Some [1%Z]) [d] = []).
Proof.
  split; [vm_compute; reflexivity |].
  eexists. split; [vm_compute; reflexivity |]. split; reflexivity.
Qed.

End gated_samples.
